(** * rocBLAS symv / syr: kernels, argument checks and dispatch

    A shallow embedding of
      - library/src/blas2/rocblas_symv.hpp
      - library/src/blas2/rocblas_syr.hpp
      - clients/common/rocblas_parse_data.cpp (the last part of the
        definitions)
    The element type [T] of the templates is instantiated by the exact
    integers [Z]: rounding, non-finite values and signed zeros of the
    floating-point element types are not modelled, so what is proved
    about the values stored holds in exact arithmetic, while what is
    proved about accesses, frames and control flow does not depend on
    [T].  [rocblas_int] values are integers whose 32-bit wrap-around is
    written out with [to_int]; device memory is a family of buffers
    indexed by element addresses, and every access to it is recorded in a
    log. *)

From Stdlib Require Import String Ascii ZArith List Bool Lia.
Import ListNotations.
Local Open Scope Z_scope.

(* ================================================================== *)
(** * Machine integers *)

Definition INT_MAX : Z := 2147483647.

(** Conversion of an integer result to [rocblas_int] (two's complement,
    32 bits). *)
Definition to_int (z : Z) : Z := (z + 2147483648) mod 4294967296 - 2147483648.

(* ================================================================== *)
(** * Enumerations of rocblas-types.h used by the two headers *)

Inductive rocblas_status :=
| rocblas_status_success
| rocblas_status_not_implemented
| rocblas_status_invalid_pointer
| rocblas_status_invalid_size
| rocblas_status_invalid_value
| rocblas_status_continue.

Inductive rocblas_fill :=
| rocblas_fill_upper
| rocblas_fill_lower
| rocblas_fill_full.

Inductive rocblas_pointer_mode :=
| rocblas_pointer_mode_host
| rocblas_pointer_mode_device.

Definition fill_eqb (a b : rocblas_fill) : bool :=
  match a, b with
  | rocblas_fill_upper, rocblas_fill_upper => true
  | rocblas_fill_lower, rocblas_fill_lower => true
  | rocblas_fill_full, rocblas_fill_full => true
  | _, _ => false
  end.

Definition pointer_mode_eqb (a b : rocblas_pointer_mode) : bool :=
  match a, b with
  | rocblas_pointer_mode_host, rocblas_pointer_mode_host => true
  | rocblas_pointer_mode_device, rocblas_pointer_mode_device => true
  | _, _ => false
  end.

(** The part of the handle the two headers look at. *)
Record rocblas_handle := mkHandle { pointer_mode : rocblas_pointer_mode }.

(* ================================================================== *)
(** * Memory, access log and the kernel monad *)

(** The buffers a call touches.  [A], [x] and [y] are separate objects
    (the kernels take them [__restrict__]); the two scalars live in
    buffers of their own, on the host or on the device. *)
Inductive buffer := BufA | BufX | BufY | BufAlpha | BufBeta.

Definition buffer_eqb (a b : buffer) : bool :=
  match a, b with
  | BufA, BufA | BufX, BufX | BufY, BufY
  | BufAlpha, BufAlpha | BufBeta, BufBeta => true
  | _, _ => false
  end.

Definition memory := buffer -> Z -> Z.

Definition upd (m : memory) (b : buffer) (a v : Z) : memory :=
  fun b' a' => if buffer_eqb b b' && (a =? a') then v else m b' a'.

Inductive event :=
| Rd (b : buffer) (a : Z)
| Wr (b : buffer) (a : Z).

Definition event_eqb (e1 e2 : event) : bool :=
  match e1, e2 with
  | Rd b1 a1, Rd b2 a2 => buffer_eqb b1 b2 && (a1 =? a2)
  | Wr b1 a1, Wr b2 a2 => buffer_eqb b1 b2 && (a1 =? a2)
  | _, _ => false
  end.

Definition event_buffer (e : event) : buffer :=
  match e with Rd b _ => b | Wr b _ => b end.

Definition event_addr (e : event) : Z :=
  match e with Rd _ a => a | Wr _ a => a end.

Definition is_read (e : event) : bool :=
  match e with Rd _ _ => true | Wr _ _ => false end.

(** [mem]: the buffers; [sdata]: the [__shared__] scratch array of the
    running block; [log]: the accesses to the buffers, newest first. *)
Record state := mkState {
  mem : memory;
  sdata : Z -> Z;
  log : list event
}.

(** A computation either yields a result and a state, or runs out of the
    iteration budget of a loop ([None]). *)
Definition M (R : Type) : Type := state -> option (R * state).

Definition ret {R} (r : R) : M R := fun s => Some (r, s).

Definition bind {R Q} (m : M R) (k : R -> M Q) : M Q :=
  fun s => match m s with
           | Some (r, s') => k r s'
           | None => None
           end.

Definition out_of_fuel {R} : M R := fun _ => None.

Declare Scope kernel_scope.
Delimit Scope kernel_scope with kernel.
Notation "x <- m ;; k" := (bind m (fun x => k))
  (at level 61, m at next level, right associativity) : kernel_scope.
Notation "m ;; k" := (bind m (fun _ => k))
  (at level 61, right associativity) : kernel_scope.
Local Open Scope kernel_scope.

Definition load (b : buffer) (a : Z) : M Z :=
  fun s => Some (mem s b a, mkState (mem s) (sdata s) (Rd b a :: log s)).

Definition store (b : buffer) (a v : Z) : M unit :=
  fun s => Some (tt, mkState (upd (mem s) b a v) (sdata s) (Wr b a :: log s)).

Definition sload (i : Z) : M Z :=
  fun s => Some (sdata s i, s).

Definition sstore (i v : Z) : M unit :=
  fun s => Some (tt, mkState (mem s)
                             (fun j => if i =? j then v else sdata s j)
                             (log s)).

Fixpoint iterM {X} (f : X -> M unit) (l : list X) : M unit :=
  match l with
  | [] => ret tt
  | x :: l' => f x ;; iterM f l'
  end.

Fixpoint mapM {X R} (f : X -> M R) (l : list X) : M (list R) :=
  match l with
  | [] => ret []
  | x :: l' => r <- f x ;; rs <- mapM f l' ;; ret (r :: rs)
  end.

(** [zrange lo k] is [lo, lo+1, ..., lo+k-1]. *)
Fixpoint zrange (lo : Z) (k : nat) : list Z :=
  match k with
  | O => []
  | S k' => lo :: zrange (lo + 1) k'
  end.

(* ================================================================== *)
(** * Grid, blocks and workers *)

Record dim3 := mkDim3 { dim_x : Z; dim_y : Z; dim_z : Z }.

(** The built-in coordinates of one worker. *)
Record tctx := mkCtx {
  hipBlockIdx_x : Z;  hipBlockIdx_y : Z;  hipBlockIdx_z : Z;
  hipThreadIdx_x : Z; hipThreadIdx_y : Z; hipThreadIdx_z : Z;
  hipBlockDim_x : Z;  hipBlockDim_y : Z;  hipBlockDim_z : Z
}.

(** What a worker has done when it stops: it returned from the kernel, or
    it waits at [__syncthreads()] with the rest of its body. *)
Inductive progress :=
| Returned
| Barrier (resume : M unit).

Definition syncthreads (rest : M unit) : M progress := ret (Barrier rest).

Definition resume (p : progress) : M unit :=
  match p with
  | Returned => ret tt
  | Barrier rest => rest
  end.

(** The workers of block [(bx,by,bz)], [threadIdx.x] running fastest. *)
Definition block_contexts (threads : dim3) (bx by_ bz : Z) : list tctx :=
  flat_map (fun tz =>
    flat_map (fun ty =>
      map (fun tx => mkCtx bx by_ bz tx ty tz
                           (dim_x threads) (dim_y threads) (dim_z threads))
          (zrange 0 (Z.to_nat (dim_x threads))))
      (zrange 0 (Z.to_nat (dim_y threads))))
    (zrange 0 (Z.to_nat (dim_z threads))).

(** One block: every worker runs to the barrier (or to its return), then
    the waiting workers run the rest of the body.  The workers of a block
    are taken in the order of their thread index. *)
Definition run_block (kernel : tctx -> M progress) (ctxs : list tctx) : M unit :=
  ps <- mapM kernel ctxs ;;
  iterM resume ps.

Definition grid_blocks (grid : dim3) : list (Z * Z * Z) :=
  flat_map (fun bz =>
    flat_map (fun by_ =>
      map (fun bx => (bx, by_, bz))
          (zrange 0 (Z.to_nat (dim_x grid))))
      (zrange 0 (Z.to_nat (dim_y grid))))
    (zrange 0 (Z.to_nat (dim_z grid))).

(** A launch runs the blocks of the grid one after the other; blocks do
    not synchronise with each other. *)
Definition hipLaunchKernelGGL (kernel : tctx -> M progress)
                              (grid threads : dim3) : M unit :=
  iterM (fun b => match b with
                  | (bx, by_, bz) =>
                      run_block kernel (block_contexts threads bx by_ bz)
                  end)
        (grid_blocks grid).

(* ================================================================== *)
(** * Scalar and batch address resolution *)

(** The template parameter [U]: a value of [T], or a pointer to it. *)
Inductive scalar_arg :=
| ByValue (v : Z)
| ByPointer (p : Z).

(** The template parameters [V], [W]: one pointer for all instances, or an
    array of pointers, one per instance. *)
Inductive batch_ptr :=
| SinglePtr (p : Z)
| PtrArray (base : Z) (ptrs : Z -> Z).

Definition is_null (p : batch_ptr) : bool :=
  match p with
  | SinglePtr p => p =? 0
  | PtrArray base _ => base =? 0
  end.

(** Modelled from the spec: [load_scalar] is declared in a header that is
    not part of the sources.  In device-resident mode the value is read
    from [pointer + batch_index * stride]; a host-resident value is
    passed by value and returned as it is. *)
Definition load_scalar (b : buffer) (x : scalar_arg) (idx inc : Z) : M Z :=
  match x with
  | ByValue v => ret v
  | ByPointer p => load b (p + idx * inc)
  end.

(** Modelled from the spec: [load_ptr_batch] is declared in a header that
    is not part of the sources.  The base address of instance [block] is
    found by indexing the array of per-instance pointers, or by adding
    [block * stride] to the single base pointer; the offset is added in
    both cases. *)
Definition load_ptr_batch (p : batch_ptr) (block offset stride : Z) : Z :=
  match p with
  | SinglePtr p => p + block * stride + offset
  | PtrArray _ ptrs => ptrs block + offset
  end.

(** Modelled from the spec: [cond_load_ptr_batch] is declared in a header
    that is not part of the sources.  The address is resolved as by
    [load_ptr_batch] when the condition holds; otherwise no instance
    pointer is loaded and the result is the null pointer. *)
Definition cond_load_ptr_batch (cond : bool) (p : batch_ptr)
                               (block offset stride : Z) : Z :=
  if cond then load_ptr_batch p block offset stride else 0.

(* ================================================================== *)
(** * rocblas_symv.hpp *)

Section SymvKernel.

(** The template parameters of the kernel. *)
Variables DIM_X DIM_Y : Z.

(** The loop [for(col = ty; col < n; col += DIM_Y)] of
    [symv_kernel_calc], from the column [col] it has reached and the
    partial sum [res_A] it has accumulated. *)
Fixpoint symv_column_loop (fuel : nat) (upper : bool)
         (n A lda x incx ind col res_A : Z) : M Z :=
  match fuel with
  | O => out_of_fuel
  | S fuel' =>
      if col <? n then
        res_A' <-
          (if ind <? n then
             tmp_A <-
               (if col >=? ind then
                  (if upper
                   then load BufA (A + to_int (ind + to_int (col * lda)))
                   else load BufA (A + to_int (col + to_int (ind * lda))))
                else
                  (if negb upper
                   then load BufA (A + to_int (ind + to_int (col * lda)))
                   else load BufA (A + to_int (col + to_int (ind * lda))))) ;;
             xv <- load BufX (x + to_int (col * incx)) ;;
             ret (res_A + tmp_A * xv)
           else ret res_A) ;;
        symv_column_loop fuel' upper n A lda x incx ind
                         (to_int (col + DIM_Y)) res_A'
      else ret res_A
  end.

(** [sdata[thread_id] += sdata[thread_id + DIM_X * i]]. *)
Definition symv_reduce_step (thread_id i : Z) : M unit :=
  a <- sload thread_id ;;
  b <- sload (to_int (thread_id + to_int (DIM_X * i))) ;;
  sstore thread_id (a + b).

Definition symv_kernel_calc (fuel : nat) (c : tctx) (upper : bool)
           (n alpha A lda x incx beta y incy : Z) : M progress :=
  let thread_id :=
    to_int (hipThreadIdx_x c + hipThreadIdx_y c * hipBlockDim_x c) in
  if alpha =? 0 then
    let ind := to_int (hipBlockIdx_x c * DIM_X + thread_id) in
    (if (thread_id <? DIM_X) && (ind <? n) then
       v <- (if beta =? 0 then ret 0
             else yv <- load BufY (y + to_int (ind * incy)) ;;
                  ret (beta * yv)) ;;
       store BufY (y + to_int (ind * incy)) v
     else ret tt) ;;
    ret Returned
  else
    let tx := Z.rem thread_id DIM_X in
    let ty := Z.quot thread_id DIM_X in
    let ind := to_int (hipBlockIdx_x c * DIM_X + tx) in
    res_A <- symv_column_loop fuel upper n A lda x incx ind ty 0 ;;
    sstore (to_int (tx + to_int (ty * DIM_X))) res_A ;;
    syncthreads (
      let ind := to_int (hipBlockIdx_x c * DIM_X + thread_id) in
      if (thread_id <? DIM_X) && (ind <? n) then
        iterM (symv_reduce_step thread_id)
              (zrange 1 (Z.to_nat (DIM_Y - 1))) ;;
        v <- (if beta =? 0 then
                s <- sload thread_id ;;
                ret (alpha * s)
              else
                s <- sload thread_id ;;
                yv <- load BufY (y + to_int (ind * incy)) ;;
                ret (alpha * s + beta * yv)) ;;
        store BufY (y + to_int (ind * incy)) v
      else ret tt).

Definition symv_kernel (fuel : nat) (c : tctx) (upper : bool) (n : Z)
           (alpha_device_host : scalar_arg) (stride_alpha : Z)
           (Aa : batch_ptr) (shifta lda strideA : Z)
           (xa : batch_ptr) (shiftx incx stridex : Z)
           (beta_device_host : scalar_arg) (stride_beta : Z)
           (ya : batch_ptr) (shifty incy stridey : Z) : M progress :=
  let num_threads :=
    to_int (hipBlockDim_x c * hipBlockDim_y c * hipBlockDim_z c) in
  if negb (DIM_X * DIM_Y =? num_threads) then ret Returned
  else
    alpha <- load_scalar BufAlpha alpha_device_host
                         (hipBlockIdx_y c) stride_alpha ;;
    beta <- load_scalar BufBeta beta_device_host
                        (hipBlockIdx_y c) stride_beta ;;
    if (alpha =? 0) && (beta =? 1) then ret Returned
    else
      let A := cond_load_ptr_batch (negb (alpha =? 0)) Aa
                                   (hipBlockIdx_y c) shifta strideA in
      let x := cond_load_ptr_batch (negb (alpha =? 0)) xa
                                   (hipBlockIdx_y c) shiftx stridex in
      let y := load_ptr_batch ya (hipBlockIdx_y c) shifty stridey in
      symv_kernel_calc fuel c upper n alpha A lda x incx beta y incy.

End SymvKernel.

Definition rocblas_symv_arg_check (handle : rocblas_handle)
           (uplo : rocblas_fill) (n : Z)
           (alpha stride_alpha : Z)
           (A : batch_ptr) (offseta lda strideA : Z)
           (x : batch_ptr) (offsetx incx stridex : Z)
           (beta stride_beta : Z)
           (y : batch_ptr) (offsety incy stridey : Z)
           (batch_count : Z) : rocblas_status :=
  if pointer_mode_eqb (pointer_mode handle) rocblas_pointer_mode_host
     && (negb (stride_alpha =? 0) || negb (stride_beta =? 0))
  then rocblas_status_not_implemented
  else if negb (fill_eqb uplo rocblas_fill_lower)
          && negb (fill_eqb uplo rocblas_fill_upper)
  then rocblas_status_invalid_value
  else if (n <? 0) || (lda <? n) || (lda <? 1) || (incx =? 0)
          || (incy =? 0) || (batch_count <? 0)
  then rocblas_status_invalid_size
  else if (n =? 0) || (batch_count =? 0)
  then rocblas_status_success
  else if is_null A || is_null x || is_null y
          || (alpha =? 0) || (beta =? 0)
  then rocblas_status_invalid_pointer
  else rocblas_status_continue.

Definition symv_DIM_X : Z := 64.
Definition symv_DIM_Y : Z := 16.

(** Conversion of a [rocblas_int] to the unsigned 32-bit fields of
    [dim3]. *)
Definition to_uint (z : Z) : Z := z mod 4294967296.

(** [dim3 threads(symv_DIM_X, symv_DIM_Y)]. *)
Definition symv_threads : dim3 :=
  mkDim3 (to_uint symv_DIM_X) (to_uint symv_DIM_Y) 1.

Definition rocblas_internal_symv_template (fuel : nat)
           (handle : rocblas_handle)
           (uplo : rocblas_fill) (n : Z)
           (alpha stride_alpha : Z)
           (A : batch_ptr) (offseta lda strideA : Z)
           (x : batch_ptr) (offsetx incx stridex : Z)
           (beta stride_beta : Z)
           (y : batch_ptr) (offsety incy stridey : Z)
           (batch_count : Z) : M rocblas_status :=
  if (n =? 0) || (batch_count =? 0) then ret rocblas_status_success
  else
    let shiftx := if incx <? 0 then offsetx - incx * (n - 1) else offsetx in
    let shifty := if incy <? 0 then offsety - incy * (n - 1) else offsety in
    let blocks := to_int (Z.quot (to_int (n - 1)) symv_DIM_X + 1) in
    let grid := mkDim3 (to_uint blocks) (to_uint batch_count) 1 in
    let threads := symv_threads in
    let upper := fill_eqb uplo rocblas_fill_upper in
    if pointer_mode_eqb (pointer_mode handle) rocblas_pointer_mode_device
    then
      hipLaunchKernelGGL
        (fun c => symv_kernel symv_DIM_X symv_DIM_Y fuel c upper n
                    (ByPointer alpha) stride_alpha A offseta lda strideA
                    x shiftx incx stridex
                    (ByPointer beta) stride_beta y shifty incy stridey)
        grid threads ;;
      ret rocblas_status_success
    else
      quick <-
        (if batch_count =? 1 then
           a <- load BufAlpha alpha ;;
           if a =? 0 then
             b <- load BufBeta beta ;;
             ret (b =? 1)
           else ret false
         else ret false) ;;
      if (quick : bool) then ret rocblas_status_success
      else
        a <- load BufAlpha alpha ;;
        b <- load BufBeta beta ;;
        hipLaunchKernelGGL
          (fun c => symv_kernel symv_DIM_X symv_DIM_Y fuel c upper n
                      (ByValue a) stride_alpha A offseta lda strideA
                      x shiftx incx stridex
                      (ByValue b) stride_beta y shifty incy stridey)
          grid threads ;;
        ret rocblas_status_success.

(* ================================================================== *)
(** * rocblas_syr.hpp *)

Definition rocblas_syr_kernel (c : tctx) (uplo : rocblas_fill) (n : Z)
           (alpha_device_host : scalar_arg) (stride_alpha : Z)
           (xa : batch_ptr) (shiftx incx stridex : Z)
           (Aa : batch_ptr) (shiftA lda strideA : Z) : M progress :=
  alpha <- load_scalar BufAlpha alpha_device_host
                       (hipBlockIdx_z c) stride_alpha ;;
  if alpha =? 0 then ret Returned
  else
    let tx := to_int (hipBlockIdx_x c * hipBlockDim_x c + hipThreadIdx_x c) in
    let ty := to_int (hipBlockIdx_y c * hipBlockDim_y c + hipThreadIdx_y c) in
    let x := load_ptr_batch xa (hipBlockIdx_z c) shiftx stridex in
    let A := load_ptr_batch Aa (hipBlockIdx_z c) shiftA strideA in
    (if (if fill_eqb uplo rocblas_fill_lower
         then (tx <? n) && (ty <=? tx)
         else (ty <? n) && (tx <=? ty))
     then
       xi <- load BufX (x + to_int (tx * incx)) ;;
       xj <- load BufX (x + to_int (ty * incx)) ;;
       a <- load BufA (A + to_int (tx + to_int (lda * ty))) ;;
       store BufA (A + to_int (tx + to_int (lda * ty)))
             (a + alpha * xi * xj)
     else ret tt) ;;
    ret Returned.

Definition rocblas_syr_arg_check (uplo : rocblas_fill) (n : Z)
           (alpha stride_alpha : Z)
           (x : batch_ptr) (offsetx incx stridex : Z)
           (A : batch_ptr) (offseta lda strideA : Z)
           (batch_count : Z) : rocblas_status :=
  if negb (fill_eqb uplo rocblas_fill_lower)
     && negb (fill_eqb uplo rocblas_fill_upper)
  then rocblas_status_invalid_value
  else if (n <? 0) || (incx =? 0) || (lda <? n) || (lda <? 1)
          || (batch_count <? 0)
  then rocblas_status_invalid_size
  else if (n =? 0) || (batch_count =? 0)
  then rocblas_status_success
  else if (alpha =? 0) || is_null x || is_null A
  then rocblas_status_invalid_pointer
  else rocblas_status_continue.

Definition GEMV_DIM_X : Z := 128.
Definition GEMV_DIM_Y : Z := 8.

(** [dim3 syr_threads(GEMV_DIM_X, GEMV_DIM_Y)]. *)
Definition syr_threads_dim : dim3 :=
  mkDim3 (to_uint GEMV_DIM_X) (to_uint GEMV_DIM_Y) 1.

Definition rocblas_internal_syr_template (handle : rocblas_handle)
           (uplo : rocblas_fill) (n : Z)
           (alpha stride_alpha : Z)
           (x : batch_ptr) (offsetx incx stridex : Z)
           (A : batch_ptr) (offseta lda strideA : Z)
           (batch_count : Z) : M rocblas_status :=
  if (n =? 0) || (batch_count =? 0) then ret rocblas_status_success
  else
    let blocksX := to_int (Z.quot (to_int (n - 1)) GEMV_DIM_X + 1) in
    let blocksY := to_int (Z.quot (to_int (n - 1)) GEMV_DIM_Y + 1) in
    let syr_grid :=
      mkDim3 (to_uint blocksX) (to_uint blocksY) (to_uint batch_count) in
    let syr_threads := syr_threads_dim in
    let shiftx := if incx <? 0 then offsetx - incx * (n - 1) else offsetx in
    if pointer_mode_eqb rocblas_pointer_mode_device (pointer_mode handle)
    then
      hipLaunchKernelGGL
        (fun c => rocblas_syr_kernel c uplo n (ByPointer alpha) stride_alpha
                    x shiftx incx stridex A offseta lda strideA)
        syr_grid syr_threads ;;
      ret rocblas_status_success
    else
      a <- load BufAlpha alpha ;;
      hipLaunchKernelGGL
        (fun c => rocblas_syr_kernel c uplo n (ByValue a) stride_alpha
                    x shiftx incx stridex A offseta lda strideA)
        syr_grid syr_threads ;;
      ret rocblas_status_success.

(* ================================================================== *)
(** * Vocabulary of the specification *)

Definition valid_fill (uplo : rocblas_fill) : Prop :=
  uplo = rocblas_fill_lower \/ uplo = rocblas_fill_upper.

(** Scalars on the host together with a per-batch stride on one of them. *)
Definition host_strided (handle : rocblas_handle)
                        (stride_alpha stride_beta : Z) : Prop :=
  pointer_mode handle = rocblas_pointer_mode_host
  /\ (stride_alpha <> 0 \/ stride_beta <> 0).

Definition symv_sizes_ok (n lda incx incy batch_count : Z) : Prop :=
  0 <= n /\ n <= lda /\ 1 <= lda /\ incx <> 0 /\ incy <> 0
  /\ 0 <= batch_count.

Definition syr_sizes_ok (n lda incx batch_count : Z) : Prop :=
  0 <= n /\ n <= lda /\ 1 <= lda /\ incx <> 0 /\ 0 <= batch_count.

(* ================================================================== *)
(** * What symv computes *)

(** [sumZ f k] is the sum of [f 0], ..., [f (k-1)]. *)
Fixpoint sumZ (f : Z -> Z) (k : nat) : Z :=
  match k with
  | O => 0
  | S k' => sumZ f k' + f (Z.of_nat k')
  end.

(** Position [(r,c)] lies on the stored triangle. *)
Definition on_triangle (upper : bool) (r c : Z) : bool :=
  if upper then r <=? c else c <=? r.

(** The entry [(r,c)] of the symmetric matrix stored in one triangle of
    the column-major buffer at [A]: the stored entry on the triangle, the
    mirrored stored entry off it. *)
Definition A_sym (m : memory) (upper : bool) (A lda r c : Z) : Z :=
  if on_triangle upper r c
  then m BufA (A + (r + c * lda))
  else m BufA (A + (c + r * lda)).

(** The arguments of [symv_kernel_calc] for one batch instance. *)
Record symv_inst := mkInst {
  i_upper : bool; i_n : Z; i_alpha : Z; i_A : Z; i_lda : Z;
  i_x : Z; i_incx : Z; i_beta : Z; i_y : Z; i_incy : Z
}.

Definition xaddr (q : symv_inst) (c : Z) : Z := i_x q + c * i_incx q.
Definition yaddr (q : symv_inst) (r : Z) : Z := i_y q + r * i_incy q.

(** The product of row [r] of the symmetric matrix with [x]. *)
Definition symv_term (q : symv_inst) (m : memory) (r c : Z) : Z :=
  A_sym m (i_upper q) (i_A q) (i_lda q) r c * m BufX (xaddr q c).

Definition symv_dot (q : symv_inst) (m : memory) (r : Z) : Z :=
  sumZ (symv_term q m r) (Z.to_nat (i_n q)).

(** [beta * y[r] + alpha * (A x)[r]] on the memory [m]. *)
Definition symv_result (q : symv_inst) (m : memory) (r : Z) : Z :=
  i_beta q * m BufY (yaddr q r) + i_alpha q * symv_dot q m r.

(** The case in which [symv_kernel] returns before [symv_kernel_calc]. *)
Definition quick_return (q : symv_inst) : Prop :=
  i_alpha q = 0 /\ i_beta q = 1.

(** The scalar resolved for batch instance [idx] on the memory [m]. *)
Definition resolve_scalar (m : memory) (b : buffer) (x : scalar_arg)
                          (idx inc : Z) : Z :=
  match x with
  | ByValue v => v
  | ByPointer p => m b (p + idx * inc)
  end.

Definition scalar_event_ok (x : scalar_arg) (idx inc a : Z) : Prop :=
  match x with
  | ByValue _ => False
  | ByPointer p => a = p + idx * inc
  end.

(** The accesses one batch instance of symv may make: the stored triangle
    of [A] and the [n] entries of [x] unless [alpha = 0]; the [n] entries
    of [y], written unless the kernel returns early and read only when
    [beta <> 0]; the two scalars when they are on the device. *)
Definition symv_event_ok (q : symv_inst) (alpha_dh beta_dh : scalar_arg)
           (idx stride_alpha stride_beta : Z) (e : event) : Prop :=
  match e with
  | Rd BufA a =>
      i_alpha q <> 0
      /\ exists i j, 0 <= i < i_n q /\ 0 <= j < i_n q
                     /\ on_triangle (i_upper q) i j = true
                     /\ a = i_A q + (i + j * i_lda q)
  | Rd BufX a =>
      i_alpha q <> 0 /\ exists c, 0 <= c < i_n q /\ a = xaddr q c
  | Rd BufY a =>
      i_beta q <> 0 /\ ~ quick_return q
      /\ exists r, 0 <= r < i_n q /\ a = yaddr q r
  | Wr BufY a =>
      ~ quick_return q /\ exists r, 0 <= r < i_n q /\ a = yaddr q r
  | Rd BufAlpha a => scalar_event_ok alpha_dh idx stride_alpha a
  | Rd BufBeta a => scalar_event_ok beta_dh idx stride_beta a
  | _ => False
  end.

(** The state during a batch instance that started on memory [m0] with
    log [l0], when the rows below [d] are done: the rows below [d] hold
    their result, the other rows and everything else are as in [m0]; the
    new accesses are allowed ones, and every row that is done has been
    written, and read when [beta <> 0]. *)
Definition symv_inv (q : symv_inst) (P : event -> Prop)
           (m0 : memory) (l0 : list event) (d : Z) (s : state) : Prop :=
  (forall b a, b <> BufY -> mem s b a = m0 b a)
  /\ (forall a, (forall r, 0 <= r < i_n q -> a <> yaddr q r) ->
                mem s BufY a = m0 BufY a)
  /\ (forall r, 0 <= r < i_n q ->
                mem s BufY (yaddr q r)
                = if r <? d then symv_result q m0 r else m0 BufY (yaddr q r))
  /\ (exists evs,
         log s = evs ++ l0 /\ Forall P evs
         /\ forall r, 0 <= r < i_n q -> r < d -> ~ quick_return q ->
                      In (Wr BufY (yaddr q r)) evs
                      /\ (i_beta q <> 0 -> In (Rd BufY (yaddr q r)) evs)).

(** Sizes whose index arithmetic stays inside [rocblas_int]. *)
Definition symv_range_ok (n lda incx incy : Z) : Prop :=
  0 <= n /\ n <= lda /\ n * lda <= INT_MAX
  /\ n * Z.abs incx <= INT_MAX /\ n * Z.abs incy <= INT_MAX.

(** The columns [col, col+16, ...] a worker visits: [k] of them. *)
Fixpoint strided_sum (f : Z -> Z) (col : Z) (k : nat) : Z :=
  match k with
  | O => 0
  | S k' => f col + strided_sum f (col + 16) k'
  end.

(** The number of iterations of the column loop from [col]. *)
Definition col_iters (n col : Z) : nat := Z.to_nat ((n - col + 15) / 16).

(** The worker with thread index [k] of block [(bx,by,0)] of a launch
    with 64 x 16 x 1 workers per block. *)
Definition symv_ctx (bx by_ k : Z) : tctx :=
  mkCtx bx by_ 0 (k mod 64) (k / 64) 0 64 16 1.

(** The log of [s'] extends the log of [s] by accesses satisfying [P]. *)
Definition log_ext (P : event -> Prop) (s s' : state) : Prop :=
  exists evs, log s' = evs ++ log s /\ Forall P evs.

(** The part of [symv_kernel_calc] after [__syncthreads()], for the tile
    of the dispatcher. *)
Definition symv_post (c : tctx) (q : symv_inst) : M unit :=
  let thread_id :=
    to_int (hipThreadIdx_x c + hipThreadIdx_y c * hipBlockDim_x c) in
  let ind := to_int (hipBlockIdx_x c * symv_DIM_X + thread_id) in
  if (thread_id <? symv_DIM_X) && (ind <? i_n q) then
    iterM (symv_reduce_step symv_DIM_X thread_id)
          (zrange 1 (Z.to_nat (symv_DIM_Y - 1))) ;;
    v <- (if i_beta q =? 0 then
            s <- sload thread_id ;;
            ret (i_alpha q * s)
          else
            s <- sload thread_id ;;
            yv <- load BufY (i_y q + to_int (ind * i_incy q)) ;;
            ret (i_alpha q * s + i_beta q * yv)) ;;
    store BufY (i_y q + to_int (ind * i_incy q)) v
  else ret tt.

(** The partial sum the worker with thread index [k] of block [bx]
    leaves in [sdata[k]]. *)
Definition symv_partial (q : symv_inst) (m : memory) (bx k : Z) : Z :=
  if bx * 64 + k mod 64 <? i_n q
  then strided_sum (symv_term q m (bx * 64 + k mod 64))
                   (k / 64) (col_iters (i_n q) (k / 64))
  else 0.

(** From [s] to [s'], row [r] of [y] has been given the value [v]:
    nothing else changed, and the new accesses are allowed ones among
    which are the write of the row and, when [beta <> 0], its read. *)
Definition row_written (q : symv_inst) (P : event -> Prop)
           (r v : Z) (s s' : state) : Prop :=
  (forall b a, mem s' b a = upd (mem s) BufY (yaddr q r) v b a)
  /\ exists evs,
       log s' = evs ++ log s /\ Forall P evs
       /\ In (Wr BufY (yaddr q r)) evs
       /\ (i_beta q <> 0 -> In (Rd BufY (yaddr q r)) evs).

(** The arguments of a launch of [symv_kernel]. *)
Record symv_launch := mkLaunch {
  l_upper : bool; l_n : Z;
  l_alpha : scalar_arg; l_stride_alpha : Z;
  l_Aa : batch_ptr; l_shifta : Z; l_lda : Z; l_strideA : Z;
  l_xa : batch_ptr; l_shiftx : Z; l_incx : Z; l_stridex : Z;
  l_beta : scalar_arg; l_stride_beta : Z;
  l_ya : batch_ptr; l_shifty : Z; l_incy : Z; l_stridey : Z
}.

(** [symv_kernel] with the tile of the dispatcher, as a function of the
    worker. *)
Definition symv_worker (fuel : nat) (a : symv_launch) (c : tctx) : M progress :=
  symv_kernel symv_DIM_X symv_DIM_Y fuel c (l_upper a) (l_n a)
    (l_alpha a) (l_stride_alpha a)
    (l_Aa a) (l_shifta a) (l_lda a) (l_strideA a)
    (l_xa a) (l_shiftx a) (l_incx a) (l_stridex a)
    (l_beta a) (l_stride_beta a)
    (l_ya a) (l_shifty a) (l_incy a) (l_stridey a).

(** What [symv_kernel] passes to [symv_kernel_calc] for the batch
    instance [idx] on the memory [m]. *)
Definition symv_instance (a : symv_launch) (m : memory) (idx : Z) : symv_inst :=
  let alpha :=
    resolve_scalar m BufAlpha (l_alpha a) idx (l_stride_alpha a) in
  mkInst (l_upper a) (l_n a) alpha
         (cond_load_ptr_batch (negb (alpha =? 0)) (l_Aa a) idx
                              (l_shifta a) (l_strideA a))
         (l_lda a)
         (cond_load_ptr_batch (negb (alpha =? 0)) (l_xa a) idx
                              (l_shiftx a) (l_stridex a))
         (l_incx a)
         (resolve_scalar m BufBeta (l_beta a) idx (l_stride_beta a))
         (load_ptr_batch (l_ya a) idx (l_shifty a) (l_stridey a))
         (l_incy a).

(** The accesses allowed to batch instance [idx] of a launch. *)
Definition symv_launch_event_ok (a : symv_launch) (m : memory) (idx : Z)
                                (e : event) : Prop :=
  symv_event_ok (symv_instance a m idx) (l_alpha a) (l_beta a) idx
                (l_stride_alpha a) (l_stride_beta a) e.

(** The number of row tiles of a launch, [(n - 1) / symv_DIM_X + 1]. *)
Definition symv_blocks (n : Z) : Z := (n - 1) / 64 + 1.

(** The rows of [y] of different batch instances do not overlap. *)
Definition batch_disjoint (ya : batch_ptr) (shifty incy stridey : Z)
                          (n batch_count : Z) : Prop :=
  forall b b' r r',
    0 <= b < batch_count -> 0 <= b' < batch_count ->
    0 <= r < n -> 0 <= r' < n -> b <> b' ->
    load_ptr_batch ya b shifty stridey + r * incy
    <> load_ptr_batch ya b' shifty stridey + r' * incy.

(** The state of a launch that started on memory [m0] with log [l0],
    when the batch instances below [k] are done. *)
Definition symv_batch_inv (a : symv_launch) (batch_count : Z)
           (m0 : memory) (l0 : list event) (k : Z) (s : state) : Prop :=
  (forall b addr, b <> BufY -> mem s b addr = m0 b addr)
  /\ (forall addr,
         (forall b r, 0 <= b < batch_count -> 0 <= r < l_n a ->
                      addr <> yaddr (symv_instance a m0 b) r) ->
         mem s BufY addr = m0 BufY addr)
  /\ (forall b r, 0 <= b < batch_count -> 0 <= r < l_n a ->
         mem s BufY (yaddr (symv_instance a m0 b) r)
         = if b <? k
           then symv_result (symv_instance a m0 b) m0 r
           else m0 BufY (yaddr (symv_instance a m0 b) r))
  /\ (exists evs,
         log s = evs ++ l0
         /\ Forall (fun e => exists b, 0 <= b < batch_count
                                       /\ symv_launch_event_ok a m0 b e) evs
         /\ forall b r, 0 <= b < batch_count -> b < k -> 0 <= r < l_n a ->
                        ~ quick_return (symv_instance a m0 b) ->
                        In (Wr BufY (yaddr (symv_instance a m0 b) r)) evs
                        /\ (i_beta (symv_instance a m0 b) <> 0 ->
                            In (Rd BufY (yaddr (symv_instance a m0 b) r)) evs)).

(* ================================================================== *)
(** * A call of the symv dispatcher *)

(** The shift the dispatcher applies to the offset of a vector. *)
Definition vector_shift (offset inc n : Z) : Z :=
  if inc <? 0 then offset - inc * (n - 1) else offset.

(** How the dispatcher hands a scalar to the kernel: the pointer in
    device-resident mode, the value read on the host otherwise. *)
Definition scalar_of_mode (handle : rocblas_handle) (m : memory)
                          (b : buffer) (p : Z) : scalar_arg :=
  match pointer_mode handle with
  | rocblas_pointer_mode_device => ByPointer p
  | rocblas_pointer_mode_host => ByValue (m b p)
  end.

(** The launch the dispatcher makes for a call on the memory [m]. *)
Definition symv_call_launch (handle : rocblas_handle) (m : memory)
           (uplo : rocblas_fill) (n : Z)
           (alpha stride_alpha : Z)
           (A : batch_ptr) (offseta lda strideA : Z)
           (x : batch_ptr) (offsetx incx stridex : Z)
           (beta stride_beta : Z)
           (y : batch_ptr) (offsety incy stridey : Z) : symv_launch :=
  mkLaunch (fill_eqb uplo rocblas_fill_upper) n
           (scalar_of_mode handle m BufAlpha alpha) stride_alpha
           A offseta lda strideA
           x (vector_shift offsetx incx n) incx stridex
           (scalar_of_mode handle m BufBeta beta) stride_beta
           y (vector_shift offsety incy n) incy stridey.


Definition call_A (a : symv_launch) (idx : Z) : Z :=
  load_ptr_batch (l_Aa a) idx (l_shifta a) (l_strideA a).
Definition call_x (a : symv_launch) (idx c : Z) : Z :=
  load_ptr_batch (l_xa a) idx (l_shiftx a) (l_stridex a) + c * l_incx a.
Definition call_y (a : symv_launch) (idx r : Z) : Z :=
  load_ptr_batch (l_ya a) idx (l_shifty a) (l_stridey a) + r * l_incy a.


(** The reads of the two scalars the dispatcher makes on the host. *)
Definition host_scalar_read (alpha beta : Z) (e : event) : Prop :=
  e = Rd BufAlpha alpha \/ e = Rd BufBeta beta.


(** An access of batch instance [idx] that lies inside the stored
    triangle of its matrix, inside its two vectors of [n] entries, or on
    one of its scalars. *)
Definition symv_in_bounds (a : symv_launch) (idx : Z) (e : event) : Prop :=
  match e with
  | Rd BufA addr =>
      exists i j, 0 <= i < l_n a /\ 0 <= j < l_n a
                  /\ on_triangle (l_upper a) i j = true
                  /\ addr = call_A a idx + (i + j * l_lda a)
  | Rd BufX addr => exists c, 0 <= c < l_n a /\ addr = call_x a idx c
  | Rd BufY addr => exists r, 0 <= r < l_n a /\ addr = call_y a idx r
  | Wr BufY addr => exists r, 0 <= r < l_n a /\ addr = call_y a idx r
  | Rd BufAlpha addr =>
      scalar_event_ok (l_alpha a) idx (l_stride_alpha a) addr
  | Rd BufBeta addr =>
      scalar_event_ok (l_beta a) idx (l_stride_beta a) addr
  | _ => False
  end.

(** [e] reads buffer [b]; [e] writes buffer [b]. *)
Definition reads_buffer (b : buffer) (e : event) : bool :=
  match e with
  | Rd b' _ => buffer_eqb b b'
  | Wr _ _ => false
  end.

Definition writes_buffer (b : buffer) (e : event) : bool :=
  match e with
  | Wr b' _ => buffer_eqb b b'
  | Rd _ _ => false
  end.


(* ================================================================== *)
(** * What syr computes *)

(** The arguments of a launch of [rocblas_syr_kernel]. *)
Record syr_launch := mkSyrLaunch {
  s_uplo : rocblas_fill; s_n : Z;
  s_alpha : scalar_arg; s_stride_alpha : Z;
  s_xa : batch_ptr; s_shiftx : Z; s_incx : Z; s_stridex : Z;
  s_Aa : batch_ptr; s_shiftA : Z; s_lda : Z; s_strideA : Z
}.

Definition syr_worker (a : syr_launch) (c : tctx) : M progress :=
  rocblas_syr_kernel c (s_uplo a) (s_n a) (s_alpha a) (s_stride_alpha a)
    (s_xa a) (s_shiftx a) (s_incx a) (s_stridex a)
    (s_Aa a) (s_shiftA a) (s_lda a) (s_strideA a).

(** Position [(i,j)] lies on the triangle the kernel updates: [j <= i < n]
    for the lower triangle, [i <= j < n] otherwise. *)
Definition syr_on_triangle (uplo : rocblas_fill) (n i j : Z) : bool :=
  if fill_eqb uplo rocblas_fill_lower
  then (i <? n) && (j <=? i)
  else (j <? n) && (i <=? j).

Definition syr_alpha (a : syr_launch) (m : memory) (idx : Z) : Z :=
  resolve_scalar m BufAlpha (s_alpha a) idx (s_stride_alpha a).
Definition syr_x (a : syr_launch) (idx i : Z) : Z :=
  load_ptr_batch (s_xa a) idx (s_shiftx a) (s_stridex a) + i * s_incx a.
Definition syr_A (a : syr_launch) (idx i j : Z) : Z :=
  load_ptr_batch (s_Aa a) idx (s_shiftA a) (s_strideA a)
  + (i + s_lda a * j).

(** The position a worker stands for. *)
Definition worker_i (c : tctx) : Z :=
  hipBlockIdx_x c * hipBlockDim_x c + hipThreadIdx_x c.
Definition worker_j (c : tctx) : Z :=
  hipBlockIdx_y c * hipBlockDim_y c + hipThreadIdx_y c.

(** The worker updates its position. *)
Definition syr_active (a : syr_launch) (m : memory) (c : tctx) : bool :=
  negb (syr_alpha a m (hipBlockIdx_z c) =? 0)
  && syr_on_triangle (s_uplo a) (s_n a) (worker_i c) (worker_j c).

Definition syr_target (a : syr_launch) (c : tctx) : Z :=
  syr_A a (hipBlockIdx_z c) (worker_i c) (worker_j c).

Definition syr_delta (a : syr_launch) (m : memory) (c : tctx) : Z :=
  syr_alpha a m (hipBlockIdx_z c)
  * m BufX (syr_x a (hipBlockIdx_z c) (worker_i c))
  * m BufX (syr_x a (hipBlockIdx_z c) (worker_j c)).

(** The workers among [l] that update the address [addr]. *)
Definition syr_hits (a : syr_launch) (m : memory) (l : list tctx)
                    (addr : Z) : list tctx :=
  filter (fun c => syr_active a m c && (syr_target a c =? addr)) l.

Definition sum_deltas (a : syr_launch) (m : memory) (l : list tctx) : Z :=
  fold_right (fun c acc => syr_delta a m c + acc) 0 l.

(** The number of writes of [A] at [addr] in a log. *)
Definition writes_at (addr : Z) (evs : list event) : nat :=
  Datatypes.length (filter (event_eqb (Wr BufA addr)) evs).

(** The accesses a launch of syr may make: entries of [A] on the
    triangle of a batch instance, entries of its [x], its scalar. *)
Definition syr_event_ok (a : syr_launch) (batch_count : Z) (e : event) : Prop :=
  match e with
  | Rd BufA addr | Wr BufA addr =>
      exists b i j, 0 <= b < batch_count /\ 0 <= i /\ 0 <= j
                    /\ syr_on_triangle (s_uplo a) (s_n a) i j = true
                    /\ addr = syr_A a b i j
  | Rd BufX addr =>
      exists b i, 0 <= b < batch_count /\ 0 <= i < s_n a
                  /\ addr = syr_x a b i
  | Rd BufAlpha addr =>
      exists b, 0 <= b < batch_count
                /\ scalar_event_ok (s_alpha a) b (s_stride_alpha a) addr
  | _ => False
  end.

(** An allowed access of a launch on the memory [m]: as [syr_event_ok],
    and [A] and [x] are accessed only for a batch instance whose [alpha]
    is not [0]. *)
Definition syr_event_live (a : syr_launch) (m : memory) (batch_count : Z)
                          (e : event) : Prop :=
  match e with
  | Rd BufA addr | Wr BufA addr =>
      exists b i j, 0 <= b < batch_count /\ 0 <= i /\ 0 <= j
                    /\ syr_alpha a m b <> 0
                    /\ syr_on_triangle (s_uplo a) (s_n a) i j = true
                    /\ addr = syr_A a b i j
  | Rd BufX addr =>
      exists b i, 0 <= b < batch_count /\ 0 <= i < s_n a
                  /\ syr_alpha a m b <> 0
                  /\ addr = syr_x a b i
  | Rd BufAlpha addr =>
      exists b, 0 <= b < batch_count
                /\ scalar_event_ok (s_alpha a) b (s_stride_alpha a) addr
  | _ => False
  end.

(** The state of a launch of syr that started on memory [m0] with log
    [l0], when the workers [done] have run. *)
Definition syr_inv (a : syr_launch) (batch_count : Z)
           (m0 : memory) (l0 : list event)
           (done : list tctx) (s : state) : Prop :=
  (forall b addr, b <> BufA -> mem s b addr = m0 b addr)
  /\ (forall addr, mem s BufA addr
                   = m0 BufA addr + sum_deltas a m0 (syr_hits a m0 done addr))
  /\ (exists evs,
         log s = evs ++ l0
         /\ Forall (syr_event_live a m0 batch_count) evs
         /\ forall addr, writes_at addr evs
                         = Datatypes.length (syr_hits a m0 done addr)).

Definition syr_range_ok (n lda incx : Z) : Prop :=
  0 <= n /\ n <= lda /\ n * lda <= INT_MAX /\ n * Z.abs incx <= INT_MAX.

(** All the workers of a launch, in the order in which they run. *)
Definition launch_workers (grid threads : dim3) : list tctx :=
  flat_map (fun b => match b with
                     | (bx, by_, bz) => block_contexts threads bx by_ bz
                     end)
           (grid_blocks grid).

Definition syr_blocks (n d : Z) : Z := (n - 1) / d + 1.

(** The triangles of [A] of different batch instances do not overlap. *)
Definition syr_batch_disjoint (a : syr_launch) (batch_count : Z) : Prop :=
  forall b b' i j i' j',
    0 <= b < batch_count -> 0 <= b' < batch_count ->
    0 <= i < s_n a -> 0 <= j < s_n a -> 0 <= i' < s_n a -> 0 <= j' < s_n a ->
    b <> b' -> syr_A a b i j <> syr_A a b' i' j'.

(** The launch the syr dispatcher makes for a call on the memory [m]. *)
Definition syr_call_launch (handle : rocblas_handle) (m : memory)
           (uplo : rocblas_fill) (n : Z) (alpha stride_alpha : Z)
           (x : batch_ptr) (offsetx incx stridex : Z)
           (A : batch_ptr) (offseta lda strideA : Z) : syr_launch :=
  mkSyrLaunch uplo n (scalar_of_mode handle m BufAlpha alpha) stride_alpha
              x (vector_shift offsetx incx n) incx stridex
              A offseta lda strideA.

(* ================================================================== *)
(** * The kernel without its test of the thread count *)



(* ================================================================== *)
(** * Examples *)

(** A state whose buffers hold the given lists: [A] from address 1000 on,
    [x] from 2000 on, [y] from 3000 on, and the two scalars at every
    address of theirs; the log is empty. *)
Definition example_state (A X Y : list Z) (alpha beta : Z) : state :=
  mkState (fun b a =>
             match b with
             | BufA => nth (Z.to_nat (a - 1000)) A 0
             | BufX => nth (Z.to_nat (a - 2000)) X 0
             | BufY => nth (Z.to_nat (a - 3000)) Y 0
             | BufAlpha => alpha
             | BufBeta => beta
             end) (fun _ => 0) [].

(* ================================================================== *)
(** * rocblas_parse_data.cpp

    The command line is the array [argv] of C strings that ends with a
    null pointer: a list of [option string] in which [None] is the null
    pointer.  What the client prints is collected in a list; a call of
    [exit] ends the function with its exit code.  The operating system
    and the rest of the client are an environment [os]. *)

Inductive output : Type :=
| Cout (s : string)
| Cerr (s : string).

(** How a function that may call [exit] ends, and what was printed. *)
Inductive outcome (R : Type) : Type :=
| Done (r : R) (out : list output)
| Exit (code : Z) (out : list output).

Arguments Done {R} r out.
Arguments Exit {R} code out.

Definition EXIT_FAILURE : Z := 1.

(** [std::endl] and the escape for a new line. *)
Definition endl : string := String (ascii_of_nat 10) EmptyString.

(** What [rocblas_parse_yaml] calls: [rocblas_exepath()]; [mkostemp] on a
    name template, giving the file descriptor and the name it wrote into
    the template; the text of [strerror(errno)] after a failed [mkostemp],
    which [dprintf] prints for [%m]; [system]; and the two macros on its
    status. *)
Record os : Type := mkOs {
  rocblas_exepath : string;
  mkostemp : string -> Z * string;
  strerror_errno : string;
  system : string -> Z;
  WIFEXITED : Z -> bool;
  WEXITSTATUS : Z -> Z
}.

(** [rocblas_parse_yaml], the branch compiled when [WIN32] is not
    defined. *)
Definition rocblas_parse_yaml (env : os) (yaml : string) : outcome string :=
  let (fd, tmp) := mkostemp env "/tmp/rocblas-XXXXXX" in
  if fd =? -1
  then Exit EXIT_FAILURE
            [Cerr ("Cannot open temporary file: " ++ strerror_errno env
                   ++ endl)]
  else
    let exepath := rocblas_exepath env in
    let cmd := (exepath ++ "rocblas_gentest.py --template " ++ exepath
                ++ "rocblas_template.yaml -o " ++ tmp ++ " " ++ yaml)%string in
    let status := system env cmd in
    if (status =? -1) || negb (WIFEXITED env status)
       || negb (WEXITSTATUS env status =? 0)
    then Exit EXIT_FAILURE [Cerr (cmd ++ endl)]
    else Done tmp [Cerr (cmd ++ endl)].

(** [l[k] = v] on an array; nothing is stored past its end. *)
Fixpoint store_at {X : Type} (l : list X) (k : nat) (v : X) : list X :=
  match l, k with
  | [], _ => []
  | _ :: t, O => v :: t
  | h :: t, S k' => h :: store_at t k' v
  end.

(** The local variables of [rocblas_parse_data]; [ps_argv_p] is
    [argv_p - argv]. *)
Record parse_state : Type := mkParse {
  ps_argv : list (option string);
  ps_argv_p : nat;
  ps_filename : string;
  ps_help : bool;
  ps_yaml : bool
}.

(** The C string at [argv[0]], for the usage line. *)
Definition program_name (argv : list (option string)) : string :=
  match nth 0 argv None with
  | Some s => s
  | None => EmptyString
  end.

(** The loop [for(int i = 1; argv[i]; ++i)] of [rocblas_parse_data], from
    index [i] on. *)
Fixpoint parse_loop (fuel : nat) (i : nat) (st : parse_state)
         (out : list output) : option (outcome parse_state) :=
  match fuel with
  | O => None
  | S fuel' =>
      match nth i (ps_argv st) None with
      | None => Some (Done st out)
      | Some a =>
          if (a =? "--data")%string || (a =? "--yaml")%string then
            let yaml := if (a =? "--yaml")%string then true else ps_yaml st in
            if negb (ps_filename st =? "")%string then
              Some (Exit EXIT_FAILURE
                      (out ++ [Cerr ("Only one of the --yaml and --data options may be specified"
                                     ++ endl)]))
            else
              match nth (i + 1) (ps_argv st) None with
              | None =>
                  Some (Exit EXIT_FAILURE
                          (out ++ [Cerr ("The " ++ a
                                         ++ " option requires an argument"
                                         ++ endl)]))
              | Some f =>
                  if (f =? "")%string then
                    Some (Exit EXIT_FAILURE
                            (out ++ [Cerr ("The " ++ a
                                           ++ " option requires an argument"
                                           ++ endl)]))
                  else
                    parse_loop fuel' (i + 2)
                      (mkParse (ps_argv st) (ps_argv_p st) f (ps_help st) yaml)
                      out
              end
          else
            let argv' := store_at (ps_argv st) (ps_argv_p st) (Some a) in
            if negb (ps_help st)
               && ((a =? "-h")%string || (a =? "--help")%string)
            then
              parse_loop fuel' (i + 1)
                (mkParse argv' (S (ps_argv_p st)) (ps_filename st) true
                         (ps_yaml st))
                (out ++ [Cout (endl ++ program_name argv'
                               ++ " [ --data <path> | --yaml <path> ] <options> ..."
                               ++ endl ++ endl)])
            else
              parse_loop fuel' (i + 1)
                (mkParse argv' (S (ps_argv_p st)) (ps_filename st)
                         (ps_help st) (ps_yaml st))
                out
      end
  end.

(** What a call of [rocblas_parse_data] that returns leaves behind: the
    value it returns, [argc], the array [argv], and the arguments of its
    call of [RocBLAS_TestData::set_filename], if it made one. *)
Record parse_result : Type := mkResult {
  r_return : bool;
  r_argc : Z;
  r_argv : list (option string);
  r_set_filename : option (string * bool)
}.

Definition rocblas_parse_data (fuel : nat) (env : os)
           (argv : list (option string)) (default_file : string)
  : option (outcome parse_result) :=
  match parse_loop fuel 1 (mkParse argv 1 EmptyString false false) [] with
  | None => None
  | Some (Exit code out) => Some (Exit code out)
  | Some (Done st out) =>
      let argv' := store_at (ps_argv st) (ps_argv_p st) None in
      let argc := to_int (Z.of_nat (ps_argv_p st)) in
      let filename :=
        if (ps_filename st =? "-")%string then "/dev/stdin"%string
        else if (ps_filename st =? "")%string then default_file
             else ps_filename st in
      match (if ps_yaml st then rocblas_parse_yaml env filename
             else Done filename []) with
      | Exit code out' => Some (Exit code (out ++ out'))
      | Done filename out' =>
          if negb (filename =? "")%string
          then Some (Done (mkResult true argc argv'
                                    (Some (filename, ps_yaml st)))
                          (out ++ out'))
          else Some (Done (mkResult false argc argv' None) (out ++ out'))
      end
  end.

(** ** Vocabulary for the command line *)

(** The array for the arguments [args]: the strings, then the null
    pointer. *)
Definition argv_of (args : list string) : list (option string) :=
  map Some args ++ [None].

(** [a] is one of the two options [rocblas_parse_data] takes out. *)
Definition is_data_option (a : string) : bool :=
  (a =? "--data")%string || (a =? "--yaml")%string.

Definition is_help_option (a : string) : bool :=
  (a =? "-h")%string || (a =? "--help")%string.

(** The usage line printed for the program [a0]. *)
Definition usage (a0 : string) : output :=
  Cout (endl ++ a0 ++ " [ --data <path> | --yaml <path> ] <options> ..."
        ++ endl ++ endl).

(** The arguments a call leaves in [argv]: its first [argc] entries. *)
Definition kept_args (r : parse_result) : list (option string) :=
  firstn (Z.to_nat (r_argc r)) (r_argv r).

(** The file name [rocblas_parse_data] works with for the argument [f] of
    an option. *)
Definition data_file (f : string) : string :=
  if (f =? "-")%string then "/dev/stdin"%string else f.

(** An environment for the examples: [mkostemp] succeeds with a fixed
    name and the command run by [system] exits with status 0. *)
Definition example_os : os :=
  mkOs "/opt/bin/" (fun _ => (3, "/tmp/rocblas-a1b2c3"%string))
       "Permission denied"
       (fun _ => 0) (fun s => Z.land s 127 =? 0)
       (fun s => Z.land (Z.shiftr s 8) 255).

(** The scan of [rocblas_parse_data] told on lists, for comparison with
    the loop on the array: [rest] are the arguments still to be read,
    [kept] the ones kept so far.  It gives the arguments kept, the file
    name, whether the usage line was printed and whether [--yaml] was
    seen. *)
Fixpoint scan_args (a0 : string) (rest kept : list string)
         (filename : string) (help yaml : bool) (out : list output)
  : outcome (list string * string * bool * bool) :=
  match rest with
  | [] => Done (kept, filename, help, yaml) out
  | a :: rest' =>
      if is_data_option a then
        if negb (filename =? "")%string then
          Exit EXIT_FAILURE
               (out ++ [Cerr ("Only one of the --yaml and --data options may be specified"
                              ++ endl)])
        else
          match rest' with
          | [] =>
              Exit EXIT_FAILURE
                   (out ++ [Cerr ("The " ++ a ++ " option requires an argument"
                                  ++ endl)])
          | f :: rest'' =>
              if (f =? "")%string then
                Exit EXIT_FAILURE
                     (out ++ [Cerr ("The " ++ a
                                    ++ " option requires an argument"
                                    ++ endl)])
              else
                scan_args a0 rest'' kept f help
                          (if (a =? "--yaml")%string then true else yaml) out
          end
      else if negb help && is_help_option a then
        scan_args a0 rest' (kept ++ [a]) filename true yaml
                  (out ++ [usage a0])
      else
        scan_args a0 rest' (kept ++ [a]) filename help yaml out
  end.

(* ================================================================== *)
(** * Machine integers *)

Lemma to_int_id (z : Z) :
  -2147483648 <= z <= INT_MAX -> to_int z = z.
Proof.
  unfold to_int, INT_MAX. intros H.
  rewrite Z.mod_small by lia. lia.
Qed.

Lemma to_uint_id (z : Z) :
  0 <= z < 4294967296 -> to_uint z = z.
Proof. unfold to_uint. intros H. apply Z.mod_small; lia. Qed.

(* ================================================================== *)
(** * The kernel monad *)

Lemma bind_run {R Q} (m : M R) (k : R -> M Q) (s s1 : state) (r : R) :
  m s = Some (r, s1) -> bind m k s = k r s1.
Proof. unfold bind. intros ->. reflexivity. Qed.

Lemma iterM_app {X} (f : X -> M unit) (l1 l2 : list X) (s : state) :
  iterM f (l1 ++ l2) s =
  match iterM f l1 s with
  | Some (_, s1) => iterM f l2 s1
  | None => None
  end.
Proof.
  revert s. induction l1 as [|x l1 IH]; intros s; simpl.
  - reflexivity.
  - unfold bind. destruct (f x s) as [[[] s1]|]; [|reflexivity].
    apply IH.
Qed.

Lemma iterM_map {X Y} (f : Y -> M unit) (g : X -> Y) (l : list X) (s : state) :
  iterM f (map g l) s = iterM (fun x => f (g x)) l s.
Proof.
  revert s. induction l as [|x l IH]; intros s; simpl; [reflexivity|].
  unfold bind. destruct (f (g x) s) as [[[] s1]|]; [apply IH|reflexivity].
Qed.

Lemma iterM_flat_map {X Y} (f : Y -> M unit) (g : X -> list Y)
      (l : list X) (s : state) :
  iterM f (flat_map g l) s = iterM (fun x => iterM f (g x)) l s.
Proof.
  revert s. induction l as [|x l IH]; intros s; simpl; [reflexivity|].
  rewrite iterM_app. unfold bind.
  destruct (iterM f (g x) s) as [[[] s1]|]; [apply IH|reflexivity].
Qed.

Lemma iterM_ext {X} (f g : X -> M unit) (l : list X) (s : state) :
  (forall x s', In x l -> f x s' = g x s') ->
  iterM f l s = iterM g l s.
Proof.
  revert s. induction l as [|x l IH]; intros s H; simpl; [reflexivity|].
  unfold bind. rewrite (H x s (or_introl eq_refl)).
  destruct (g x s) as [[[] s1]|]; [|reflexivity].
  apply IH. intros y s' Hy. apply H. right. exact Hy.
Qed.

(** A loop whose body leaves every state as it is leaves the state as it
    is. *)
Lemma iterM_idle {X} (f : X -> M unit) (l : list X) (s : state) :
  (forall x, In x l -> f x s = Some (tt, s)) ->
  iterM f l s = Some (tt, s).
Proof.
  induction l as [|x l IH]; intros H; simpl; [reflexivity|].
  rewrite (bind_run _ _ s s tt) by (apply H; left; reflexivity).
  apply IH. intros y Hy. apply H. right. exact Hy.
Qed.

Lemma mapM_idle {X R} (f : X -> M R) (r0 : R) (l : list X) (s : state) :
  (forall x, In x l -> f x s = Some (r0, s)) ->
  mapM f l s = Some (map (fun _ => r0) l, s).
Proof.
  induction l as [|x l IH]; intros H; simpl; [reflexivity|].
  rewrite (bind_run _ _ s s r0) by (apply H; left; reflexivity).
  rewrite (bind_run _ _ s s (map (fun _ => r0) l)).
  - reflexivity.
  - apply IH. intros y Hy. apply H. right. exact Hy.
Qed.

(* ================================================================== *)
(** * Ranges and the workers of a block *)

Lemma in_zrange (k : nat) (lo x : Z) :
  In x (zrange lo k) <-> lo <= x < lo + Z.of_nat k.
Proof.
  revert lo. induction k as [|k IH]; intros lo; simpl.
  - lia.
  - rewrite IH. lia.
Qed.

Lemma in_block_contexts (t : dim3) (bx by_ bz : Z) (c : tctx) :
  In c (block_contexts t bx by_ bz) <->
  hipBlockIdx_x c = bx /\ hipBlockIdx_y c = by_ /\ hipBlockIdx_z c = bz /\
  hipBlockDim_x c = dim_x t /\ hipBlockDim_y c = dim_y t /\
  hipBlockDim_z c = dim_z t /\
  0 <= hipThreadIdx_x c < dim_x t /\
  0 <= hipThreadIdx_y c < dim_y t /\
  0 <= hipThreadIdx_z c < dim_z t.
Proof.
  unfold block_contexts. rewrite in_flat_map. split.
  - intros (tz & Hz & H). apply in_flat_map in H. destruct H as (ty & Hy & H).
    apply in_map_iff in H. destruct H as (tx & <- & Hx).
    apply in_zrange in Hx, Hy, Hz. simpl. lia.
  - intros (H1 & H2 & H3 & H4 & H5 & H6 & H7 & H8 & H9).
    exists (hipThreadIdx_z c). split; [apply in_zrange; lia|].
    apply in_flat_map. exists (hipThreadIdx_y c). split; [apply in_zrange; lia|].
    apply in_map_iff. exists (hipThreadIdx_x c). split; [|apply in_zrange; lia].
    destruct c; simpl in *. subst. reflexivity.
Qed.

Lemma run_block_idle (kernel : tctx -> M progress) (ctxs : list tctx) (s : state) :
  (forall c, In c ctxs -> kernel c s = Some (Returned, s)) ->
  run_block kernel ctxs s = Some (tt, s).
Proof.
  intros H. unfold run_block.
  rewrite (bind_run _ _ s s (map (fun _ => Returned) ctxs))
    by (apply mapM_idle; exact H).
  apply iterM_idle. intros p Hp.
  apply in_map_iff in Hp. destruct Hp as (c & <- & _). reflexivity.
Qed.

Lemma launch_idle (kernel : tctx -> M progress) (grid threads : dim3) (s : state) :
  (forall bx by_ bz c, In c (block_contexts threads bx by_ bz) ->
                       kernel c s = Some (Returned, s)) ->
  hipLaunchKernelGGL kernel grid threads s = Some (tt, s).
Proof.
  intros H. unfold hipLaunchKernelGGL.
  apply iterM_idle. intros [[bx by_] bz] _.
  apply run_block_idle. intros c Hc. apply (H bx by_ bz c Hc).
Qed.



(** The kernel returns at once when the scalars it is given by value are
    [alpha = 0] and [beta = 1]. *)
Lemma symv_kernel_identity (DIM_X DIM_Y : Z) (fuel : nat) (c : tctx)
      (upper : bool) (n sa : Z)
      (Aa : batch_ptr) (shifta lda strideA : Z)
      (xa : batch_ptr) (shiftx incx stridex sb : Z)
      (ya : batch_ptr) (shifty incy stridey : Z) (s : state) :
  symv_kernel DIM_X DIM_Y fuel c upper n (ByValue 0) sa Aa shifta lda strideA
              xa shiftx incx stridex (ByValue 1) sb ya shifty incy stridey s
  = Some (Returned, s).
Proof.
  unfold symv_kernel.
  destruct (negb _); reflexivity.
Qed.






(** C8: with host-resident scalars [alpha = 0] and [beta = 1] the symv
    dispatcher answers [success] for every [n] and every [batch_count];
    no buffer is changed, and the only accesses are the reads of the two
    scalars on the host: nothing of [A], [x] or [y] is read or written. *)
Theorem symv_host_identity
        (fuel : nat) (uplo : rocblas_fill) (n alpha stride_alpha : Z)
        (A : batch_ptr) (offseta lda strideA : Z)
        (x : batch_ptr) (offsetx incx stridex : Z)
        (beta stride_beta : Z)
        (y : batch_ptr) (offsety incy stridey : Z)
        (batch_count : Z) (s : state) :
  mem s BufAlpha alpha = 0 ->
  mem s BufBeta beta = 1 ->
  exists s' evs,
    rocblas_internal_symv_template fuel (mkHandle rocblas_pointer_mode_host)
      uplo n alpha stride_alpha A offseta lda strideA x offsetx incx stridex
      beta stride_beta y offsety incy stridey batch_count s
    = Some (rocblas_status_success, s')
    /\ mem s' = mem s
    /\ log s' = evs ++ log s
    /\ Forall (fun e => e = Rd BufAlpha alpha \/ e = Rd BufBeta beta) evs.
Proof.
  intros Ha Hb. unfold rocblas_internal_symv_template.
  destruct ((n =? 0) || (batch_count =? 0)).
  - exists s, []. repeat split. constructor.
  - cbn [pointer_mode pointer_mode_eqb].
    destruct (batch_count =? 1).
    + unfold bind, load, ret. cbn [mem sdata log]. rewrite Ha.
      cbn [Z.eqb mem sdata log]. rewrite Hb. cbn [Z.eqb Pos.eqb].
      eexists _, [_; _]. cbn [mem log app]. repeat split.
      repeat (apply Forall_cons; [auto|]). constructor.
    + unfold bind at 1. unfold ret at 1. cbn iota beta.
      unfold bind at 1. unfold load at 1. cbn iota beta.
      unfold bind at 1. unfold load at 1. cbn [mem sdata log]. cbn iota beta.
      rewrite Ha, Hb.
      rewrite (bind_run _ _ _ _ tt (launch_idle _ _ _ _
                 (fun bx by_ bz c _ => symv_kernel_identity _ _ _ _ _ _ _ _ _ _ _ _ _ _ _ _ _ _ _ _ _))).
      unfold ret. eexists _, [_; _]. cbn [mem log app]. repeat split.
      repeat (apply Forall_cons; [auto|]). constructor.
Qed.

Lemma symv_host_identity_witness :
  exists s' evs,
    rocblas_internal_symv_template 100 (mkHandle rocblas_pointer_mode_host)
      rocblas_fill_upper 5 10 0 (SinglePtr 1000) 0 5 25
      (SinglePtr 2000) 0 1 5 20 0 (SinglePtr 3000) 0 1 5 3
      (mkState (fun b _ => match b with BufBeta => 1 | BufAlpha => 0 | _ => 7 end)
               (fun _ => 0) [])
    = Some (rocblas_status_success, s')
    /\ mem s' = (fun b _ => match b with BufBeta => 1 | BufAlpha => 0 | _ => 7 end)
    /\ log s' = evs ++ []
    /\ Forall (fun e => e = Rd BufAlpha 10 \/ e = Rd BufBeta 20) evs.
Proof.
  apply (symv_host_identity 100 rocblas_fill_upper 5 10 0 (SinglePtr 1000) 0 5 25
           (SinglePtr 2000) 0 1 5 20 0 (SinglePtr 3000) 0 1 5 3
           (mkState (fun b _ => match b with BufBeta => 1 | BufAlpha => 0 | _ => 7 end)
                    (fun _ => 0) [])); reflexivity.
Defined.

(* ================================================================== *)
(** * Argument validation *)

Lemma fill_check_valid (uplo : rocblas_fill) :
  valid_fill uplo ->
  negb (fill_eqb uplo rocblas_fill_lower)
  && negb (fill_eqb uplo rocblas_fill_upper) = false.
Proof. intros [-> | ->]; reflexivity. Qed.

Lemma fill_check_invalid (uplo : rocblas_fill) :
  ~ valid_fill uplo ->
  negb (fill_eqb uplo rocblas_fill_lower)
  && negb (fill_eqb uplo rocblas_fill_upper) = true.
Proof.
  unfold valid_fill. destruct uplo; intros H; try reflexivity;
    exfalso; apply H; auto.
Qed.

Lemma host_strided_check (handle : rocblas_handle) (sa sb : Z) :
  host_strided handle sa sb ->
  pointer_mode_eqb (pointer_mode handle) rocblas_pointer_mode_host
  && (negb (sa =? 0) || negb (sb =? 0)) = true.
Proof.
  intros [-> H]. simpl.
  destruct (Z.eqb_spec sa 0), (Z.eqb_spec sb 0); simpl; auto; lia.
Qed.

Lemma host_strided_check_not (handle : rocblas_handle) (sa sb : Z) :
  ~ host_strided handle sa sb ->
  pointer_mode_eqb (pointer_mode handle) rocblas_pointer_mode_host
  && (negb (sa =? 0) || negb (sb =? 0)) = false.
Proof.
  unfold host_strided. intros H.
  destruct (pointer_mode handle); simpl; [|reflexivity].
  destruct (Z.eqb_spec sa 0), (Z.eqb_spec sb 0); simpl; auto;
    exfalso; apply H; split; auto.
Qed.

Lemma symv_size_check_ok (n lda incx incy batch_count : Z) :
  symv_sizes_ok n lda incx incy batch_count ->
  (n <? 0) || (lda <? n) || (lda <? 1) || (incx =? 0)
  || (incy =? 0) || (batch_count <? 0) = false.
Proof.
  intros (H1 & H2 & H3 & H4 & H5 & H6).
  repeat (apply orb_false_intro); try (apply Z.ltb_ge; lia);
    apply Z.eqb_neq; assumption.
Qed.

Lemma symv_size_check_bad (n lda incx incy batch_count : Z) :
  ~ symv_sizes_ok n lda incx incy batch_count ->
  (n <? 0) || (lda <? n) || (lda <? 1) || (incx =? 0)
  || (incy =? 0) || (batch_count <? 0) = true.
Proof.
  unfold symv_sizes_ok. intros H.
  destruct (Z.ltb_spec n 0); [reflexivity|].
  destruct (Z.ltb_spec lda n); [reflexivity|].
  destruct (Z.ltb_spec lda 1); [reflexivity|].
  destruct (Z.eqb_spec incx 0); [reflexivity|].
  destruct (Z.eqb_spec incy 0); [reflexivity|].
  destruct (Z.ltb_spec batch_count 0); [reflexivity|].
  exfalso. apply H. repeat split; assumption.
Qed.

Lemma syr_size_check_ok (n lda incx batch_count : Z) :
  syr_sizes_ok n lda incx batch_count ->
  (n <? 0) || (incx =? 0) || (lda <? n) || (lda <? 1)
  || (batch_count <? 0) = false.
Proof.
  intros (H1 & H2 & H3 & H4 & H5).
  repeat (apply orb_false_intro); try (apply Z.ltb_ge; lia);
    apply Z.eqb_neq; assumption.
Qed.

Lemma syr_size_check_bad (n lda incx batch_count : Z) :
  ~ syr_sizes_ok n lda incx batch_count ->
  (n <? 0) || (incx =? 0) || (lda <? n) || (lda <? 1)
  || (batch_count <? 0) = true.
Proof.
  unfold syr_sizes_ok. intros H.
  destruct (Z.ltb_spec n 0); [reflexivity|].
  destruct (Z.eqb_spec incx 0); [reflexivity|].
  destruct (Z.ltb_spec lda n); [reflexivity|].
  destruct (Z.ltb_spec lda 1); [reflexivity|].
  destruct (Z.ltb_spec batch_count 0); [reflexivity|].
  exfalso. apply H. repeat split; assumption.
Qed.

Lemma trivial_check (n batch_count : Z) :
  n = 0 \/ batch_count = 0 -> (n =? 0) || (batch_count =? 0) = true.
Proof. intros [-> | ->]; [reflexivity|apply orb_true_r]. Qed.

Lemma trivial_check_not (n batch_count : Z) :
  n <> 0 -> batch_count <> 0 -> (n =? 0) || (batch_count =? 0) = false.
Proof.
  intros H1 H2. apply orb_false_intro; apply Z.eqb_neq; assumption.
Qed.

Section ArgCheck.

Variables (handle : rocblas_handle) (uplo : rocblas_fill).
Variables (n alpha stride_alpha : Z).
Variables (A : batch_ptr) (offseta lda strideA : Z).
Variables (x : batch_ptr) (offsetx incx stridex : Z).
Variables (beta stride_beta : Z).
Variables (y : batch_ptr) (offsety incy stridey : Z).
Variable batch_count : Z.

(** The order of the checks of [rocblas_symv_arg_check]. *)
Lemma symv_arg_check_cases :
  (host_strided handle stride_alpha stride_beta ->
   (rocblas_symv_arg_check handle uplo n alpha stride_alpha A offseta lda
     strideA x offsetx incx stridex beta stride_beta y offsety incy stridey
     batch_count) = rocblas_status_not_implemented)
  /\ (~ host_strided handle stride_alpha stride_beta ->
      (~ valid_fill uplo -> (rocblas_symv_arg_check handle uplo n alpha stride_alpha A offseta lda
     strideA x offsetx incx stridex beta stride_beta y offsety incy stridey
     batch_count) = rocblas_status_invalid_value)
      /\ (valid_fill uplo ->
          (~ symv_sizes_ok n lda incx incy batch_count ->
           (rocblas_symv_arg_check handle uplo n alpha stride_alpha A offseta lda
     strideA x offsetx incx stridex beta stride_beta y offsety incy stridey
     batch_count) = rocblas_status_invalid_size)
          /\ (symv_sizes_ok n lda incx incy batch_count ->
              (n = 0 \/ batch_count = 0 ->
               (rocblas_symv_arg_check handle uplo n alpha stride_alpha A offseta lda
     strideA x offsetx incx stridex beta stride_beta y offsety incy stridey
     batch_count) = rocblas_status_success)
              /\ (n <> 0 -> batch_count <> 0 ->
                  (rocblas_symv_arg_check handle uplo n alpha stride_alpha A offseta lda
     strideA x offsetx incx stridex beta stride_beta y offsety incy stridey
     batch_count) =
                  if is_null A || is_null x || is_null y
                     || (alpha =? 0) || (beta =? 0)
                  then rocblas_status_invalid_pointer
                  else rocblas_status_continue)))).
Proof.
  unfold rocblas_symv_arg_check. split.
  - intros H. rewrite (host_strided_check _ _ _ H). reflexivity.
  - intros H. rewrite (host_strided_check_not _ _ _ H). split.
    + intros Hf. rewrite (fill_check_invalid _ Hf). reflexivity.
    + intros Hf. rewrite (fill_check_valid _ Hf). split.
      * intros Hs. rewrite (symv_size_check_bad _ _ _ _ _ Hs). reflexivity.
      * intros Hs. rewrite (symv_size_check_ok _ _ _ _ _ Hs). split.
        -- intros Ht. rewrite (trivial_check _ _ Ht). reflexivity.
        -- intros Hn Hb. rewrite (trivial_check_not _ _ Hn Hb). reflexivity.
Qed.

(** The order of the checks of [rocblas_syr_arg_check]. *)
Lemma syr_arg_check_cases :
  (~ valid_fill uplo -> (rocblas_syr_arg_check uplo n alpha stride_alpha x offsetx incx stridex
     A offseta lda strideA batch_count) = rocblas_status_invalid_value)
  /\ (valid_fill uplo ->
      (~ syr_sizes_ok n lda incx batch_count ->
       (rocblas_syr_arg_check uplo n alpha stride_alpha x offsetx incx stridex
     A offseta lda strideA batch_count) = rocblas_status_invalid_size)
      /\ (syr_sizes_ok n lda incx batch_count ->
          (n = 0 \/ batch_count = 0 -> (rocblas_syr_arg_check uplo n alpha stride_alpha x offsetx incx stridex
     A offseta lda strideA batch_count) = rocblas_status_success)
          /\ (n <> 0 -> batch_count <> 0 ->
              (rocblas_syr_arg_check uplo n alpha stride_alpha x offsetx incx stridex
     A offseta lda strideA batch_count) =
              if (alpha =? 0) || is_null x || is_null A
              then rocblas_status_invalid_pointer
              else rocblas_status_continue))).
Proof.
  unfold rocblas_syr_arg_check. split.
  - intros Hf. rewrite (fill_check_invalid _ Hf). reflexivity.
  - intros Hf. rewrite (fill_check_valid _ Hf). split.
    + intros Hs. rewrite (syr_size_check_bad _ _ _ _ Hs). reflexivity.
    + intros Hs. rewrite (syr_size_check_ok _ _ _ _ Hs). split.
      * intros Ht. rewrite (trivial_check _ _ Ht). reflexivity.
      * intros Hn Hb. rewrite (trivial_check_not _ _ Hn Hb). reflexivity.
Qed.

End ArgCheck.

(** A kernel without a barrier whose workers always return makes every
    launch return. *)
Lemma mapM_returned (kernel : tctx -> M progress) (ctxs : list tctx) :
  (forall c s, exists s', kernel c s = Some (Returned, s')) ->
  forall s, exists s',
    mapM kernel ctxs s = Some (map (fun _ => Returned) ctxs, s').
Proof.
  intros H. induction ctxs as [|c l IH]; intros s; simpl.
  - exists s. reflexivity.
  - destruct (H c s) as (s1 & E1). destruct (IH s1) as (s2 & E2).
    exists s2. rewrite (bind_run _ _ _ _ _ E1), (bind_run _ _ _ _ _ E2).
    reflexivity.
Qed.

Lemma run_block_returned (kernel : tctx -> M progress) (ctxs : list tctx) :
  (forall c s, exists s', kernel c s = Some (Returned, s')) ->
  forall s, exists s', run_block kernel ctxs s = Some (tt, s').
Proof.
  intros H s. destruct (mapM_returned kernel ctxs H s) as (s1 & E1).
  exists s1. unfold run_block. rewrite (bind_run _ _ _ _ _ E1).
  apply iterM_idle. intros p Hp.
  apply in_map_iff in Hp. destruct Hp as (c & <- & _). reflexivity.
Qed.

Lemma iterM_total {X} (f : X -> M unit) (l : list X) :
  (forall x s, exists s', f x s = Some (tt, s')) ->
  forall s, exists s', iterM f l s = Some (tt, s').
Proof.
  intros H. induction l as [|x l IH]; intros s; simpl.
  - exists s. reflexivity.
  - destruct (H x s) as (s1 & E1). destruct (IH s1) as (s2 & E2).
    exists s2. rewrite (bind_run _ _ _ _ _ E1). exact E2.
Qed.

Lemma launch_returned (kernel : tctx -> M progress) (grid threads : dim3) :
  (forall c s, exists s', kernel c s = Some (Returned, s')) ->
  forall s, exists s', hipLaunchKernelGGL kernel grid threads s = Some (tt, s').
Proof.
  intros H. unfold hipLaunchKernelGGL. apply iterM_total.
  intros [[bx by_] bz] s. apply run_block_returned. exact H.
Qed.

Lemma syr_kernel_returns (c : tctx) (uplo : rocblas_fill) (n : Z)
      (a : scalar_arg) (sa : Z) (xa : batch_ptr) (shiftx incx stridex : Z)
      (Aa : batch_ptr) (shiftA lda strideA : Z) (s : state) :
  exists s',
    rocblas_syr_kernel c uplo n a sa xa shiftx incx stridex
                       Aa shiftA lda strideA s = Some (Returned, s').
Proof.
  unfold rocblas_syr_kernel.
  destruct a as [v|p]; cbn [load_scalar]; unfold bind, ret, load, store;
    cbn [mem sdata log].
  - destruct (v =? 0); [eexists; reflexivity|].
    destruct (if fill_eqb uplo rocblas_fill_lower then _ else _);
      eexists; reflexivity.
  - destruct (_ =? 0); [eexists; reflexivity|].
    destruct (if fill_eqb uplo rocblas_fill_lower then _ else _);
      eexists; reflexivity.
Qed.

Lemma syr_template_success (handle : rocblas_handle) (uplo : rocblas_fill)
      (n alpha stride_alpha : Z) (x : batch_ptr) (offsetx incx stridex : Z)
      (A : batch_ptr) (offseta lda strideA batch_count : Z) (s : state) :
  exists s',
    rocblas_internal_syr_template handle uplo n alpha stride_alpha
      x offsetx incx stridex A offseta lda strideA batch_count s
    = Some (rocblas_status_success, s').
Proof.
  unfold rocblas_internal_syr_template.
  destruct ((n =? 0) || (batch_count =? 0)); [exists s; reflexivity|].
  destruct (pointer_mode_eqb _ _).
  - match goal with
    | |- context [hipLaunchKernelGGL ?k ?g ?t] =>
        destruct (launch_returned k g t
                    (fun c s => syr_kernel_returns c _ _ _ _ _ _ _ _ _ _ _ _ s) s)
          as (s1 & E1)
    end.
    exists s1. rewrite (bind_run _ _ _ _ _ E1). reflexivity.
  - unfold bind at 1. unfold load at 1. cbn iota beta.
    match goal with
    | |- context [bind (hipLaunchKernelGGL ?k ?g ?t) _ ?s0] =>
        destruct (launch_returned k g t
                    (fun c s => syr_kernel_returns c _ _ _ _ _ _ _ _ _ _ _ _ s) s0)
          as (s1 & E1)
    end.
    exists s1. rewrite (bind_run _ _ _ _ _ E1). reflexivity.
Qed.

(** C3: the claim as stated fails for symv. *)
Lemma arg_check_trivial_counterexample :
  ~ (forall (handle : rocblas_handle) (uplo : rocblas_fill)
            (n alpha stride_alpha : Z)
            (A : batch_ptr) (offseta lda strideA : Z)
            (x : batch_ptr) (offsetx incx stridex : Z)
            (beta stride_beta : Z)
            (y : batch_ptr) (offsety incy stridey batch_count : Z),
        valid_fill uplo ->
        symv_sizes_ok n lda incx incy batch_count ->
        n = 0 \/ batch_count = 0 ->
        rocblas_symv_arg_check handle uplo n alpha stride_alpha
          A offseta lda strideA x offsetx incx stridex beta stride_beta
          y offsety incy stridey batch_count
        = rocblas_status_success).
Proof.
  intros H.
  specialize (H (mkHandle rocblas_pointer_mode_host) rocblas_fill_upper
                0 10 1 (SinglePtr 1000) 0 1 0 (SinglePtr 2000) 0 1 0
                20 0 (SinglePtr 3000) 0 1 0 1).
  assert (E : rocblas_status_not_implemented = rocblas_status_success).
  { apply H.
    - right. reflexivity.
    - unfold symv_sizes_ok. lia.
    - left. reflexivity. }
  discriminate E.
Qed.

(** C3 (amended): the checks of both validations in their order, the
    first failing one deciding.  symv looks at host-resident scalars with
    a non-zero stride before anything else, so that with a valid triangle
    and valid sizes and [n = 0] or [batch_count = 0] it answers
    [not_implemented] in that case and [success] otherwise; syr has no
    such check and answers [success]. *)
Theorem arg_check_order
        (handle : rocblas_handle) (uplo : rocblas_fill)
        (n alpha stride_alpha : Z)
        (A : batch_ptr) (offseta lda strideA : Z)
        (x : batch_ptr) (offsetx incx stridex : Z)
        (beta stride_beta : Z)
        (y : batch_ptr) (offsety incy stridey batch_count : Z) :
  ((host_strided handle stride_alpha stride_beta ->
    rocblas_symv_arg_check handle uplo n alpha stride_alpha
      A offseta lda strideA x offsetx incx stridex beta stride_beta
      y offsety incy stridey batch_count
    = rocblas_status_not_implemented)
   /\ (~ host_strided handle stride_alpha stride_beta ->
       (~ valid_fill uplo ->
        rocblas_symv_arg_check handle uplo n alpha stride_alpha
          A offseta lda strideA x offsetx incx stridex beta stride_beta
          y offsety incy stridey batch_count
        = rocblas_status_invalid_value)
       /\ (valid_fill uplo ->
           (~ symv_sizes_ok n lda incx incy batch_count ->
            rocblas_symv_arg_check handle uplo n alpha stride_alpha
              A offseta lda strideA x offsetx incx stridex beta stride_beta
              y offsety incy stridey batch_count
            = rocblas_status_invalid_size)
           /\ (symv_sizes_ok n lda incx incy batch_count ->
               (n = 0 \/ batch_count = 0 ->
                rocblas_symv_arg_check handle uplo n alpha stride_alpha
                  A offseta lda strideA x offsetx incx stridex
                  beta stride_beta y offsety incy stridey batch_count
                = rocblas_status_success)
               /\ (n <> 0 -> batch_count <> 0 ->
                   rocblas_symv_arg_check handle uplo n alpha stride_alpha
                     A offseta lda strideA x offsetx incx stridex
                     beta stride_beta y offsety incy stridey batch_count
                   = if is_null A || is_null x || is_null y
                        || (alpha =? 0) || (beta =? 0)
                     then rocblas_status_invalid_pointer
                     else rocblas_status_continue)))))
  /\
  ((~ valid_fill uplo ->
    rocblas_syr_arg_check uplo n alpha stride_alpha x offsetx incx stridex
      A offseta lda strideA batch_count
    = rocblas_status_invalid_value)
   /\ (valid_fill uplo ->
       (~ syr_sizes_ok n lda incx batch_count ->
        rocblas_syr_arg_check uplo n alpha stride_alpha x offsetx incx
          stridex A offseta lda strideA batch_count
        = rocblas_status_invalid_size)
       /\ (syr_sizes_ok n lda incx batch_count ->
           (n = 0 \/ batch_count = 0 ->
            rocblas_syr_arg_check uplo n alpha stride_alpha x offsetx incx
              stridex A offseta lda strideA batch_count
            = rocblas_status_success)
           /\ (n <> 0 -> batch_count <> 0 ->
               rocblas_syr_arg_check uplo n alpha stride_alpha x offsetx
                 incx stridex A offseta lda strideA batch_count
               = if (alpha =? 0) || is_null x || is_null A
                 then rocblas_status_invalid_pointer
                 else rocblas_status_continue)))).
Proof.
  split.
  - apply symv_arg_check_cases.
  - apply syr_arg_check_cases.
Qed.

Lemma arg_check_order_witness :
  rocblas_symv_arg_check (mkHandle rocblas_pointer_mode_host)
    rocblas_fill_upper 0 10 1 (SinglePtr 1000) 0 1 0 (SinglePtr 2000) 0 1 0
    20 0 (SinglePtr 3000) 0 1 0 1
  = rocblas_status_not_implemented
  /\ rocblas_syr_arg_check rocblas_fill_upper 0 10 1 (SinglePtr 2000) 0 1 0
       (SinglePtr 1000) 0 1 0 1
     = rocblas_status_success.
Proof.
  destruct (arg_check_order (mkHandle rocblas_pointer_mode_host)
              rocblas_fill_upper 0 10 1 (SinglePtr 1000) 0 1 0
              (SinglePtr 2000) 0 1 0 20 0 (SinglePtr 3000) 0 1 0 1)
    as ((H1 & _) & (_ & H2)).
  split.
  - apply H1. split; [reflexivity|left; lia].
  - assert (Hf : valid_fill rocblas_fill_upper) by (right; reflexivity).
    destruct (H2 Hf) as (_ & H3).
    assert (Hs : syr_sizes_ok 0 1 1 1) by (unfold syr_sizes_ok; lia).
    destruct (H3 Hs) as (H4 & _).
    apply H4. left. reflexivity.
Defined.

(** C4: the claim as stated fails for syr. *)
Lemma syr_host_stride_counterexample :
  ~ (forall (uplo : rocblas_fill) (n alpha stride_alpha : Z)
            (x : batch_ptr) (offsetx incx stridex : Z)
            (A : batch_ptr) (offseta lda strideA batch_count : Z)
            (s : state),
        valid_fill uplo ->
        syr_sizes_ok n lda incx batch_count ->
        0 < n -> 0 < batch_count ->
        alpha <> 0 -> is_null x = false -> is_null A = false ->
        stride_alpha <> 0 ->
        rocblas_syr_arg_check uplo n alpha stride_alpha x offsetx incx
          stridex A offseta lda strideA batch_count
        = rocblas_status_not_implemented
        \/ exists s',
            rocblas_internal_syr_template
              (mkHandle rocblas_pointer_mode_host) uplo n alpha stride_alpha
              x offsetx incx stridex A offseta lda strideA batch_count s
            = Some (rocblas_status_not_implemented, s')).
Proof.
  intros H.
  specialize (H rocblas_fill_lower 1 10 1 (SinglePtr 2000) 0 1 0
                (SinglePtr 1000) 0 1 0 1
                (mkState (fun _ _ => 1) (fun _ => 0) [])).
  destruct H as [E | (s' & E)].
  - left. reflexivity.
  - unfold syr_sizes_ok. lia.
  - lia.
  - lia.
  - lia.
  - reflexivity.
  - reflexivity.
  - lia.
  - discriminate E.
  - destruct (syr_template_success (mkHandle rocblas_pointer_mode_host)
                rocblas_fill_lower 1 10 1 (SinglePtr 2000) 0 1 0
                (SinglePtr 1000) 0 1 0 1
                (mkState (fun _ _ => 1) (fun _ => 0) [])) as (s2 & E2).
    rewrite E2 in E. discriminate E.
Qed.

(** C4 (amended): symv rejects host-resident scalars with a non-zero
    stride with [not_implemented], whatever the other parameters are.
    syr has no such check: an otherwise valid non-trivial call passes
    validation with [continue], the dispatcher always answers [success],
    and with host-resident scalars [stride_alpha] has no effect on what
    it does. *)
Theorem host_stride_rejection
        (handle : rocblas_handle) (uplo : rocblas_fill)
        (n alpha stride_alpha : Z)
        (A : batch_ptr) (offseta lda strideA : Z)
        (x : batch_ptr) (offsetx incx stridex : Z)
        (beta stride_beta : Z)
        (y : batch_ptr) (offsety incy stridey batch_count : Z) (s : state) :
  (host_strided handle stride_alpha stride_beta ->
   rocblas_symv_arg_check handle uplo n alpha stride_alpha
     A offseta lda strideA x offsetx incx stridex beta stride_beta
     y offsety incy stridey batch_count
   = rocblas_status_not_implemented)
  /\ (valid_fill uplo ->
      syr_sizes_ok n lda incx batch_count ->
      0 < n -> 0 < batch_count ->
      alpha <> 0 -> is_null x = false -> is_null A = false ->
      rocblas_syr_arg_check uplo n alpha stride_alpha x offsetx incx
        stridex A offseta lda strideA batch_count
      = rocblas_status_continue)
  /\ (exists s',
         rocblas_internal_syr_template handle uplo n alpha stride_alpha
           x offsetx incx stridex A offseta lda strideA batch_count s
         = Some (rocblas_status_success, s'))
  /\ rocblas_internal_syr_template (mkHandle rocblas_pointer_mode_host)
       uplo n alpha stride_alpha
       x offsetx incx stridex A offseta lda strideA batch_count s
     = rocblas_internal_syr_template (mkHandle rocblas_pointer_mode_host)
         uplo n alpha 0
         x offsetx incx stridex A offseta lda strideA batch_count s.
Proof.
  split; [|split; [|split]].
  - apply symv_arg_check_cases.
  - intros Hf Hs Hn Hb Ha Hx HA.
    destruct (syr_arg_check_cases uplo n alpha stride_alpha A offseta lda
                strideA x offsetx incx stridex batch_count) as (_ & H).
    destruct (H Hf) as (_ & H1). destruct (H1 Hs) as (_ & H2).
    rewrite H2 by lia. rewrite Hx, HA.
    apply Z.eqb_neq in Ha. rewrite Ha. reflexivity.
  - apply syr_template_success.
  - unfold rocblas_internal_syr_template.
    destruct ((n =? 0) || (batch_count =? 0)); [reflexivity|].
    cbn [pointer_mode pointer_mode_eqb].
    unfold bind at 1 3. unfold load.
    reflexivity.
Qed.

Lemma host_stride_rejection_witness :
  rocblas_symv_arg_check (mkHandle rocblas_pointer_mode_host)
    rocblas_fill_lower 1 10 1 (SinglePtr 1000) 0 1 0 (SinglePtr 2000) 0 1 0
    20 0 (SinglePtr 3000) 0 1 0 1
  = rocblas_status_not_implemented
  /\ rocblas_syr_arg_check rocblas_fill_lower 1 10 1 (SinglePtr 2000) 0 1 0
       (SinglePtr 1000) 0 1 0 1
     = rocblas_status_continue.
Proof.
  destruct (host_stride_rejection (mkHandle rocblas_pointer_mode_host)
              rocblas_fill_lower 1 10 1 (SinglePtr 1000) 0 1 0
              (SinglePtr 2000) 0 1 0 20 0 (SinglePtr 3000) 0 1 0 1
              (mkState (fun _ _ => 1) (fun _ => 0) []))
    as (H1 & H2 & _).
  split.
  - apply H1. split; [reflexivity|left; lia].
  - apply H2.
    + left. reflexivity.
    + unfold syr_sizes_ok. lia.
    + lia.
    + lia.
    + lia.
    + reflexivity.
    + reflexivity.
Defined.

(* ================================================================== *)
(** * Sums over the columns *)

Lemma sumZ_ext (f g : Z -> Z) (k : nat) :
  (forall c, 0 <= c < Z.of_nat k -> f c = g c) -> sumZ f k = sumZ g k.
Proof.
  induction k as [|k IH]; intros H; simpl; [reflexivity|].
  rewrite IH by (intros c Hc; apply H; lia).
  rewrite H by lia. reflexivity.
Qed.

Lemma strided_sum_ext (f g : Z -> Z) (k : nat) (col : Z) :
  (forall c, col <= c -> f c = g c) ->
  strided_sum f col k = strided_sum g col k.
Proof.
  revert col. induction k as [|k IH]; intros col H; simpl; [reflexivity|].
  rewrite H by lia. rewrite (IH (col + 16)) by (intros c Hc; apply H; lia).
  reflexivity.
Qed.

Lemma strided_sum_snoc (f : Z -> Z) (k : nat) (col : Z) :
  strided_sum f col (S k)
  = strided_sum f col k + f (col + 16 * Z.of_nat k).
Proof.
  revert col. induction k as [|k IH]; intros col.
  - simpl. replace (col + 0) with col by lia. lia.
  - change (strided_sum f col (S (S k)))
      with (f col + strided_sum f (col + 16) (S k)).
    rewrite IH. simpl strided_sum.
    replace (col + 16 + 16 * Z.of_nat k) with (col + 16 * Z.of_nat (S k)) by lia.
    lia.
Qed.

Lemma col_iters_step (n col : Z) :
  col < n -> col_iters n col = S (col_iters n (col + 16)).
Proof.
  intros H. unfold col_iters.
  replace (n - col + 15) with ((n - (col + 16) + 15) + 1 * 16) by lia.
  rewrite Z.div_add by lia.
  rewrite Z2Nat.inj_add; [|apply Z.div_pos; lia|lia].
  change (Z.to_nat 1) with 1%nat. lia.
Qed.

Lemma col_iters_done (n col : Z) :
  n <= col -> col_iters n col = O.
Proof.
  intros H. unfold col_iters.
  destruct (Z.le_gt_cases 0 (n - col + 15)) as [Hp|Hp].
  - rewrite Z.div_small by lia. reflexivity.
  - assert (Hq : (n - col + 15) / 16 < 0)
      by (apply Z.div_lt_upper_bound; lia).
    destruct ((n - col + 15) / 16); simpl; try reflexivity; lia.
Qed.

(** The columns [ty, ty+16, ...] below [n] are the columns below [n]
    that are congruent to [ty] modulo 16. *)
Lemma strided_sum_indicator (f : Z -> Z) (ty : Z) (k : nat) :
  0 <= ty < 16 ->
  strided_sum f ty (col_iters (Z.of_nat k) ty)
  = sumZ (fun c => if c mod 16 =? ty then f c else 0) k.
Proof.
  intros Hty. induction k as [|k IH].
  - simpl. rewrite col_iters_done by lia. reflexivity.
  - simpl sumZ. rewrite <- IH. clear IH.
    unfold col_iters.
    destruct (Z.eqb_spec (Z.of_nat k mod 16) ty) as [E|E].
    + assert (Hq : (Z.of_nat (S k) - ty + 15) / 16
                   = (Z.of_nat k - ty + 15) / 16 + 1).
      { rewrite Nat2Z.inj_succ. Z.div_mod_to_equations. lia. }
      rewrite Hq. rewrite Z2Nat.inj_add; [|apply Z.div_pos; lia|lia].
      change (Z.to_nat 1) with 1%nat. rewrite Nat.add_1_r.
      rewrite strided_sum_snoc. f_equal. f_equal.
      rewrite Z2Nat.id by (apply Z.div_pos; lia).
      Z.div_mod_to_equations. lia.
    + assert (Hq : (Z.of_nat (S k) - ty + 15) / 16
                   = (Z.of_nat k - ty + 15) / 16).
      { rewrite Nat2Z.inj_succ. Z.div_mod_to_equations. lia. }
      rewrite Hq. lia.
Qed.

(** [range_sum g lo k] is [g lo + ... + g (lo+k-1)]. *)
Lemma sumZ_plus (f g : Z -> Z) (k : nat) :
  sumZ (fun c => f c + g c) k = sumZ f k + sumZ g k.
Proof. induction k as [|k IH]; simpl; lia. Qed.

Lemma sumZ_zero (k : nat) : sumZ (fun _ => 0) k = 0.
Proof. induction k as [|k IH]; simpl; lia. Qed.

Lemma fold_indicator (f : Z -> Z) (k cnt : nat) (lo : Z) :
  fold_right (fun i acc =>
                sumZ (fun c => if c mod 16 =? i then f c else 0) k + acc)
             0 (zrange lo cnt)
  = sumZ (fun c => if (lo <=? c mod 16) && (c mod 16 <? lo + Z.of_nat cnt)
                   then f c else 0) k.
Proof.
  revert lo. induction cnt as [|cnt IH]; intros lo.
  - cbn [zrange fold_right].
    transitivity (sumZ (fun _ => 0) k); [symmetry; apply sumZ_zero|].
    apply sumZ_ext. intros c _.
    destruct (Z.leb_spec lo (c mod 16)), (Z.ltb_spec (c mod 16) (lo + Z.of_nat 0));
      simpl; try reflexivity; lia.
  - cbn [zrange fold_right]. rewrite IH. rewrite <- sumZ_plus.
    apply sumZ_ext. intros c _.
    destruct (Z.eqb_spec (c mod 16) lo);
      destruct (Z.leb_spec (lo + 1) (c mod 16));
      destruct (Z.ltb_spec (c mod 16) (lo + 1 + Z.of_nat cnt));
      destruct (Z.leb_spec lo (c mod 16));
      destruct (Z.ltb_spec (c mod 16) (lo + Z.of_nat (S cnt)));
      simpl; lia.
Qed.

(** The sixteen partial sums of a row add up to the sum over all
    columns. *)
Lemma partial_sums_total (f : Z -> Z) (n : Z) :
  0 <= n ->
  fold_right (fun i acc => strided_sum f i (col_iters n i) + acc)
             0 (zrange 0 16)
  = sumZ f (Z.to_nat n).
Proof.
  intros Hn.
  transitivity
    (fold_right (fun i acc =>
        sumZ (fun c => if c mod 16 =? i then f c else 0) (Z.to_nat n) + acc)
       0 (zrange 0 16)).
  - assert (H : forall l, (forall i, In i l -> 0 <= i < 16) ->
       fold_right (fun i acc =>
         strided_sum f i (col_iters (Z.of_nat (Z.to_nat n)) i) + acc) 0 l
       = fold_right (fun i acc =>
           sumZ (fun c => if c mod 16 =? i then f c else 0) (Z.to_nat n) + acc)
           0 l).
    { induction l as [|i l IH]; intros Hl; simpl; [reflexivity|].
      rewrite strided_sum_indicator by (apply Hl; left; reflexivity).
      rewrite IH by (intros j Hj; apply Hl; right; exact Hj).
      reflexivity. }
    rewrite (Z2Nat.id n Hn) in H.
    apply H. intros i Hi. apply in_zrange in Hi. lia.
  - rewrite fold_indicator. apply sumZ_ext. intros c Hc.
    assert (0 <= c mod 16 < 16) by (apply Z.mod_pos_bound; lia).
    destruct (Z.leb_spec 0 (c mod 16)), (Z.ltb_spec (c mod 16) (0 + Z.of_nat 16));
      simpl; try reflexivity; lia.
Qed.

(* ================================================================== *)
(** * Index arithmetic inside [rocblas_int] *)

Lemma range_n_small (n lda : Z) :
  0 <= n -> n <= lda -> n * lda <= INT_MAX -> n <= 46340.
Proof. unfold INT_MAX. intros. nia. Qed.

Lemma matrix_index_range (n lda i j : Z) :
  n <= lda -> n * lda <= INT_MAX -> 0 <= i < n -> 0 <= j < n ->
  0 <= j * lda <= INT_MAX /\ 0 <= i + j * lda <= INT_MAX.
Proof. unfold INT_MAX. intros. nia. Qed.

Lemma vector_index_range (n inc c : Z) :
  n * Z.abs inc <= INT_MAX -> 0 <= c < n ->
  -2147483648 <= c * inc <= INT_MAX.
Proof. unfold INT_MAX. intros. nia. Qed.

Lemma to_int_matrix (n lda i j : Z) :
  n <= lda -> n * lda <= INT_MAX -> 0 <= i < n -> 0 <= j < n ->
  to_int (i + to_int (j * lda)) = i + j * lda.
Proof.
  intros H1 H2 Hi Hj.
  destruct (matrix_index_range n lda i j H1 H2 Hi Hj) as (Ha & Hb).
  rewrite (to_int_id (j * lda)) by lia. apply to_int_id. lia.
Qed.

Lemma to_int_vector (n inc c : Z) :
  n * Z.abs inc <= INT_MAX -> 0 <= c < n -> to_int (c * inc) = c * inc.
Proof.
  intros H Hc. apply to_int_id. apply (vector_index_range n); assumption.
Qed.

Lemma vector_addr_inj (inc r1 r2 base : Z) :
  inc <> 0 -> base + r1 * inc = base + r2 * inc -> r1 = r2.
Proof. intros. nia. Qed.

(* ================================================================== *)
(** * The access log *)

Lemma log_ext_refl (P : event -> Prop) (s : state) : log_ext P s s.
Proof. exists []. split; [reflexivity|constructor]. Qed.

Lemma log_ext_trans (P : event -> Prop) (s1 s2 s3 : state) :
  log_ext P s1 s2 -> log_ext P s2 s3 -> log_ext P s1 s3.
Proof.
  intros (e1 & E1 & F1) (e2 & E2 & F2). exists (e2 ++ e1). split.
  - rewrite E2, E1. apply app_assoc.
  - apply Forall_app. split; assumption.
Qed.

Lemma log_ext_cons (P : event -> Prop) (s s' : state) (e : event) :
  P e -> log s' = e :: log s -> log_ext P s s'.
Proof.
  intros H E. exists [e]. split; [exact E|]. constructor; [exact H|constructor].
Qed.

Lemma log_ext_eq (P : event -> Prop) (s s' : state) :
  log s' = log s -> log_ext P s s'.
Proof. intros E. exists []. split; [exact E|constructor]. Qed.

(* ================================================================== *)
(** * The workers of [symv_kernel_calc] *)

Lemma thread_id_of_ctx (k : Z) :
  0 <= k < 1024 -> to_int (k mod 64 + k / 64 * 64) = k.
Proof.
  intros H. rewrite to_int_id; unfold INT_MAX;
    Z.div_mod_to_equations; lia.
Qed.

Lemma rem_of_thread_id (k : Z) : 0 <= k -> Z.rem k 64 = k mod 64.
Proof. intros H. apply Z.rem_mod_nonneg; lia. Qed.

Lemma quot_of_thread_id (k : Z) : 0 <= k -> Z.quot k 64 = k / 64.
Proof. intros H. apply Z.quot_div_nonneg; lia. Qed.

Section SymvWorker.

Variable q : symv_inst.
Variable P : event -> Prop.

Hypothesis Hrange :
  symv_range_ok (i_n q) (i_lda q) (i_incx q) (i_incy q).

Hypothesis P_A : forall i j,
  0 <= i < i_n q -> 0 <= j < i_n q -> on_triangle (i_upper q) i j = true ->
  P (Rd BufA (i_A q + (i + j * i_lda q))).

Hypothesis P_X : forall c,
  0 <= c < i_n q -> P (Rd BufX (xaddr q c)).

Lemma column_loop_spec (fuel : nat) (ind col res : Z) (s : state) :
  0 <= ind < i_n q -> 0 <= col ->
  (col_iters (i_n q) col < fuel)%nat ->
  exists s',
    symv_column_loop 16 fuel (i_upper q) (i_n q) (i_A q) (i_lda q)
                     (i_x q) (i_incx q) ind col res s
    = Some (res + strided_sum (symv_term q (mem s) ind) col
                              (col_iters (i_n q) col), s')
    /\ mem s' = mem s /\ sdata s' = sdata s /\ log_ext P s s'.
Proof.
  destruct Hrange as (Hn & Hlda & HA & HX & HY).
  pose proof (range_n_small _ _ Hn Hlda HA) as Hsmall.
  revert col res s. induction fuel as [|fuel IH]; intros col res s Hind Hcol Hfuel.
  - lia.
  - cbn [symv_column_loop].
    destruct (Z.ltb_spec col (i_n q)) as [Hlt|Hge].
    + rewrite col_iters_step in * by lia.
      destruct (Z.ltb_spec ind (i_n q)) as [_|?]; [|lia].
      rewrite (to_int_id (col + 16)) by (unfold INT_MAX; lia).
      rewrite (to_int_vector (i_n q) (i_incx q) col) by (assumption || lia).
      cbn [strided_sum].
      assert (Hbody : exists a,
        (if col >=? ind
         then if i_upper q
              then load BufA (i_A q + to_int (ind + to_int (col * i_lda q)))
              else load BufA (i_A q + to_int (col + to_int (ind * i_lda q)))
         else if negb (i_upper q)
              then load BufA (i_A q + to_int (ind + to_int (col * i_lda q)))
              else load BufA (i_A q + to_int (col + to_int (ind * i_lda q))))
        = load BufA (i_A q + a)
        /\ P (Rd BufA (i_A q + a))
        /\ mem s BufA (i_A q + a)
           = A_sym (mem s) (i_upper q) (i_A q) (i_lda q) ind col).
      { rewrite Z.geb_leb. unfold A_sym, on_triangle.
        rewrite (to_int_matrix (i_n q) (i_lda q) ind col) by (assumption || lia).
        rewrite (to_int_matrix (i_n q) (i_lda q) col ind) by (assumption || lia).
        destruct (i_upper q) eqn:Eu; cbn [negb].
        - destruct (Z.leb_spec ind col) as [Hle|Hgt].
          + exists (ind + col * i_lda q). repeat split.
            apply P_A; try lia. unfold on_triangle.
            apply Z.leb_le. lia.
          + exists (col + ind * i_lda q). repeat split.
            apply P_A; try lia. unfold on_triangle.
            apply Z.leb_le. lia.
        - destruct (Z.leb_spec ind col) as [Hle|Hgt].
          + exists (col + ind * i_lda q). repeat split.
            * apply P_A; try lia. unfold on_triangle.
              apply Z.leb_le. lia.
            * destruct (Z.leb_spec col ind); [|reflexivity].
              replace col with ind by lia. reflexivity.
          + exists (ind + col * i_lda q). repeat split.
            * apply P_A; try lia. unfold on_triangle.
              apply Z.leb_le. lia.
            * destruct (Z.leb_spec col ind); [reflexivity|lia]. }
      destruct Hbody as (a & -> & HPa & Ha).
      unfold bind at 1. unfold bind at 1. unfold load at 1.
      unfold bind at 1. unfold load at 1. unfold ret at 1.
      cbn [mem sdata log].
      match goal with
      | |- context [symv_column_loop _ _ _ _ _ _ _ _ _ _ ?r ?s1] =>
          destruct (IH (col + 16) r s1) as (s' & E & Hm & Hs & Hl);
            [lia|lia|lia|]
      end.
      exists s'. cbn [mem sdata log] in *. rewrite E. split; [|split; [|split]].
      * f_equal. f_equal. unfold symv_term at 2.
        unfold xaddr. rewrite <- Ha. lia.
      * exact Hm.
      * exact Hs.
      * eapply log_ext_trans; [|exact Hl].
        exists [Rd BufX (i_x q + col * i_incx q); Rd BufA (i_A q + a)].
        split; [reflexivity|].
        constructor; [apply (P_X col); lia|].
        constructor; [exact HPa|constructor].
    + rewrite col_iters_done by lia. cbn [strided_sum].
      exists s. unfold ret. repeat split.
      * f_equal. f_equal. lia.
      * apply log_ext_refl.
Qed.

(** A worker whose row lies beyond [n] walks the columns without any
    access. *)
Lemma column_loop_masked (fuel : nat) (upper : bool) (A lda x incx : Z)
      (ind col res : Z) (s : state) :
  i_n q <= ind -> 0 <= col -> i_n q <= 2147483000 ->
  (col_iters (i_n q) col < fuel)%nat ->
  symv_column_loop 16 fuel upper (i_n q) A lda x incx ind col res s
  = Some (res, s).
Proof.
  revert col. induction fuel as [|fuel IH]; intros col Hind Hcol Hn Hfuel.
  - lia.
  - cbn [symv_column_loop].
    destruct (Z.ltb_spec col (i_n q)) as [Hlt|Hge]; [|reflexivity].
    destruct (Z.ltb_spec ind (i_n q)) as [?|_]; [lia|].
    unfold bind at 1. unfold ret at 1.
    rewrite (to_int_id (col + 16)) by (unfold INT_MAX; lia).
    apply IH; try lia.
    rewrite col_iters_step in Hfuel by lia. lia.
Qed.

End SymvWorker.

Lemma upd_same (m : memory) (b : buffer) (a v : Z) : upd m b a v b a = v.
Proof.
  unfold upd. rewrite Z.eqb_refl. destruct b; reflexivity.
Qed.

Lemma upd_other_addr (m : memory) (b : buffer) (a a' v : Z) :
  a <> a' -> upd m b a v b a' = m b a'.
Proof.
  intros H. unfold upd. apply Z.eqb_neq in H. rewrite H.
  rewrite andb_false_r. reflexivity.
Qed.

Lemma upd_other_buffer (m : memory) (b b' : buffer) (a a' v : Z) :
  b <> b' -> upd m b a v b' a' = m b' a'.
Proof.
  intros H. unfold upd.
  destruct b, b'; try reflexivity; exfalso; apply H; reflexivity.
Qed.

Lemma load_scalar_spec (P : event -> Prop) (b : buffer) (x : scalar_arg)
      (idx inc : Z) (s : state) :
  (forall p, x = ByPointer p -> P (Rd b (p + idx * inc))) ->
  exists s',
    load_scalar b x idx inc s = Some (resolve_scalar (mem s) b x idx inc, s')
    /\ mem s' = mem s /\ sdata s' = sdata s /\ log_ext P s s'.
Proof.
  intros H. destruct x as [v|p]; cbn [load_scalar resolve_scalar].
  - exists s. repeat split. apply log_ext_refl.
  - eexists. split; [reflexivity|]. cbn [mem sdata log]. repeat split.
    apply (log_ext_cons P _ _ (Rd b (p + idx * inc))); [|reflexivity].
    apply H. reflexivity.
Qed.

(** The sum the reduction of [symv_post] leaves in [sdata[k]]. *)
Lemma reduce_spec (k : Z) (cnt : nat) (lo : Z) (s : state) :
  0 <= k < 64 -> 1 <= lo -> lo + Z.of_nat cnt <= 16 ->
  exists s',
    iterM (symv_reduce_step 64 k) (zrange lo cnt) s = Some (tt, s')
    /\ mem s' = mem s /\ log s' = log s
    /\ (forall j, j <> k -> sdata s' j = sdata s j)
    /\ sdata s' k
       = sdata s k
         + fold_right (fun i acc => sdata s (k + 64 * i) + acc) 0
                      (zrange lo cnt).
Proof.
  intros Hk. revert lo s. induction cnt as [|cnt IH]; intros lo s Hlo Hhi.
  - exists s. cbn. repeat split. lia.
  - cbn [zrange iterM]. unfold bind at 1. unfold symv_reduce_step at 1.
    unfold bind, sload, sstore. 
    rewrite (to_int_id (64 * lo)) by (unfold INT_MAX; lia).
    rewrite (to_int_id (k + 64 * lo)) by (unfold INT_MAX; lia).
    match goal with
    | |- context [iterM _ _ ?s1] =>
        destruct (IH (lo + 1) s1) as (s' & E & Hm & Hl & Ho & Hs); [lia|lia|]
    end.
    exists s'. cbn [mem sdata log] in *. split; [exact E|].
    split; [exact Hm|]. split; [exact Hl|]. split.
    + intros j Hj. rewrite (Ho j Hj).
      destruct (Z.eqb_spec k j); [lia|reflexivity].
    + rewrite Hs. rewrite Z.eqb_refl. cbn [fold_right].
      assert (Hf : forall l, (forall i, In i l -> 1 <= i) ->
        fold_right (fun i acc =>
          (if k =? k + 64 * i then sdata s k + sdata s (k + 64 * lo)
           else sdata s (k + 64 * i)) + acc) 0 l
        = fold_right (fun i acc => sdata s (k + 64 * i) + acc) 0 l).
      { induction l as [|i l IHl]; intros Hl'; cbn [fold_right]; [reflexivity|].
        rewrite IHl by (intros i' Hi'; apply Hl'; right; exact Hi').
        assert (1 <= i) by (apply Hl'; left; reflexivity).
        destruct (Z.eqb_spec k (k + 64 * i)); [lia|reflexivity]. }
      rewrite Hf; [lia|].
      intros i Hi. apply in_zrange in Hi. lia.
Qed.

Lemma col_iters_le (n col : Z) :
  0 <= n -> 0 <= col -> (col_iters n col <= Z.to_nat n)%nat.
Proof.
  intros Hn Hcol. unfold col_iters.
  destruct (Z.le_gt_cases 0 (n - col + 15)).
  - apply Z2Nat.inj_le;
      [apply Z.div_pos; lia | lia | Z.div_mod_to_equations; lia].
  - assert (Hq : (n - col + 15) / 16 < 0)
      by (apply Z.div_lt_upper_bound; lia).
    destruct ((n - col + 15) / 16); simpl; lia.
Qed.

Section SymvCalc.

Variable q : symv_inst.
Variable P : event -> Prop.
Variables bx by_ : Z.

Hypothesis Hrange :
  symv_range_ok (i_n q) (i_lda q) (i_incx q) (i_incy q).
Hypothesis Hbx : 0 <= bx /\ bx * 64 < i_n q.

Hypothesis P_A : forall i j,
  i_alpha q <> 0 ->
  0 <= i < i_n q -> 0 <= j < i_n q -> on_triangle (i_upper q) i j = true ->
  P (Rd BufA (i_A q + (i + j * i_lda q))).
Hypothesis P_X : forall c,
  i_alpha q <> 0 -> 0 <= c < i_n q -> P (Rd BufX (xaddr q c)).
Hypothesis P_Yr : forall r,
  i_beta q <> 0 -> ~ quick_return q -> 0 <= r < i_n q ->
  P (Rd BufY (yaddr q r)).
Hypothesis P_Yw : forall r,
  ~ quick_return q -> 0 <= r < i_n q -> P (Wr BufY (yaddr q r)).

Lemma calc_full (fuel : nat) (k : Z) (s : state) :
  i_alpha q <> 0 -> 0 <= k < 1024 -> (Z.to_nat (i_n q) < fuel)%nat ->
  exists s',
    symv_kernel_calc 64 16 fuel (symv_ctx bx by_ k) (i_upper q) (i_n q)
      (i_alpha q) (i_A q) (i_lda q) (i_x q) (i_incx q)
      (i_beta q) (i_y q) (i_incy q) s
    = Some (Barrier (symv_post (symv_ctx bx by_ k) q), s')
    /\ mem s' = mem s
    /\ (forall j, sdata s' j
                  = if k =? j then symv_partial q (mem s) bx k else sdata s j)
    /\ log_ext P s s'.
Proof.
  intros Ha Hk Hfuel.
  destruct Hrange as (Hn & Hlda & HA & HX & HY).
  pose proof (range_n_small _ _ Hn Hlda HA) as Hsmall.
  assert (Hmod : 0 <= k mod 64 < 64) by (apply Z.mod_pos_bound; lia).
  assert (Hdiv : 0 <= k / 64 < 16) by (Z.div_mod_to_equations; lia).
  unfold symv_kernel_calc. cbv zeta.
  match goal with
  | |- context [syncthreads ?r] => set (rest := r)
  end.
  cbn [symv_ctx hipThreadIdx_x hipThreadIdx_y hipBlockDim_x hipBlockIdx_x].
  rewrite (thread_id_of_ctx k Hk).
  rewrite (rem_of_thread_id k) by lia.
  rewrite (quot_of_thread_id k) by lia.
  apply Z.eqb_neq in Ha. rewrite Ha.
  rewrite (to_int_id (bx * 64 + k mod 64)) by (unfold INT_MAX; lia).
  rewrite (to_int_id (k / 64 * 64)) by (unfold INT_MAX; lia).
  rewrite (to_int_id (k mod 64 + k / 64 * 64))
    by (unfold INT_MAX; lia).
  replace (k mod 64 + k / 64 * 64) with k
    by (Z.div_mod_to_equations; lia).
  assert (Hloop : exists s1,
    symv_column_loop 16 fuel (i_upper q) (i_n q) (i_A q) (i_lda q)
                     (i_x q) (i_incx q) (bx * 64 + k mod 64) (k / 64) 0 s
    = Some (symv_partial q (mem s) bx k, s1)
    /\ mem s1 = mem s /\ sdata s1 = sdata s /\ log_ext P s s1).
  { unfold symv_partial.
    pose proof (col_iters_le (i_n q) (k / 64) Hn (proj1 Hdiv)) as Hle.
    destruct (Z.ltb_spec (bx * 64 + k mod 64) (i_n q)) as [Hlt|Hge].
    - destruct (column_loop_spec q P
                  (conj Hn (conj Hlda (conj HA (conj HX HY))))
                  (fun i j => P_A i j (proj1 (Z.eqb_neq _ _) Ha))
                  (fun c => P_X c (proj1 (Z.eqb_neq _ _) Ha))
                  fuel (bx * 64 + k mod 64) (k / 64) 0 s)
        as (s1 & E & H1 & H2 & H3); [lia|lia|lia|].
      exists s1. rewrite E. repeat split; assumption.
    - exists s. rewrite (column_loop_masked q) by lia.
      repeat split. apply log_ext_refl. }
  destruct Hloop as (s1 & E & H1 & H2 & H3).
  rewrite (bind_run _ _ _ _ _ E).
  unfold bind, sstore, syncthreads, ret.
  eexists. split; [subst rest; reflexivity|].
  cbn [mem sdata log]. split; [exact H1|]. split.
  - intros j. rewrite H2. reflexivity.
  - destruct H3 as (evs & E3 & F3). exists evs. split; assumption.
Qed.

Lemma post_idle (k : Z) (s : state) :
  0 <= k < 1024 -> ~ (k < 64 /\ bx * 64 + k < i_n q) ->
  symv_post (symv_ctx bx by_ k) q s = Some (tt, s).
Proof.
  intros Hk Hno.
  destruct Hrange as (Hn & Hlda & HA & HX & HY).
  pose proof (range_n_small _ _ Hn Hlda HA) as Hsmall.
  unfold symv_post. cbv zeta.
  cbn [symv_ctx hipThreadIdx_x hipThreadIdx_y hipBlockDim_x hipBlockIdx_x].
  rewrite (thread_id_of_ctx k Hk). unfold symv_DIM_X.
  rewrite (to_int_id (bx * 64 + k)) by (unfold INT_MAX; lia).
  destruct (Z.ltb_spec k 64); [|reflexivity].
  destruct (Z.ltb_spec (bx * 64 + k) (i_n q)); [lia|reflexivity].
Qed.

Lemma post_row (k : Z) (s : state) :
  i_alpha q <> 0 -> 0 <= k < 64 -> bx * 64 + k < i_n q ->
  exists s',
    symv_post (symv_ctx bx by_ k) q s = Some (tt, s')
    /\ row_written q P (bx * 64 + k)
         (i_beta q * mem s BufY (yaddr q (bx * 64 + k))
          + i_alpha q * fold_right (fun i acc => sdata s (k + 64 * i) + acc)
                                   0 (zrange 0 16))
         s s'
    /\ (forall j, j <> k -> sdata s' j = sdata s j).
Proof.
  intros Ha Hk Hrow.
  destruct Hrange as (Hn & Hlda & HA & HX & HY).
  pose proof (range_n_small _ _ Hn Hlda HA) as Hsmall.
  assert (Hnq : ~ quick_return q) by (intros [E _]; contradiction).
  unfold symv_post. cbv zeta.
  cbn [symv_ctx hipThreadIdx_x hipThreadIdx_y hipBlockDim_x hipBlockIdx_x].
  rewrite (thread_id_of_ctx k) by lia. unfold symv_DIM_X, symv_DIM_Y.
  rewrite (to_int_id (bx * 64 + k)) by (unfold INT_MAX; lia).
  destruct (Z.ltb_spec k 64); [|lia].
  destruct (Z.ltb_spec (bx * 64 + k) (i_n q)); [|lia].
  cbn [andb].
  rewrite (to_int_vector (i_n q) (i_incy q) (bx * 64 + k)) by (assumption || lia).
  change (Z.to_nat (16 - 1)) with 15%nat.
  destruct (reduce_spec k 15 1 s) as (s1 & E & Hm & Hl & Ho & Hs);
    [lia|lia|lia|].
  rewrite (bind_run _ _ _ _ _ E).
  assert (HS : sdata s1 k
               = fold_right (fun i acc => sdata s (k + 64 * i) + acc)
                            0 (zrange 0 16)).
  { rewrite Hs. change (zrange 0 16) with (0 :: zrange 1 15).
    cbn [fold_right]. replace (k + 64 * 0) with k by lia. reflexivity. }
  fold (yaddr q (bx * 64 + k)).
  destruct (Z.eqb_spec (i_beta q) 0) as [Eb|Eb].
  - unfold bind, sload, store, ret. eexists. split; [reflexivity|].
    cbn [mem sdata log]. split; [split|].
    + intros b a. rewrite Hm, HS, Eb.
      replace (0 * mem s BufY (yaddr q (bx * 64 + k))
               + i_alpha q * fold_right (fun i acc => sdata s (k + 64 * i) + acc)
                                        0 (zrange 0 16))
        with (i_alpha q * fold_right (fun i acc => sdata s (k + 64 * i) + acc)
                                     0 (zrange 0 16)) by lia.
      reflexivity.
    + exists [Wr BufY (yaddr q (bx * 64 + k))]. rewrite Hl.
      split; [reflexivity|]. split; [|split].
      * constructor; [apply P_Yw; [assumption|lia]|constructor].
      * left. reflexivity.
      * intros Hb. contradiction.
    + intros j Hj. apply Ho. exact Hj.
  - unfold bind, sload, load, store, ret. eexists. split; [reflexivity|].
    cbn [mem sdata log]. split; [split|].
    + intros b a. rewrite Hm, HS.
      replace (i_alpha q * fold_right (fun i acc => sdata s (k + 64 * i) + acc)
                                      0 (zrange 0 16)
               + i_beta q * mem s BufY (yaddr q (bx * 64 + k)))
        with (i_beta q * mem s BufY (yaddr q (bx * 64 + k))
              + i_alpha q * fold_right (fun i acc => sdata s (k + 64 * i) + acc)
                                       0 (zrange 0 16)) by lia.
      reflexivity.
    + exists [Wr BufY (yaddr q (bx * 64 + k)); Rd BufY (yaddr q (bx * 64 + k))].
      rewrite Hl. split; [reflexivity|]. split; [|split].
      * constructor; [apply P_Yw; [assumption|lia]|].
        constructor; [apply P_Yr; [assumption|assumption|lia]|constructor].
      * left. reflexivity.
      * intros _. right. left. reflexivity.
    + intros j Hj. apply Ho. exact Hj.
Qed.

Lemma calc_fast_idle (fuel : nat) (k : Z) (s : state) :
  i_alpha q = 0 -> 0 <= k < 1024 ->
  ~ (k < 64 /\ bx * 64 + k < i_n q) ->
  symv_kernel_calc 64 16 fuel (symv_ctx bx by_ k) (i_upper q) (i_n q)
    (i_alpha q) (i_A q) (i_lda q) (i_x q) (i_incx q)
    (i_beta q) (i_y q) (i_incy q) s
  = Some (Returned, s).
Proof.
  intros Ha Hk Hno.
  destruct Hrange as (Hn & Hlda & HA & HX & HY).
  pose proof (range_n_small _ _ Hn Hlda HA) as Hsmall.
  unfold symv_kernel_calc. cbv zeta.
  cbn [symv_ctx hipThreadIdx_x hipThreadIdx_y hipBlockDim_x hipBlockIdx_x].
  rewrite (thread_id_of_ctx k Hk). rewrite Ha. cbn [Z.eqb].
  rewrite (to_int_id (bx * 64 + k)) by (unfold INT_MAX; lia).
  destruct (Z.ltb_spec k 64); [|reflexivity].
  destruct (Z.ltb_spec (bx * 64 + k) (i_n q)); [lia|reflexivity].
Qed.

Lemma calc_fast_row (fuel : nat) (k : Z) (s : state) :
  i_alpha q = 0 -> ~ quick_return q ->
  0 <= k < 64 -> bx * 64 + k < i_n q ->
  exists s',
    symv_kernel_calc 64 16 fuel (symv_ctx bx by_ k) (i_upper q) (i_n q)
      (i_alpha q) (i_A q) (i_lda q) (i_x q) (i_incx q)
      (i_beta q) (i_y q) (i_incy q) s
    = Some (Returned, s')
    /\ row_written q P (bx * 64 + k)
         (i_beta q * mem s BufY (yaddr q (bx * 64 + k))) s s'
    /\ sdata s' = sdata s.
Proof.
  intros Ha Hnq Hk Hrow.
  destruct Hrange as (Hn & Hlda & HA & HX & HY).
  pose proof (range_n_small _ _ Hn Hlda HA) as Hsmall.
  unfold symv_kernel_calc. cbv zeta.
  cbn [symv_ctx hipThreadIdx_x hipThreadIdx_y hipBlockDim_x hipBlockIdx_x].
  rewrite (thread_id_of_ctx k) by lia. rewrite Ha. cbn [Z.eqb].
  rewrite (to_int_id (bx * 64 + k)) by (unfold INT_MAX; lia).
  destruct (Z.ltb_spec k 64); [|lia].
  destruct (Z.ltb_spec (bx * 64 + k) (i_n q)); [|lia].
  cbn [andb].
  rewrite (to_int_vector (i_n q) (i_incy q) (bx * 64 + k)) by (assumption || lia).
  fold (yaddr q (bx * 64 + k)).
  destruct (Z.eqb_spec (i_beta q) 0) as [Eb|Eb].
  - unfold bind, store, ret. eexists. split; [reflexivity|].
    cbn [mem sdata log]. split; [split|reflexivity].
    + intros b a. rewrite Eb. reflexivity.
    + exists [Wr BufY (yaddr q (bx * 64 + k))].
      split; [reflexivity|]. split; [|split].
      * constructor; [apply P_Yw; [assumption|lia]|constructor].
      * left. reflexivity.
      * intros Hb. contradiction.
  - unfold bind, load, store, ret. eexists. split; [reflexivity|].
    cbn [mem sdata log]. split; [split|reflexivity].
    + intros b a. reflexivity.
    + exists [Wr BufY (yaddr q (bx * 64 + k)); Rd BufY (yaddr q (bx * 64 + k))].
      split; [reflexivity|]. split; [|split].
      * constructor; [apply P_Yw; [assumption|lia]|].
        constructor; [apply P_Yr; [assumption|assumption|lia]|constructor].
      * left. reflexivity.
      * intros _. right. left. reflexivity.
Qed.

End SymvCalc.

(* ================================================================== *)
(** * Loops over a range of workers or blocks *)

Lemma mapM_map {X Y R} (f : Y -> M R) (h : X -> Y) (l : list X) (s : state) :
  mapM f (map h l) s = mapM (fun x => f (h x)) l s.
Proof.
  revert s. induction l as [|x l IH]; intros s; cbn [map mapM]; [reflexivity|].
  unfold bind. destruct (f (h x) s) as [[r s1]|]; [|reflexivity].
  rewrite IH. reflexivity.
Qed.

Lemma mapM_range_inv {R} (f : Z -> M R) (g : Z -> R)
      (J : Z -> state -> Prop) (hi : Z) :
  (forall k s, 0 <= k < hi -> J k s ->
               exists s', f k s = Some (g k, s') /\ J (k + 1) s') ->
  forall (cnt : nat) (lo : Z) (s : state),
    0 <= lo -> lo + Z.of_nat cnt <= hi -> J lo s ->
    exists s', mapM f (zrange lo cnt) s = Some (map g (zrange lo cnt), s')
               /\ J (lo + Z.of_nat cnt) s'.
Proof.
  intros Hstep. induction cnt as [|cnt IH]; intros lo s Hlo Hhi HJ.
  - exists s. cbn. split; [reflexivity|].
    replace (lo + 0) with lo by lia. exact HJ.
  - cbn [zrange mapM map].
    destruct (Hstep lo s) as (s1 & E1 & J1); [lia|exact HJ|].
    destruct (IH (lo + 1) s1) as (s2 & E2 & J2); [lia|lia|exact J1|].
    exists s2. rewrite (bind_run _ _ _ _ _ E1), (bind_run _ _ _ _ _ E2).
    split; [reflexivity|].
    replace (lo + Z.of_nat (S cnt)) with (lo + 1 + Z.of_nat cnt) by lia.
    exact J2.
Qed.

Lemma iterM_range_inv (f : Z -> M unit) (J : Z -> state -> Prop) (hi : Z) :
  (forall k s, 0 <= k < hi -> J k s ->
               exists s', f k s = Some (tt, s') /\ J (k + 1) s') ->
  forall (cnt : nat) (lo : Z) (s : state),
    0 <= lo -> lo + Z.of_nat cnt <= hi -> J lo s ->
    exists s', iterM f (zrange lo cnt) s = Some (tt, s')
               /\ J (lo + Z.of_nat cnt) s'.
Proof.
  intros Hstep. induction cnt as [|cnt IH]; intros lo s Hlo Hhi HJ.
  - exists s. cbn. split; [reflexivity|].
    replace (lo + 0) with lo by lia. exact HJ.
  - cbn [zrange iterM].
    destruct (Hstep lo s) as (s1 & E1 & J1); [lia|exact HJ|].
    destruct (IH (lo + 1) s1) as (s2 & E2 & J2); [lia|lia|exact J1|].
    exists s2. rewrite (bind_run _ _ _ _ _ E1).
    split; [exact E2|].
    replace (lo + Z.of_nat (S cnt)) with (lo + 1 + Z.of_nat cnt) by lia.
    exact J2.
Qed.

Lemma block_contexts_symv (bx by_ : Z) :
  block_contexts symv_threads bx by_ 0
  = map (symv_ctx bx by_) (zrange 0 1024).
Proof. vm_compute. reflexivity. Qed.

Lemma fold_right_ext_in (f g : Z -> Z -> Z) (l : list Z) :
  (forall i acc, In i l -> f i acc = g i acc) ->
  fold_right f 0 l = fold_right g 0 l.
Proof.
  induction l as [|i l IH]; intros H; cbn [fold_right]; [reflexivity|].
  rewrite IH by (intros j acc Hj; apply H; right; exact Hj).
  apply H. left. reflexivity.
Qed.

(* ================================================================== *)
(** * The invariant of a batch instance *)

Lemma symv_term_ext (q : symv_inst) (m m' : memory) (r c : Z) :
  (forall b a, b <> BufY -> m b a = m' b a) ->
  symv_term q m r c = symv_term q m' r c.
Proof.
  intros H. unfold symv_term, A_sym.
  rewrite !(H BufA) by discriminate. rewrite (H BufX) by discriminate.
  reflexivity.
Qed.

Lemma symv_dot_ext (q : symv_inst) (m m' : memory) (r : Z) :
  (forall b a, b <> BufY -> m b a = m' b a) ->
  symv_dot q m r = symv_dot q m' r.
Proof.
  intros H. unfold symv_dot. apply sumZ_ext. intros c _.
  apply symv_term_ext. exact H.
Qed.

Lemma symv_partial_ext (q : symv_inst) (m m' : memory) (bx k : Z) :
  (forall b a, b <> BufY -> m b a = m' b a) ->
  symv_partial q m bx k = symv_partial q m' bx k.
Proof.
  intros H. unfold symv_partial.
  destruct (_ <? _); [|reflexivity].
  apply strided_sum_ext. intros c _. apply symv_term_ext. exact H.
Qed.

Section SymvInvariant.

Variable q : symv_inst.
Variable P : event -> Prop.
Variable m0 : memory.
Variable l0 : list event.

Lemma inv_init (s : state) :
  mem s = m0 -> log s = l0 -> symv_inv q P m0 l0 0 s.
Proof.
  intros Hm Hl. unfold symv_inv. rewrite Hm, Hl. repeat split.
  - intros r Hr. destruct (Z.ltb_spec r 0); [lia|reflexivity].
  - exists []. repeat split; try constructor; lia.
Qed.

Lemma inv_frame (d : Z) (s s' : state) :
  symv_inv q P m0 l0 d s ->
  (forall b a, mem s' b a = mem s b a) -> log_ext P s s' ->
  symv_inv q P m0 l0 d s'.
Proof.
  intros (H1 & H2 & H3 & (evs & E & F & Hin)) Hm (ev' & E' & F').
  unfold symv_inv. repeat split.
  - intros b a Hb. rewrite Hm. apply H1. exact Hb.
  - intros a Ha. rewrite Hm. apply H2. exact Ha.
  - intros r Hr. rewrite Hm. apply H3. exact Hr.
  - exists (ev' ++ evs). split; [|split].
    + rewrite E', E. apply app_assoc.
    + apply Forall_app. split; assumption.
    + intros r Hr Hd Hq. destruct (Hin r Hr Hd Hq) as (Hw & Hrd). split.
      * apply in_or_app. right. exact Hw.
      * intros Hb. apply in_or_app. right. apply Hrd. exact Hb.
Qed.

Lemma inv_past (d d' : Z) (s : state) :
  symv_inv q P m0 l0 d s -> i_n q <= d -> i_n q <= d' ->
  symv_inv q P m0 l0 d' s.
Proof.
  intros (H1 & H2 & H3 & (evs & E & F & Hin)) Hd Hd'.
  unfold symv_inv. repeat split; try assumption.
  - intros r Hr. rewrite (H3 r Hr).
    destruct (Z.ltb_spec r d), (Z.ltb_spec r d'); try reflexivity; lia.
  - exists evs. repeat split; try assumption;
      destruct (Hin r) as (Hw & Hrd); auto; lia.
Qed.

Lemma inv_quick (d d' : Z) (s : state) :
  quick_return q -> symv_inv q P m0 l0 d s -> symv_inv q P m0 l0 d' s.
Proof.
  intros Hq (H1 & H2 & H3 & (evs & E & F & Hin)).
  assert (Hres : forall r, symv_result q m0 r = m0 BufY (yaddr q r)).
  { intros r. unfold symv_result. destruct Hq as (-> & ->). lia. }
  unfold symv_inv. repeat split; try assumption.
  - intros r Hr. rewrite (H3 r Hr). rewrite Hres.
    destruct (r <? d), (r <? d'); reflexivity.
  - exists evs. repeat split; try assumption; contradiction.
Qed.

Lemma inv_row (r v : Z) (s s' : state) :
  symv_inv q P m0 l0 r s ->
  0 <= r < i_n q -> i_incy q <> 0 ->
  row_written q P r v s s' ->
  v = symv_result q m0 r ->
  symv_inv q P m0 l0 (r + 1) s'.
Proof.
  intros (H1 & H2 & H3 & (evs & E & F & Hin)) Hr Hinc
         (Hm & (ev' & E' & F' & Hw' & Hr')) Hv.
  unfold symv_inv. repeat split.
  - intros b a Hb. rewrite Hm.
    rewrite upd_other_buffer by (intros Eb; apply Hb; symmetry; exact Eb).
    apply H1. exact Hb.
  - intros a Ha. rewrite Hm. rewrite upd_other_addr.
    + apply H2. exact Ha.
    + intros Ea. apply (Ha r Hr). symmetry. exact Ea.
  - intros r' Hr'r. rewrite Hm.
    destruct (Z.eq_dec r' r) as [->|Hne].
    + rewrite upd_same. destruct (Z.ltb_spec r (r + 1)); [exact Hv|lia].
    + rewrite upd_other_addr.
      * rewrite (H3 r' Hr'r).
        destruct (Z.ltb_spec r' r), (Z.ltb_spec r' (r + 1));
          try reflexivity; lia.
      * unfold yaddr. intros Ea. apply Hne. symmetry.
        apply (vector_addr_inj (i_incy q) r r' (i_y q) Hinc Ea).
  - exists (ev' ++ evs). split; [|split].
    + rewrite E', E. apply app_assoc.
    + apply Forall_app. split; assumption.
    + intros r' Hr'r Hd Hq. destruct (Z.eq_dec r' r) as [->|Hne].
      * split.
        -- apply in_or_app. left. exact Hw'.
        -- intros Hb. apply in_or_app. left. apply Hr'. exact Hb.
      * destruct (Hin r' Hr'r) as (Hw & Hrd); [lia|exact Hq|]. split.
        -- apply in_or_app. right. exact Hw.
        -- intros Hb. apply in_or_app. right. apply Hrd. exact Hb.
Qed.

End SymvInvariant.

(* ================================================================== *)
(** * One block and one batch instance of symv *)

Section SymvBlock.

Variable a : symv_launch.
Variable m0 : memory.
Variable l0 : list event.
Variable by_ : Z.
Variable fuel : nat.
Variable P : event -> Prop.
Variable q : symv_inst.

Hypothesis Hq : q = symv_instance a m0 by_.
Hypothesis Hrange :
  symv_range_ok (i_n q) (i_lda q) (i_incx q) (i_incy q).
Hypothesis Hincy : i_incy q <> 0.
Hypothesis Hfuel : (Z.to_nat (i_n q) < fuel)%nat.

Hypothesis P_A : forall i j,
  i_alpha q <> 0 ->
  0 <= i < i_n q -> 0 <= j < i_n q -> on_triangle (i_upper q) i j = true ->
  P (Rd BufA (i_A q + (i + j * i_lda q))).
Hypothesis P_X : forall c,
  i_alpha q <> 0 -> 0 <= c < i_n q -> P (Rd BufX (xaddr q c)).
Hypothesis P_Yr : forall r,
  i_beta q <> 0 -> ~ quick_return q -> 0 <= r < i_n q ->
  P (Rd BufY (yaddr q r)).
Hypothesis P_Yw : forall r,
  ~ quick_return q -> 0 <= r < i_n q -> P (Wr BufY (yaddr q r)).
Hypothesis P_alpha : forall p,
  l_alpha a = ByPointer p -> P (Rd BufAlpha (p + by_ * l_stride_alpha a)).
Hypothesis P_beta : forall p,
  l_beta a = ByPointer p -> P (Rd BufBeta (p + by_ * l_stride_beta a)).

Variable bx : Z.
Hypothesis Hbx : 0 <= bx /\ bx * 64 < i_n q.

(** Up to the call of [symv_kernel_calc]. *)
Lemma kernel_prologue (k : Z) (s : state) :
  (forall b addr, b <> BufY -> mem s b addr = m0 b addr) ->
  exists s1,
    mem s1 = mem s /\ sdata s1 = sdata s /\ log_ext P s s1
    /\ symv_worker fuel a (symv_ctx bx by_ k) s
       = if (i_alpha q =? 0) && (i_beta q =? 1)
         then Some (Returned, s1)
         else symv_kernel_calc 64 16 fuel (symv_ctx bx by_ k)
                (i_upper q) (i_n q) (i_alpha q) (i_A q) (i_lda q)
                (i_x q) (i_incx q) (i_beta q) (i_y q) (i_incy q) s1.
Proof.
  intros Hm. unfold symv_worker, symv_kernel.
  cbn [symv_ctx hipBlockDim_x hipBlockDim_y hipBlockDim_z hipBlockIdx_y].
  change (negb (symv_DIM_X * symv_DIM_Y =? to_int (64 * 16 * 1))) with false.
  cbn iota.
  destruct (load_scalar_spec P BufAlpha (l_alpha a) by_ (l_stride_alpha a) s
              P_alpha) as (s1 & E1 & M1 & S1 & L1).
  destruct (load_scalar_spec P BufBeta (l_beta a) by_ (l_stride_beta a) s1
              P_beta) as (s2 & E2 & M2 & S2 & L2).
  exists s2. split; [congruence|]. split; [congruence|].
  split; [eapply log_ext_trans; eassumption|].
  rewrite (bind_run _ _ _ _ _ E1), (bind_run _ _ _ _ _ E2).
  assert (Ea : resolve_scalar (mem s) BufAlpha (l_alpha a) by_
                              (l_stride_alpha a) = i_alpha q).
  { rewrite Hq. cbn [symv_instance i_alpha]. unfold resolve_scalar.
    destruct (l_alpha a); [reflexivity|]. apply Hm. discriminate. }
  assert (Eb : resolve_scalar (mem s1) BufBeta (l_beta a) by_
                              (l_stride_beta a) = i_beta q).
  { rewrite Hq. cbn [symv_instance i_beta]. unfold resolve_scalar.
    destruct (l_beta a); [reflexivity|]. rewrite M1. apply Hm. discriminate. }
  rewrite Ea, Eb.
  destruct ((i_alpha q =? 0) && (i_beta q =? 1)); [reflexivity|].
  unfold symv_DIM_X, symv_DIM_Y.
  rewrite Hq. reflexivity.
Qed.

Lemma agree_of_inv (d : Z) (s : state) :
  symv_inv q P m0 l0 d s ->
  forall b addr, b <> BufY -> mem s b addr = m0 b addr.
Proof. intros (H & _). exact H. Qed.

Lemma row_value_of_inv (r : Z) (s : state) :
  symv_inv q P m0 l0 r s -> 0 <= r < i_n q ->
  mem s BufY (yaddr q r) = m0 BufY (yaddr q r).
Proof.
  intros (_ & _ & H & _) Hr. rewrite (H r Hr).
  destruct (Z.ltb_spec r r); [lia|reflexivity].
Qed.

Lemma quick_dec :
  (i_alpha q =? 0) && (i_beta q =? 1) = true <-> quick_return q.
Proof.
  unfold quick_return. rewrite andb_true_iff, !Z.eqb_eq. reflexivity.
Qed.

(** The workers of a block when the kernel returns early. *)
Lemma block_quick (s : state) :
  quick_return q ->
  symv_inv q P m0 l0 (bx * 64) s ->
  exists s',
    run_block (symv_worker fuel a) (block_contexts symv_threads bx by_ 0) s
    = Some (tt, s')
    /\ symv_inv q P m0 l0 ((bx + 1) * 64) s'.
Proof.
  intros Hqr Hinv. unfold run_block. rewrite block_contexts_symv.
  destruct (mapM_range_inv
              (fun k => symv_worker fuel a (symv_ctx bx by_ k))
              (fun _ => Returned)
              (fun _ s1 => symv_inv q P m0 l0 (bx * 64) s1) 1024)
    with (cnt := 1024%nat) (lo := 0) (s := s) as (s1 & E1 & J1).
  - intros k s1 Hk Hs1.
    destruct (kernel_prologue k s1 (agree_of_inv _ _ Hs1))
      as (s2 & M2 & S2 & L2 & E2).
    rewrite (proj2 quick_dec Hqr) in E2.
    exists s2. split; [exact E2|].
    apply (inv_frame q P m0 l0 _ s1); [exact Hs1| |exact L2].
    intros b addr. rewrite M2. reflexivity.
  - lia.
  - lia.
  - exact Hinv.
  - exists s1. rewrite <- mapM_map in E1.
    rewrite (bind_run _ _ _ _ _ E1). split.
    + apply iterM_idle. intros p Hp. apply in_map_iff in Hp.
      destruct Hp as (k & <- & _). reflexivity.
    + apply (inv_quick q P m0 l0 (bx * 64)); assumption.
Qed.

(** The workers of a block on the [alpha = 0] path. *)
Lemma block_fast (s : state) :
  i_alpha q = 0 -> ~ quick_return q ->
  symv_inv q P m0 l0 (bx * 64) s ->
  exists s',
    run_block (symv_worker fuel a) (block_contexts symv_threads bx by_ 0) s
    = Some (tt, s')
    /\ symv_inv q P m0 l0 ((bx + 1) * 64) s'.
Proof.
  intros Ha Hnq Hinv. unfold run_block. rewrite block_contexts_symv.
  assert (Hb : (i_alpha q =? 0) && (i_beta q =? 1) = false).
  { destruct ((i_alpha q =? 0) && (i_beta q =? 1)) eqn:E; [|reflexivity].
    exfalso. apply Hnq. apply quick_dec. exact E. }
  destruct (mapM_range_inv
              (fun k => symv_worker fuel a (symv_ctx bx by_ k))
              (fun _ => Returned)
              (fun k s1 => symv_inv q P m0 l0 (bx * 64 + Z.min k 64) s1) 1024)
    with (cnt := 1024%nat) (lo := 0) (s := s) as (s1 & E1 & J1).
  - intros k s1 Hk Hs1.
    destruct (kernel_prologue k s1 (agree_of_inv _ _ Hs1))
      as (s2 & M2 & S2 & L2 & E2).
    rewrite Hb in E2.
    assert (Hs2 : symv_inv q P m0 l0 (bx * 64 + Z.min k 64) s2).
    { apply (inv_frame q P m0 l0 _ s1); [exact Hs1| |exact L2].
      intros b addr. rewrite M2. reflexivity. }
    destruct (Z.lt_ge_cases k 64) as [Hk64|Hk64].
    + rewrite Z.min_l in * by lia.
      replace (Z.min (k + 1) 64) with (k + 1) by lia.
      destruct (Z.lt_ge_cases (bx * 64 + k) (i_n q)) as [Hrow|Hrow].
      * destruct (calc_fast_row q P bx by_ Hrange Hbx P_Yr P_Yw fuel k s2
                    Ha Hnq) as (s3 & E3 & W3 & S3); [lia|lia|].
        exists s3. rewrite E2. split; [exact E3|].
        replace (bx * 64 + (k + 1)) with (bx * 64 + k + 1) by lia.
        eapply (inv_row q P m0 l0 (bx * 64 + k) _ s2 s3);
          [exact Hs2|lia|exact Hincy|exact W3|].
        unfold symv_result. rewrite Ha.
        rewrite (row_value_of_inv _ _ Hs2) by lia. lia.
      * exists s2. rewrite E2. split.
        -- apply (calc_fast_idle q bx by_ Hrange Hbx); [exact Ha|lia|lia].
        -- apply (inv_past q P m0 l0 (bx * 64 + k)); [exact Hs2|lia|lia].
    + rewrite Z.min_r in * by lia.
      replace (Z.min (k + 1) 64) with 64 by lia.
      exists s2. rewrite E2. split; [|exact Hs2].
      apply (calc_fast_idle q bx by_ Hrange Hbx); [exact Ha|lia|lia].
  - lia.
  - lia.
  - replace (bx * 64 + Z.min 0 64) with (bx * 64) by lia. exact Hinv.
  - exists s1. rewrite <- mapM_map in E1.
    rewrite (bind_run _ _ _ _ _ E1). split.
    + apply iterM_idle. intros p Hp. apply in_map_iff in Hp.
      destruct Hp as (k & <- & _). reflexivity.
    + replace ((bx + 1) * 64) with (bx * 64 + Z.min (0 + Z.of_nat 1024) 64)
        by lia.
      exact J1.
Qed.

Lemma partial_at (k i : Z) :
  0 <= k < 64 -> 0 <= i < 16 -> bx * 64 + k < i_n q ->
  symv_partial q m0 bx (k + 64 * i)
  = strided_sum (symv_term q m0 (bx * 64 + k)) i (col_iters (i_n q) i).
Proof.
  intros Hk Hi Hrow. unfold symv_partial.
  replace ((k + 64 * i) mod 64) with k by (Z.div_mod_to_equations; lia).
  replace ((k + 64 * i) / 64) with i by (Z.div_mod_to_equations; lia).
  destruct (Z.ltb_spec (bx * 64 + k) (i_n q)); [reflexivity|lia].
Qed.

(** The workers of a block on the general path: partial sums, barrier,
    reduction and the write of the rows of the tile. *)
Lemma block_full (s : state) :
  i_alpha q <> 0 ->
  symv_inv q P m0 l0 (bx * 64) s ->
  exists s',
    run_block (symv_worker fuel a) (block_contexts symv_threads bx by_ 0) s
    = Some (tt, s')
    /\ symv_inv q P m0 l0 ((bx + 1) * 64) s'.
Proof.
  intros Ha Hinv. unfold run_block. rewrite block_contexts_symv.
  assert (Hnq : ~ quick_return q) by (intros [E _]; contradiction).
  assert (Hb : (i_alpha q =? 0) && (i_beta q =? 1) = false).
  { apply Z.eqb_neq in Ha. rewrite Ha. reflexivity. }
  destruct Hrange as (Hn & Hlda & HA & HX & HY).
  destruct (mapM_range_inv
              (fun k => symv_worker fuel a (symv_ctx bx by_ k))
              (fun k => Barrier (symv_post (symv_ctx bx by_ k) q))
              (fun k s1 =>
                 (forall b addr, mem s1 b addr = mem s b addr)
                 /\ log_ext P s s1
                 /\ forall j, 0 <= j < k ->
                              sdata s1 j = symv_partial q m0 bx j) 1024)
    with (cnt := 1024%nat) (lo := 0) (s := s) as (s1 & E1 & M1 & L1 & S1).
  - intros k s1 Hk (M1 & L1 & S1).
    assert (Hag : forall b addr, b <> BufY -> mem s1 b addr = m0 b addr).
    { intros b addr Hne. rewrite M1. apply (agree_of_inv _ _ Hinv). exact Hne. }
    destruct (kernel_prologue k s1 Hag) as (s2 & M2 & S2 & L2 & E2).
    rewrite Hb in E2.
    destruct (calc_full q P bx by_ Hrange Hbx P_A P_X fuel k s2 Ha Hk Hfuel)
      as (s3 & E3 & M3 & S3 & L3).
    exists s3. rewrite E2. split; [exact E3|]. split; [|split].
    + intros b addr. rewrite M3, M2. apply M1.
    + eapply log_ext_trans; [exact L1|].
      eapply log_ext_trans; [exact L2|exact L3].
    + intros j Hj. rewrite S3. destruct (Z.eqb_spec k j) as [->|Hne].
      * apply symv_partial_ext. intros b addr Hne. rewrite M2.
        apply Hag. exact Hne.
      * rewrite S2. apply S1. lia.
  - lia.
  - lia.
  - split; [reflexivity|]. split; [apply log_ext_refl|]. intros j Hj. lia.
  - rewrite <- mapM_map in E1. rewrite (bind_run _ _ _ _ _ E1).
    rewrite iterM_map.
    assert (Hs1 : symv_inv q P m0 l0 (bx * 64) s1).
    { apply (inv_frame q P m0 l0 _ s); assumption. }
    destruct (iterM_range_inv
                (fun k => symv_post (symv_ctx bx by_ k) q)
                (fun k s2 =>
                   symv_inv q P m0 l0 (bx * 64 + Z.min k 64) s2
                   /\ forall j, k <= j < 1024 ->
                                sdata s2 j = symv_partial q m0 bx j) 1024)
      with (cnt := 1024%nat) (lo := 0) (s := s1) as (s2 & E2 & J2 & _).
    + intros k s2 Hk (Hs2 & Sd2).
      destruct (Z.lt_ge_cases k 64) as [Hk64|Hk64].
      * rewrite Z.min_l in * by lia.
        replace (Z.min (k + 1) 64) with (k + 1) by lia.
        destruct (Z.lt_ge_cases (bx * 64 + k) (i_n q)) as [Hrow|Hrow].
        -- destruct (post_row q P bx by_
                       (conj Hn (conj Hlda (conj HA (conj HX HY))))
                       Hbx P_Yr P_Yw k s2 Ha)
             as (s3 & E3 & W3 & S3); [lia|lia|].
           exists s3. split; [exact E3|]. split.
           ++ replace (bx * 64 + (k + 1)) with (bx * 64 + k + 1) by lia.
              eapply (inv_row q P m0 l0 (bx * 64 + k) _ s2 s3);
                [exact Hs2|lia|exact Hincy|exact W3|].
              unfold symv_result.
              rewrite (row_value_of_inv _ _ Hs2) by lia.
              f_equal. f_equal. unfold symv_dot.
              rewrite <- (partial_sums_total _ _ Hn).
              apply fold_right_ext_in. intros i acc Hi.
              apply in_zrange in Hi.
              rewrite Sd2 by lia.
              rewrite partial_at by lia. reflexivity.
           ++ intros j Hj. rewrite S3 by lia. apply Sd2. lia.
        -- exists s2. split; [|split].
           ++ apply (post_idle q bx by_
                       (conj Hn (conj Hlda (conj HA (conj HX HY)))) Hbx);
                lia.
           ++ apply (inv_past q P m0 l0 (bx * 64 + k)); [exact Hs2|lia|lia].
           ++ intros j Hj. apply Sd2. lia.
      * rewrite Z.min_r in * by lia.
        replace (Z.min (k + 1) 64) with 64 by lia.
        exists s2. split; [|split].
        -- apply (post_idle q bx by_
                    (conj Hn (conj Hlda (conj HA (conj HX HY)))) Hbx);
             lia.
        -- exact Hs2.
        -- intros j Hj. apply Sd2. lia.
    + lia.
    + lia.
    + split.
      * replace (bx * 64 + Z.min 0 64) with (bx * 64) by lia. exact Hs1.
      * intros j Hj. apply S1. lia.
    + exists s2. split; [exact E2|].
      replace ((bx + 1) * 64) with (bx * 64 + Z.min (0 + Z.of_nat 1024) 64)
        by lia.
      exact J2.
Qed.

(** One block of a batch instance takes the rows below its tile to the
    rows below the next tile. *)
Lemma block_spec (s : state) :
  symv_inv q P m0 l0 (bx * 64) s ->
  exists s',
    run_block (symv_worker fuel a) (block_contexts symv_threads bx by_ 0) s
    = Some (tt, s')
    /\ symv_inv q P m0 l0 ((bx + 1) * 64) s'.
Proof.
  intros Hinv.
  destruct (Z.eq_dec (i_alpha q) 0) as [Ha|Ha].
  - destruct (Z.eq_dec (i_beta q) 1) as [Hb|Hb].
    + apply block_quick; [split; assumption|exact Hinv].
    + apply block_fast; [exact Ha| |exact Hinv].
      intros [_ E]. contradiction.
  - apply block_full; assumption.
Qed.

End SymvBlock.

Lemma symv_instance_ext (a : symv_launch) (m m' : memory) (idx : Z) :
  (forall b addr, b <> BufY -> m b addr = m' b addr) ->
  symv_instance a m idx = symv_instance a m' idx.
Proof.
  intros H. unfold symv_instance.
  assert (Ea : resolve_scalar m BufAlpha (l_alpha a) idx (l_stride_alpha a)
               = resolve_scalar m' BufAlpha (l_alpha a) idx (l_stride_alpha a)).
  { unfold resolve_scalar. destruct (l_alpha a); [reflexivity|].
    apply H. discriminate. }
  assert (Eb : resolve_scalar m BufBeta (l_beta a) idx (l_stride_beta a)
               = resolve_scalar m' BufBeta (l_beta a) idx (l_stride_beta a)).
  { unfold resolve_scalar. destruct (l_beta a); [reflexivity|].
    apply H. discriminate. }
  cbv zeta. rewrite Ea, Eb. reflexivity.
Qed.

(** One batch instance: the blocks of its slice of the grid give every
    row of [y] its result. *)
Lemma symv_instance_spec (a : symv_launch) (fuel : nat) (by_ : Z) (s : state) :
  symv_range_ok (l_n a) (l_lda a) (l_incx a) (l_incy a) ->
  1 <= l_n a -> l_incy a <> 0 ->
  (Z.to_nat (l_n a) < fuel)%nat ->
  exists s',
    iterM (fun bx => run_block (symv_worker fuel a)
                               (block_contexts symv_threads bx by_ 0))
          (zrange 0 (Z.to_nat (symv_blocks (l_n a)))) s
    = Some (tt, s')
    /\ symv_inv (symv_instance a (mem s) by_)
                (symv_launch_event_ok a (mem s) by_)
                (mem s) (log s) (l_n a) s'.
Proof.
  intros Hrange Hn Hincy Hfuel.
  set (q := symv_instance a (mem s) by_).
  set (P := symv_launch_event_ok a (mem s) by_).
  assert (Hblocks : 0 <= symv_blocks (l_n a)
                    /\ (symv_blocks (l_n a) - 1) * 64 < l_n a
                    /\ l_n a <= symv_blocks (l_n a) * 64).
  { unfold symv_blocks. Z.div_mod_to_equations. lia. }
  destruct (iterM_range_inv
              (fun bx => run_block (symv_worker fuel a)
                                   (block_contexts symv_threads bx by_ 0))
              (fun bx s1 => symv_inv q P (mem s) (log s) (bx * 64) s1)
              (symv_blocks (l_n a)))
    with (cnt := Z.to_nat (symv_blocks (l_n a))) (lo := 0) (s := s)
    as (s' & E & J).
  - intros bx s1 Hbx Hs1.
    apply (block_spec a (mem s) (log s) by_ fuel P q); try assumption.
    + reflexivity.
    + intros i j Ha Hi Hj Ht. split; [exact Ha|]. exists i, j. auto.
    + intros c Ha Hc. split; [exact Ha|]. exists c. auto.
    + intros r Hb Hq Hr. split; [exact Hb|]. split; [exact Hq|].
      exists r. auto.
    + intros r Hq Hr. split; [exact Hq|]. exists r. auto.
    + intros p Hp. unfold P, symv_launch_event_ok, symv_event_ok.
      rewrite Hp. reflexivity.
    + intros p Hp. unfold P, symv_launch_event_ok, symv_event_ok.
      rewrite Hp. reflexivity.
    + change (i_n q) with (l_n a). nia.
  - lia.
  - rewrite Z2Nat.id by lia. lia.
  - apply inv_init; reflexivity.
  - exists s'. split; [exact E|].
    apply (inv_past q P (mem s) (log s)
             ((0 + Z.of_nat (Z.to_nat (symv_blocks (l_n a)))) * 64));
      [exact J| |].
    + rewrite Z2Nat.id by lia. change (i_n q) with (l_n a). lia.
    + change (i_n q) with (l_n a). lia.
Qed.

(** A launch runs the batch instances one after the other, and each
    instance its blocks. *)
Lemma launch_by_instance (kernel : tctx -> M progress)
      (blocks batch_count : Z) (threads : dim3) (s : state) :
  hipLaunchKernelGGL kernel (mkDim3 blocks batch_count 1) threads s
  = iterM (fun by_ =>
             iterM (fun bx => run_block kernel
                                        (block_contexts threads bx by_ 0))
                   (zrange 0 (Z.to_nat blocks)))
          (zrange 0 (Z.to_nat batch_count)) s.
Proof.
  unfold hipLaunchKernelGGL, grid_blocks.
  cbn [dim_x dim_y dim_z]. change (Z.to_nat 1) with 1%nat.
  cbn [zrange flat_map]. rewrite app_nil_r.
  rewrite iterM_flat_map. apply iterM_ext. intros by_ s' _.
  rewrite iterM_map. reflexivity.
Qed.

(* ================================================================== *)
(** * A launch of [symv_kernel] *)

Lemma symv_result_ext (q : symv_inst) (m m' : memory) (r : Z) :
  (forall b addr, b <> BufY -> m b addr = m' b addr) ->
  m BufY (yaddr q r) = m' BufY (yaddr q r) ->
  symv_result q m r = symv_result q m' r.
Proof.
  intros H Hy. unfold symv_result. rewrite Hy.
  rewrite (symv_dot_ext q m m' r H). reflexivity.
Qed.

Lemma symv_launch_spec (a : symv_launch) (fuel : nat)
      (batch_count : Z) (s : state) :
  symv_range_ok (l_n a) (l_lda a) (l_incx a) (l_incy a) ->
  1 <= l_n a -> l_incy a <> 0 ->
  (Z.to_nat (l_n a) < fuel)%nat ->
  0 <= batch_count ->
  batch_disjoint (l_ya a) (l_shifty a) (l_incy a) (l_stridey a)
                 (l_n a) batch_count ->
  exists s',
    hipLaunchKernelGGL (symv_worker fuel a)
      (mkDim3 (symv_blocks (l_n a)) batch_count 1) symv_threads s
    = Some (tt, s')
    /\ symv_batch_inv a batch_count (mem s) (log s) batch_count s'.
Proof.
  intros Hrange Hn Hincy Hfuel Hbc Hdisj.
  rewrite launch_by_instance.
  destruct (iterM_range_inv
              (fun by_ =>
                 iterM (fun bx => run_block (symv_worker fuel a)
                                    (block_contexts symv_threads bx by_ 0))
                       (zrange 0 (Z.to_nat (symv_blocks (l_n a)))))
              (fun k s1 => symv_batch_inv a batch_count (mem s) (log s) k s1)
              batch_count)
    with (cnt := Z.to_nat batch_count) (lo := 0) (s := s)
    as (s' & E & J).
  - intros k s1 Hk (B1 & B2 & B3 & (evs & El & Fl & Il)).
    destruct (symv_instance_spec a fuel k s1 Hrange Hn Hincy Hfuel)
      as (s2 & E2 & I2).
    rewrite (symv_instance_ext a (mem s1) (mem s) k B1) in I2.
    unfold symv_launch_event_ok in I2.
    rewrite (symv_instance_ext a (mem s1) (mem s) k B1) in I2.
    fold (symv_launch_event_ok a (mem s) k) in I2.
    destruct I2 as (I1 & I2 & I3 & (ev2 & El2 & Fl2 & Il2)).
    cbn [symv_instance i_n] in I2, I3, Il2.
    exists s2. split; [exact E2|].
    assert (Hother : forall b r, 0 <= b < batch_count -> 0 <= r < l_n a ->
              b <> k ->
              mem s2 BufY (yaddr (symv_instance a (mem s) b) r)
              = mem s1 BufY (yaddr (symv_instance a (mem s) b) r)).
    { intros b r Hb Hr Hne. apply I2. intros r' Hr'.
      unfold yaddr. cbn [symv_instance i_y i_incy].
      apply Hdisj; assumption. }
    unfold symv_batch_inv. split; [|split; [|split]].
    + intros b addr Hne. rewrite (I1 b addr Hne). apply B1. exact Hne.
    + intros addr Haddr. rewrite I2.
      * apply B2. exact Haddr.
      * intros r Hr. apply Haddr; assumption.
    + intros b r Hb Hr. destruct (Z.eq_dec b k) as [->|Hne].
      * rewrite (I3 r Hr).
        destruct (Z.ltb_spec r (l_n a)); [|lia].
        destruct (Z.ltb_spec k (k + 1)); [|lia].
        apply symv_result_ext; [exact B1|].
        rewrite (B3 k r Hk Hr).
        destruct (Z.ltb_spec k k); [lia|reflexivity].
      * rewrite (Hother b r Hb Hr Hne). rewrite (B3 b r Hb Hr).
        destruct (Z.ltb_spec b k), (Z.ltb_spec b (k + 1));
          try reflexivity; lia.
    + exists (ev2 ++ evs). split; [|split].
      * rewrite El2, El. apply app_assoc.
      * apply Forall_app. split; [|exact Fl].
        eapply Forall_impl; [|exact Fl2].
        intros e He. exists k. split; assumption.
      * intros b r Hb Hbk Hr Hnq. destruct (Z.eq_dec b k) as [->|Hne].
        -- destruct (Il2 r Hr) as (Hw & Hrd); [lia|exact Hnq|]. split.
           ++ apply in_or_app. left. exact Hw.
           ++ intros Hbeta. apply in_or_app. left. apply Hrd. exact Hbeta.
        -- destruct (Il b r Hb) as (Hw & Hrd); [lia|exact Hr|exact Hnq|].
           split.
           ++ apply in_or_app. right. exact Hw.
           ++ intros Hbeta. apply in_or_app. right. apply Hrd. exact Hbeta.
  - lia.
  - rewrite Z2Nat.id by lia. lia.
  - unfold symv_batch_inv. repeat split.
    + intros b r Hb Hr. destruct (Z.ltb_spec b 0); [lia|reflexivity].
    + exists []. repeat split; try constructor; lia.
  - exists s'. split; [exact E|].
    rewrite Z2Nat.id in J by lia. exact J.
Qed.

(* ================================================================== *)
(** * The symv dispatcher *)

Lemma symv_blocks_int (n : Z) :
  1 <= n <= INT_MAX ->
  to_uint (to_int (Z.quot (to_int (n - 1)) symv_DIM_X + 1)) = symv_blocks n.
Proof.
  unfold INT_MAX, symv_DIM_X, symv_blocks. intros H.
  rewrite (to_int_id (n - 1)) by (unfold INT_MAX; lia).
  rewrite Z.quot_div_nonneg by lia.
  assert (0 <= (n - 1) / 64 <= n - 1) by (Z.div_mod_to_equations; lia).
  rewrite to_int_id by (unfold INT_MAX; lia).
  apply to_uint_id. lia.
Qed.

(** The state of a launch none of whose instances has anything to do. *)
Lemma batch_inv_idle (a : symv_launch) (batch_count : Z) (s : state) :
  (forall b, 0 <= b < batch_count -> 0 < l_n a ->
             quick_return (symv_instance a (mem s) b)) ->
  symv_batch_inv a batch_count (mem s) (log s) batch_count s.
Proof.
  intros H. unfold symv_batch_inv. repeat split.
  - intros b r Hb Hr. destruct (b <? batch_count); [|reflexivity].
    destruct (H b Hb) as (Ea & Eb); [lia|].
    unfold symv_result. rewrite Ea, Eb. lia.
  - exists []. repeat split; try constructor;
      exfalso; match goal with Hq : ~ quick_return _ |- _ => apply Hq end;
      apply H; lia.
Qed.

Section SymvTemplate.

Variables (fuel : nat) (handle : rocblas_handle) (uplo : rocblas_fill).
Variables (n alpha stride_alpha : Z).
Variables (A : batch_ptr) (offseta lda strideA : Z).
Variables (x : batch_ptr) (offsetx incx stridex : Z).
Variables (beta stride_beta : Z).
Variables (y : batch_ptr) (offsety incy stridey : Z).
Variable batch_count : Z.

Hypothesis Hrange : symv_range_ok n lda incx incy.
Hypothesis Hincy : incy <> 0.
Hypothesis Hbc : 0 <= batch_count <= INT_MAX.
Hypothesis Hfuel : (Z.to_nat n < fuel)%nat.
Hypothesis Hdisj :
  batch_disjoint y (vector_shift offsety incy n) incy stridey n batch_count.

(** What a call of the dispatcher does: it answers [success]; the host
    reads the scalars at most; then every batch instance is done. *)
Lemma symv_template_spec (s : state) :
  exists s1 s',
    rocblas_internal_symv_template fuel handle uplo n alpha stride_alpha
      A offseta lda strideA x offsetx incx stridex beta stride_beta
      y offsety incy stridey batch_count s
    = Some (rocblas_status_success, s')
    /\ mem s1 = mem s
    /\ log_ext (host_scalar_read alpha beta) s s1
    /\ symv_batch_inv
         (symv_call_launch handle (mem s) uplo n alpha stride_alpha
            A offseta lda strideA x offsetx incx stridex beta stride_beta
            y offsety incy stridey)
         batch_count (mem s) (log s1) batch_count s'.
Proof.
  destruct Hrange as (Hn & Hlda & HA & HX & HY).
  pose proof (range_n_small _ _ Hn Hlda HA) as Hsmall.
  unfold rocblas_internal_symv_template.
  destruct (Z.eqb_spec n 0) as [En|En].
  { exists s, s. cbn [orb]. split; [reflexivity|]. split; [reflexivity|].
    split; [apply log_ext_refl|].
    apply batch_inv_idle. intros b _ Hpos.
    cbn [symv_call_launch l_n] in Hpos. lia. }
  destruct (Z.eqb_spec batch_count 0) as [Eb|Eb].
  { exists s, s. cbn [orb]. split; [reflexivity|]. split; [reflexivity|].
    split; [apply log_ext_refl|].
    apply batch_inv_idle. intros b Hb. lia. }
  cbn [orb]. cbv zeta.
  rewrite (symv_blocks_int n) by (unfold INT_MAX; lia).
  rewrite (to_uint_id batch_count) by (unfold INT_MAX in Hbc; lia).
  fold (vector_shift offsetx incx n). fold (vector_shift offsety incy n).
  destruct (pointer_mode handle) eqn:Emode; cbn [pointer_mode_eqb].
  - (* host-resident scalars *)
    destruct (Z.eqb_spec batch_count 1) as [E1|E1].
    + unfold bind at 1. unfold bind at 1. unfold load at 1.
      cbn [mem sdata log].
      destruct (Z.eqb_spec (mem s BufAlpha alpha) 0) as [Ea0|Ea0].
      * unfold bind at 1. unfold load at 1. cbn [mem sdata log].
        unfold ret at 1.
        destruct (Z.eqb_spec (mem s BufBeta beta) 1) as [Eb1|Eb1].
        -- exists (mkState (mem s) (sdata s)
                     (Rd BufBeta beta :: Rd BufAlpha alpha :: log s)),
                  (mkState (mem s) (sdata s)
                     (Rd BufBeta beta :: Rd BufAlpha alpha :: log s)).
           split; [reflexivity|]. cbn [mem sdata log].
           split; [reflexivity|]. split.
           ++ exists [Rd BufBeta beta; Rd BufAlpha alpha].
              split; [reflexivity|].
              constructor; [right; reflexivity|].
              constructor; [left; reflexivity|constructor].
           ++ apply (batch_inv_idle _ batch_count
                       (mkState (mem s) (sdata s)
                          (Rd BufBeta beta :: Rd BufAlpha alpha :: log s))).
              intros b _ _. unfold quick_return.
              cbn [symv_instance symv_call_launch i_alpha i_beta l_alpha
                   l_beta l_stride_alpha l_stride_beta mem].
              unfold scalar_of_mode. rewrite Emode.
              cbn [resolve_scalar]. split; assumption.
        -- unfold bind at 1. unfold load at 1. cbn [mem sdata log].
           unfold bind at 1. unfold load at 1. cbn [mem sdata log].
           match goal with
           | |- context [bind (hipLaunchKernelGGL _ _ _) _ ?s1] =>
               destruct (symv_launch_spec
                           (symv_call_launch handle (mem s) uplo n alpha
                              stride_alpha A offseta lda strideA x offsetx
                              incx stridex beta stride_beta y offsety incy
                              stridey)
                           fuel batch_count s1) as (s' & E & J);
                 [repeat split; assumption|cbn [symv_call_launch l_n]; lia
                 |exact Hincy|exact Hfuel|lia|exact Hdisj|];
                 exists s1, s'
           end.
           unfold symv_call_launch, scalar_of_mode, symv_worker in E.
           rewrite Emode in E. cbn [l_upper l_n l_alpha l_stride_alpha l_Aa
             l_shifta l_lda l_strideA l_xa l_shiftx l_incx l_stridex l_beta
             l_stride_beta l_ya l_shifty l_incy l_stridey mem] in E.
           rewrite (bind_run _ _ _ _ _ E).
           split; [reflexivity|]. cbn [mem sdata log] in *.
           split; [reflexivity|]. split; [|exact J].
           exists [Rd BufBeta beta; Rd BufAlpha alpha;
                   Rd BufBeta beta; Rd BufAlpha alpha].
           split; [reflexivity|].
           repeat (constructor; [(left; reflexivity) || (right; reflexivity)|]).
           constructor.
      * unfold ret at 1.
        unfold bind at 1. unfold load at 1. cbn [mem sdata log].
        unfold bind at 1. unfold load at 1. cbn [mem sdata log].
        match goal with
        | |- context [bind (hipLaunchKernelGGL _ _ _) _ ?s1] =>
            destruct (symv_launch_spec
                        (symv_call_launch handle (mem s) uplo n alpha
                           stride_alpha A offseta lda strideA x offsetx
                           incx stridex beta stride_beta y offsety incy
                           stridey)
                        fuel batch_count s1) as (s' & E & J);
              [repeat split; assumption|cbn [symv_call_launch l_n]; lia
              |exact Hincy|exact Hfuel|lia|exact Hdisj|];
              exists s1, s'
        end.
        unfold symv_call_launch, scalar_of_mode, symv_worker in E.
        rewrite Emode in E. cbn [l_upper l_n l_alpha l_stride_alpha l_Aa
          l_shifta l_lda l_strideA l_xa l_shiftx l_incx l_stridex l_beta
          l_stride_beta l_ya l_shifty l_incy l_stridey mem] in E.
        rewrite (bind_run _ _ _ _ _ E).
        split; [reflexivity|]. cbn [mem sdata log] in *.
        split; [reflexivity|]. split; [|exact J].
        exists [Rd BufBeta beta; Rd BufAlpha alpha; Rd BufAlpha alpha].
        split; [reflexivity|].
        repeat (constructor; [(left; reflexivity) || (right; reflexivity)|]).
        constructor.
    + unfold bind at 1. unfold ret at 1.
      unfold bind at 1. unfold load at 1. cbn [mem sdata log].
      unfold bind at 1. unfold load at 1. cbn [mem sdata log].
      match goal with
      | |- context [bind (hipLaunchKernelGGL _ _ _) _ ?s1] =>
          destruct (symv_launch_spec
                      (symv_call_launch handle (mem s) uplo n alpha
                         stride_alpha A offseta lda strideA x offsetx
                         incx stridex beta stride_beta y offsety incy
                         stridey)
                      fuel batch_count s1) as (s' & E & J);
            [repeat split; assumption|cbn [symv_call_launch l_n]; lia
            |exact Hincy|exact Hfuel|lia|exact Hdisj|];
            exists s1, s'
      end.
      unfold symv_call_launch, scalar_of_mode, symv_worker in E.
      rewrite Emode in E. cbn [l_upper l_n l_alpha l_stride_alpha l_Aa
        l_shifta l_lda l_strideA l_xa l_shiftx l_incx l_stridex l_beta
        l_stride_beta l_ya l_shifty l_incy l_stridey mem] in E.
      rewrite (bind_run _ _ _ _ _ E).
      split; [reflexivity|]. cbn [mem sdata log] in *.
      split; [reflexivity|]. split; [|exact J].
      exists [Rd BufBeta beta; Rd BufAlpha alpha].
      split; [reflexivity|].
      repeat (constructor; [(left; reflexivity) || (right; reflexivity)|]).
      constructor.
  - (* device-resident scalars *)
    destruct (symv_launch_spec
                (symv_call_launch handle (mem s) uplo n alpha
                   stride_alpha A offseta lda strideA x offsetx
                   incx stridex beta stride_beta y offsety incy stridey)
                fuel batch_count s) as (s' & E & J);
      [repeat split; assumption|cbn [symv_call_launch l_n]; lia
      |exact Hincy|exact Hfuel|lia|exact Hdisj|].
    exists s, s'.
    unfold symv_call_launch, scalar_of_mode, symv_worker in E.
    rewrite Emode in E. cbn [l_upper l_n l_alpha l_stride_alpha l_Aa
      l_shifta l_lda l_strideA l_xa l_shiftx l_incx l_stridex l_beta
      l_stride_beta l_ya l_shifty l_incy l_stridey mem] in E.
    rewrite (bind_run _ _ _ _ _ E).
    split; [reflexivity|]. split; [reflexivity|].
    split; [apply log_ext_refl|exact J].
Qed.

End SymvTemplate.






(* ================================================================== *)
(** * One batch instance: bounds, the [alpha = 0] path, the reads of y *)

Lemma event_ok_in_bounds (a : symv_launch) (m : memory) (idx : Z) (e : event) :
  symv_launch_event_ok a m idx e -> symv_in_bounds a idx e.
Proof.
  unfold symv_launch_event_ok, symv_event_ok, symv_in_bounds.
  destruct e as [b addr|b addr]; destruct b; try tauto.
  - cbn [symv_instance i_alpha i_n i_upper i_A i_lda].
    intros (Ha & i & j & Hi & Hj & Ht & ->).
    exists i, j. repeat split; try tauto.
    unfold call_A. apply Z.eqb_neq in Ha. rewrite Ha. reflexivity.
  - cbn [symv_instance i_alpha i_n]. unfold xaddr, call_x.
    cbn [symv_instance i_x i_incx].
    intros (Ha & c & Hc & ->). exists c. split; [exact Hc|].
    apply Z.eqb_neq in Ha. rewrite Ha. reflexivity.
Qed.















(* ================================================================== *)
(** * The workers of syr *)

Lemma sum_deltas_app (a : syr_launch) (m : memory) (l1 l2 : list tctx) :
  sum_deltas a m (l1 ++ l2) = sum_deltas a m l1 + sum_deltas a m l2.
Proof.
  unfold sum_deltas. induction l1 as [|c l1 IH]; cbn [app fold_right]; lia.
Qed.

Lemma syr_hits_snoc (a : syr_launch) (m : memory) (l : list tctx)
      (c : tctx) (addr : Z) :
  syr_hits a m (l ++ [c]) addr
  = syr_hits a m l addr
    ++ (if syr_active a m c && (syr_target a c =? addr) then [c] else []).
Proof. unfold syr_hits. rewrite filter_app. reflexivity. Qed.

Lemma syr_hits_app (a : syr_launch) (m : memory) (l1 l2 : list tctx)
      (addr : Z) :
  syr_hits a m (l1 ++ l2) addr = syr_hits a m l1 addr ++ syr_hits a m l2 addr.
Proof. unfold syr_hits. apply filter_app. Qed.

Lemma syr_on_triangle_bounds (uplo : rocblas_fill) (n i j : Z) :
  0 <= i -> 0 <= j -> syr_on_triangle uplo n i j = true ->
  0 <= i < n /\ 0 <= j < n.
Proof.
  unfold syr_on_triangle. intros Hi Hj.
  destruct (fill_eqb uplo rocblas_fill_lower);
    rewrite andb_true_iff, Z.ltb_lt, Z.leb_le; lia.
Qed.

Lemma writes_at_app (addr : Z) (l1 l2 : list event) :
  writes_at addr (l1 ++ l2) = (writes_at addr l1 + writes_at addr l2)%nat.
Proof. unfold writes_at. rewrite filter_app. apply length_app. Qed.

Section SyrWorker.

Variable a : syr_launch.
Variable batch_count : Z.
Variable m0 : memory.
Variable l0 : list event.

Hypothesis Hrange : syr_range_ok (s_n a) (s_lda a) (s_incx a).

(** One worker keeps the invariant of the launch. *)
Lemma syr_worker_step (done : list tctx) (c : tctx) (s : state) :
  0 <= worker_i c <= INT_MAX -> 0 <= worker_j c <= INT_MAX ->
  0 <= hipBlockIdx_z c < batch_count ->
  syr_inv a batch_count m0 l0 done s ->
  exists s',
    syr_worker a c s = Some (Returned, s')
    /\ syr_inv a batch_count m0 l0 (done ++ [c]) s'.
Proof.
  intros Hi Hj Hb (I1 & I2 & (evs & El & Fl & Wl)).
  destruct Hrange as (Hn & Hlda & HA & HX).
  unfold syr_worker, rocblas_syr_kernel.
  assert (Hres : forall s1, mem s1 = mem s ->
            resolve_scalar (mem s1) BufAlpha (s_alpha a) (hipBlockIdx_z c)
                           (s_stride_alpha a)
            = syr_alpha a m0 (hipBlockIdx_z c)).
  { intros s1 E1. unfold syr_alpha, resolve_scalar. rewrite E1.
    destruct (s_alpha a); [reflexivity|]. apply I1. discriminate. }
  destruct (load_scalar_spec (syr_event_live a m0 batch_count) BufAlpha
              (s_alpha a) (hipBlockIdx_z c) (s_stride_alpha a) s)
    as (s1 & E1 & M1 & S1 & (ev1 & L1 & F1)).
  { intros p Hp. exists (hipBlockIdx_z c). split; [exact Hb|].
    unfold scalar_event_ok. rewrite Hp. reflexivity. }
  assert (W1 : forall addr, writes_at addr ev1 = O).
  { intros addr. clear - E1 L1.
    unfold load_scalar in E1. destruct (s_alpha a).
    - assert (Es : s1 = s) by (unfold ret in E1; congruence). subst s1.
      assert (ev1 = []) as ->.
      { apply (app_inv_tail (log s)). symmetry. exact L1. }
      reflexivity.
    - assert (Es : s1 = mkState (mem s) (sdata s)
                       (Rd BufAlpha (p + hipBlockIdx_z c * s_stride_alpha a)
                        :: log s))
        by (unfold load in E1; congruence).
      subst s1. cbn [log] in L1.
      assert (ev1 = [Rd BufAlpha (p + hipBlockIdx_z c * s_stride_alpha a)])
        as ->.
      { apply (app_inv_tail (log s)). symmetry. exact L1. }
      reflexivity. }
  rewrite (bind_run _ _ _ _ _ E1). rewrite (Hres s (eq_refl)).
  fold (worker_i c). fold (worker_j c).
  rewrite (to_int_id (worker_i c)) by lia.
  rewrite (to_int_id (worker_j c)) by lia.
  unfold syr_hits in *. 
  assert (Hframe : syr_active a m0 c = false ->
            syr_inv a batch_count m0 l0 (done ++ [c]) s1).
  { intros Hact. unfold syr_inv, syr_hits. split; [|split].
    - intros b addr Hne. rewrite M1. apply I1. exact Hne.
    - intros addr. rewrite M1, I2. rewrite filter_app. cbn [filter].
      rewrite Hact. cbn [andb]. rewrite app_nil_r. reflexivity.
    - exists (ev1 ++ evs). split; [|split].
      + rewrite L1, El. apply app_assoc.
      + apply Forall_app. split; assumption.
      + intros addr. rewrite writes_at_app, W1, Wl.
        rewrite filter_app. cbn [filter]. rewrite Hact. cbn [andb].
        rewrite app_nil_r. reflexivity. }
  destruct (Z.eqb_spec (syr_alpha a m0 (hipBlockIdx_z c)) 0) as [Ea|Ea].
  { exists s1. split; [reflexivity|]. apply Hframe.
    unfold syr_active. rewrite Ea. reflexivity. }
  fold (syr_on_triangle (s_uplo a) (s_n a) (worker_i c) (worker_j c)).
  destruct (syr_on_triangle (s_uplo a) (s_n a) (worker_i c) (worker_j c))
    eqn:Etri.
  2:{ exists s1. split; [reflexivity|]. apply Hframe.
      unfold syr_active. rewrite Etri. apply andb_false_r. }
  destruct (syr_on_triangle_bounds _ _ _ _ (proj1 Hi) (proj1 Hj) Etri)
    as (Hin & Hjn).
  rewrite (to_int_vector (s_n a) (s_incx a) (worker_i c)) by assumption.
  rewrite (to_int_vector (s_n a) (s_incx a) (worker_j c)) by assumption.
  replace (s_lda a * worker_j c) with (worker_j c * s_lda a) by lia.
  rewrite (to_int_matrix (s_n a) (s_lda a) (worker_i c) (worker_j c))
    by assumption.
  replace (worker_j c * s_lda a) with (s_lda a * worker_j c) by lia.
  fold (syr_x a (hipBlockIdx_z c) (worker_i c)).
  fold (syr_x a (hipBlockIdx_z c) (worker_j c)).
  fold (syr_A a (hipBlockIdx_z c) (worker_i c) (worker_j c)).
  fold (syr_target a c).
  assert (Hact : syr_active a m0 c = true).
  { unfold syr_active. rewrite Etri. apply Z.eqb_neq in Ea. rewrite Ea.
    reflexivity. }
  unfold bind, load, store, ret. cbn [mem sdata log].
  eexists. split; [reflexivity|].
  unfold syr_inv, syr_hits. cbn [mem sdata log]. split; [|split].
  - intros b addr Hne. rewrite upd_other_buffer
      by (intros Eb; apply Hne; symmetry; exact Eb).
    rewrite M1. apply I1. exact Hne.
  - intros addr. rewrite filter_app. cbn [filter]. rewrite Hact. cbn [andb].
    rewrite sum_deltas_app.
    destruct (Z.eqb_spec (syr_target a c) addr) as [<-|Hne].
    + rewrite upd_same. rewrite M1, I2.
      rewrite !(I1 BufX) by discriminate.
      change (sum_deltas a m0 [c]) with (syr_delta a m0 c + 0).
      unfold syr_delta. lia.
    + rewrite upd_other_addr by exact Hne. rewrite M1, I2.
      change (sum_deltas a m0 []) with 0. lia.
  - exists ([Wr BufA (syr_target a c); Rd BufA (syr_target a c);
             Rd BufX (syr_x a (hipBlockIdx_z c) (worker_j c));
             Rd BufX (syr_x a (hipBlockIdx_z c) (worker_i c))]
            ++ ev1 ++ evs).
    split; [|split].
    + rewrite L1, El. cbn [app]. rewrite app_assoc. reflexivity.
    + apply Forall_app. split; [|apply Forall_app; split; assumption].
      assert (HokA : exists b i j, 0 <= b < batch_count /\ 0 <= i /\ 0 <= j
                 /\ syr_alpha a m0 b <> 0
                 /\ syr_on_triangle (s_uplo a) (s_n a) i j = true
                 /\ syr_target a c = syr_A a b i j).
      { exists (hipBlockIdx_z c), (worker_i c), (worker_j c).
        repeat split; try lia; try assumption. }
      constructor; [exact HokA|]. constructor; [exact HokA|].
      constructor.
      { exists (hipBlockIdx_z c), (worker_j c).
        repeat split; try lia; assumption. }
      constructor; [|constructor].
      exists (hipBlockIdx_z c), (worker_i c).
      repeat split; try lia; assumption.
    + intros addr. rewrite !writes_at_app, W1, Wl.
      rewrite filter_app, length_app. cbn [filter]. rewrite Hact. cbn [andb].
      unfold writes_at. cbn [filter event_eqb buffer_eqb andb].
      rewrite (Z.eqb_sym addr (syr_target a c)).
      destruct (syr_target a c =? addr); cbn [Datatypes.length]; lia.
Qed.

End SyrWorker.

(* ================================================================== *)
(** * The workers of a launch *)

Lemma NoDup_zrange (k : nat) (lo : Z) : NoDup (zrange lo k).
Proof.
  revert lo. induction k as [|k IH]; intros lo; cbn [zrange]; constructor.
  - rewrite in_zrange. lia.
  - apply IH.
Qed.

Lemma NoDup_map_key {X Y} (h : X -> Y) (key : Y -> X) (l : list X) :
  (forall x, key (h x) = x) -> NoDup l -> NoDup (map h l).
Proof.
  intros Hk Hl. induction Hl as [|x l Hx Hl IH]; cbn [map]; constructor.
  - intros Hin. apply in_map_iff in Hin. destruct Hin as (x' & E & Hx').
    apply Hx. replace x with x'; [exact Hx'|].
    rewrite <- (Hk x'), <- (Hk x). rewrite E. reflexivity.
  - exact IH.
Qed.

Lemma NoDup_flat_map_key {X Y} (g : X -> list Y) (key : Y -> X) (l : list X) :
  NoDup l ->
  (forall x, In x l -> NoDup (g x)) ->
  (forall x y, In x l -> In y (g x) -> key y = x) ->
  NoDup (flat_map g l).
Proof.
  intros Hl. induction Hl as [|x l Hx Hl IH]; intros Hg Hk; cbn [flat_map].
  - constructor.
  - apply NoDup_app.
    + apply Hg. left. reflexivity.
    + apply IH.
      * intros x' Hx'. apply Hg. right. exact Hx'.
      * intros x' y Hx' Hy. apply Hk; [right; exact Hx'|exact Hy].
    + intros y Hy Hy'. apply in_flat_map in Hy'.
      destruct Hy' as (x' & Hx' & Hy').
      apply Hx. replace x with x'; [exact Hx'|].
      rewrite <- (Hk x' y (or_intror Hx') Hy').
      apply (Hk x y (or_introl eq_refl) Hy).
Qed.

Lemma in_grid_blocks (grid : dim3) (bx by_ bz : Z) :
  In (bx, by_, bz) (grid_blocks grid) <->
  0 <= bx < dim_x grid /\ 0 <= by_ < dim_y grid /\ 0 <= bz < dim_z grid.
Proof.
  unfold grid_blocks. rewrite in_flat_map. split.
  - intros (z & Hz & H). apply in_flat_map in H. destruct H as (y' & Hy & H).
    apply in_map_iff in H. destruct H as (x' & E & Hx).
    injection E as <- <- <-. apply in_zrange in Hx, Hy, Hz. lia.
  - intros (Hx & Hy & Hz). exists bz. split; [apply in_zrange; lia|].
    apply in_flat_map. exists by_. split; [apply in_zrange; lia|].
    apply in_map_iff. exists bx. split; [reflexivity|apply in_zrange; lia].
Qed.

Lemma in_launch_workers (grid threads : dim3) (c : tctx) :
  In c (launch_workers grid threads) <->
  (0 <= hipBlockIdx_x c < dim_x grid /\ 0 <= hipBlockIdx_y c < dim_y grid
   /\ 0 <= hipBlockIdx_z c < dim_z grid)
  /\ hipBlockDim_x c = dim_x threads /\ hipBlockDim_y c = dim_y threads
  /\ hipBlockDim_z c = dim_z threads
  /\ 0 <= hipThreadIdx_x c < dim_x threads
  /\ 0 <= hipThreadIdx_y c < dim_y threads
  /\ 0 <= hipThreadIdx_z c < dim_z threads.
Proof.
  unfold launch_workers. rewrite in_flat_map. split.
  - intros ([[bx by_] bz] & Hb & Hc). apply in_grid_blocks in Hb.
    apply in_block_contexts in Hc.
    destruct Hc as (-> & -> & -> & Hc). split; assumption.
  - intros (Hb & Hc).
    exists (hipBlockIdx_x c, hipBlockIdx_y c, hipBlockIdx_z c). split.
    + apply in_grid_blocks. exact Hb.
    + apply in_block_contexts. repeat split; tauto.
Qed.

Lemma NoDup_grid_blocks (grid : dim3) : NoDup (grid_blocks grid).
Proof.
  unfold grid_blocks.
  apply (NoDup_flat_map_key _ (fun b => snd b)); [apply NoDup_zrange| |].
  - intros bz _.
    apply (NoDup_flat_map_key _ (fun b => snd (fst b))); [apply NoDup_zrange| |].
    + intros by_ _.
      apply (NoDup_map_key _ (fun b => fst (fst b))); [|apply NoDup_zrange].
      intros bx. reflexivity.
    + intros by_ b _ Hb. apply in_map_iff in Hb. destruct Hb as (bx & <- & _).
      reflexivity.
  - intros bz b _ Hb. apply in_flat_map in Hb. destruct Hb as (by_ & _ & Hb).
    apply in_map_iff in Hb. destruct Hb as (bx & <- & _). reflexivity.
Qed.

Lemma NoDup_block_contexts (threads : dim3) (bx by_ bz : Z) :
  NoDup (block_contexts threads bx by_ bz).
Proof.
  unfold block_contexts.
  apply (NoDup_flat_map_key _ hipThreadIdx_z); [apply NoDup_zrange| |].
  - intros tz _.
    apply (NoDup_flat_map_key _ hipThreadIdx_y); [apply NoDup_zrange| |].
    + intros ty _.
      apply (NoDup_map_key _ hipThreadIdx_x); [|apply NoDup_zrange].
      intros tx. reflexivity.
    + intros ty c _ Hc. apply in_map_iff in Hc. destruct Hc as (tx & <- & _).
      reflexivity.
  - intros tz c _ Hc. apply in_flat_map in Hc. destruct Hc as (ty & _ & Hc).
    apply in_map_iff in Hc. destruct Hc as (tx & <- & _). reflexivity.
Qed.

Lemma NoDup_launch_workers (grid threads : dim3) :
  NoDup (launch_workers grid threads).
Proof.
  unfold launch_workers.
  apply (NoDup_flat_map_key _
           (fun c => (hipBlockIdx_x c, hipBlockIdx_y c, hipBlockIdx_z c)));
    [apply NoDup_grid_blocks| |].
  - intros [[bx by_] bz] _. apply NoDup_block_contexts.
  - intros [[bx by_] bz] c _ Hc. apply in_block_contexts in Hc.
    destruct Hc as (-> & -> & -> & _). reflexivity.
Qed.

(** A filter that only one element of a duplicate-free list passes. *)
Lemma filter_unique {X} (p : X -> bool) (l : list X) (x0 : X) :
  NoDup l -> In x0 l -> p x0 = true ->
  (forall x, In x l -> p x = true -> x = x0) ->
  filter p l = [x0].
Proof.
  intros Hl. induction Hl as [|x l Hx Hl IH]; intros Hin Hp Hu.
  - destruct Hin.
  - cbn [filter]. destruct Hin as [->|Hin].
    + rewrite Hp. f_equal.
      destruct (filter p l) as [|y l'] eqn:E; [reflexivity|].
      exfalso. assert (Hy : In y (filter p l)) by (rewrite E; left; reflexivity).
      apply filter_In in Hy. destruct Hy as (Hy & Hpy).
      apply Hx. rewrite <- (Hu y (or_intror Hy) Hpy). exact Hy.
    + destruct (p x) eqn:Epx.
      * exfalso. apply Hx. rewrite (Hu x (or_introl eq_refl) Epx). exact Hin.
      * apply IH; [exact Hin|exact Hp|].
        intros y Hy. apply Hu. right. exact Hy.
Qed.

Lemma filter_none {X} (p : X -> bool) (l : list X) :
  (forall x, In x l -> p x = false) -> filter p l = [].
Proof.
  induction l as [|x l IH]; intros H; cbn [filter]; [reflexivity|].
  rewrite (H x (or_introl eq_refl)). apply IH.
  intros y Hy. apply H. right. exact Hy.
Qed.

(* ================================================================== *)
(** * A launch of a kernel whose workers all return *)

Lemma mapM_list_inv (f : tctx -> M progress)
      (J : list tctx -> state -> Prop) (l : list tctx) :
  (forall done c s, In c l -> J done s ->
     exists s', f c s = Some (Returned, s') /\ J (done ++ [c]) s') ->
  forall done s, J done s ->
    exists s', mapM f l s = Some (map (fun _ => Returned) l, s')
               /\ J (done ++ l) s'.
Proof.
  induction l as [|c l IH]; intros Hstep done s HJ.
  - exists s. rewrite app_nil_r. split; [reflexivity|exact HJ].
  - destruct (Hstep done c s (or_introl eq_refl) HJ) as (s1 & E1 & J1).
    destruct (IH (fun d x s0 Hx => Hstep d x s0 (or_intror Hx))
                 (done ++ [c]) s1 J1) as (s2 & E2 & J2).
    exists s2. cbn [mapM map].
    rewrite (bind_run _ _ _ _ _ E1), (bind_run _ _ _ _ _ E2).
    split; [reflexivity|]. rewrite <- app_assoc in J2. exact J2.
Qed.

Lemma launch_list_inv (f : tctx -> M progress)
      (J : list tctx -> state -> Prop) (grid threads : dim3) :
  (forall done c s, In c (launch_workers grid threads) -> J done s ->
     exists s', f c s = Some (Returned, s') /\ J (done ++ [c]) s') ->
  forall s, J [] s ->
    exists s', hipLaunchKernelGGL f grid threads s = Some (tt, s')
               /\ J (launch_workers grid threads) s'.
Proof.
  unfold hipLaunchKernelGGL, launch_workers.
  generalize (grid_blocks grid) as bl.
  intros bl Hstep s HJ.
  assert (Hgen : forall done s0, J done s0 ->
    exists s', iterM (fun b => match b with
                               | (bx, by_, bz) =>
                                   run_block f (block_contexts threads bx by_ bz)
                               end) bl s0 = Some (tt, s')
               /\ J (done ++ flat_map (fun b => match b with
                                                | (bx, by_, bz) =>
                                                    block_contexts threads bx by_ bz
                                                end) bl) s').
  { induction bl as [|[[bx by_] bz] bl IH]; intros done s0 HJ0.
    - exists s0. cbn [flat_map]. rewrite app_nil_r.
      split; [reflexivity|exact HJ0].
    - cbn [iterM flat_map].
      destruct (mapM_list_inv f J (block_contexts threads bx by_ bz))
        with (done := done) (s := s0) as (s1 & E1 & J1).
      + intros d c s2 Hc. apply Hstep. cbn [flat_map].
        apply in_or_app. left. exact Hc.
      + exact HJ0.
      + destruct (IH (fun d c s2 Hc =>
                        Hstep d c s2 (in_or_app _ _ _ (or_intror Hc)))
                     (done ++ block_contexts threads bx by_ bz) s1 J1)
          as (s2 & E2 & J2).
        exists s2. split.
        * unfold bind at 1. unfold run_block.
          rewrite (bind_run _ _ _ _ _ E1).
          rewrite iterM_idle.
          -- exact E2.
          -- intros p Hp. apply in_map_iff in Hp.
             destruct Hp as (c & <- & _). reflexivity.
        * rewrite <- app_assoc in J2. exact J2. }
  apply (Hgen [] s HJ).
Qed.

(* ================================================================== *)
(** * A launch of [rocblas_syr_kernel] *)

Lemma syr_blocks_bounds (n d : Z) :
  1 <= n -> 0 < d ->
  0 < syr_blocks n d /\ (syr_blocks n d - 1) * d < n
  /\ n <= syr_blocks n d * d.
Proof.
  intros Hn Hd. unfold syr_blocks.
  pose proof (Z.div_mod (n - 1) d ltac:(lia)).
  pose proof (Z.mod_pos_bound (n - 1) d Hd).
  assert (0 <= (n - 1) / d) by (apply Z.div_pos; lia).
  nia.
Qed.

Section SyrLaunch.

Variable a : syr_launch.
Variable batch_count : Z.

Hypothesis Hrange : syr_range_ok (s_n a) (s_lda a) (s_incx a).
Hypothesis Hn : 1 <= s_n a.

Lemma syr_worker_coords (c : tctx) :
  In c (launch_workers
          (mkDim3 (syr_blocks (s_n a) 128) (syr_blocks (s_n a) 8) batch_count)
          (mkDim3 128 8 1)) ->
  0 <= worker_i c <= INT_MAX /\ 0 <= worker_j c <= INT_MAX
  /\ 0 <= hipBlockIdx_z c < batch_count.
Proof.
  intros Hc. apply in_launch_workers in Hc.
  cbn [dim_x dim_y dim_z] in Hc.
  destruct Hc as ((Hbx & Hby & Hbz) & Ex & Ey & _ & Htx & Hty & _).
  destruct Hrange as (_ & Hlda & HA & _).
  pose proof (range_n_small (s_n a) (s_lda a) ltac:(lia) Hlda HA) as Hsmall.
  destruct (syr_blocks_bounds (s_n a) 128 Hn ltac:(lia)) as (_ & Hx & _).
  destruct (syr_blocks_bounds (s_n a) 8 Hn ltac:(lia)) as (_ & Hy & _).
  unfold worker_i, worker_j, INT_MAX in *. rewrite Ex, Ey.
  repeat split; lia.
Qed.

Lemma syr_launch_spec (s : state) :
  exists s',
    hipLaunchKernelGGL (syr_worker a)
      (mkDim3 (syr_blocks (s_n a) 128) (syr_blocks (s_n a) 8) batch_count)
      (mkDim3 128 8 1) s
    = Some (tt, s')
    /\ syr_inv a batch_count (mem s) (log s)
         (launch_workers
            (mkDim3 (syr_blocks (s_n a) 128) (syr_blocks (s_n a) 8)
                    batch_count)
            (mkDim3 128 8 1)) s'.
Proof.
  apply (launch_list_inv (syr_worker a)
           (fun done s1 => syr_inv a batch_count (mem s) (log s) done s1)).
  - intros done c s1 Hc HJ.
    destruct (syr_worker_coords c Hc) as (Hi & Hj & Hb).
    apply (syr_worker_step a batch_count (mem s) (log s) Hrange);
      assumption.
  - unfold syr_inv, syr_hits. cbn [filter]. split; [|split].
    + reflexivity.
    + intros addr. change (sum_deltas a (mem s) []) with 0. lia.
    + exists []. repeat split. constructor.
Qed.

Hypothesis Hdisj : syr_batch_disjoint a batch_count.

(** Two positions of the triangles of a launch with the same address
    are the same position of the same instance. *)
Lemma syr_A_inj (b b' i j i' j' : Z) :
  0 <= b < batch_count -> 0 <= b' < batch_count ->
  0 <= i < s_n a -> 0 <= j < s_n a -> 0 <= i' < s_n a -> 0 <= j' < s_n a ->
  syr_A a b i j = syr_A a b' i' j' -> b = b' /\ i = i' /\ j = j'.
Proof.
  intros Hb Hb' Hi Hj Hi' Hj' E.
  destruct (Z.eq_dec b b') as [<-|Hne].
  - split; [reflexivity|]. unfold syr_A in E.
    destruct Hrange as (_ & Hlda & _).
    assert (Ej : j = j').
    { destruct (Z.lt_trichotomy j j') as [H|[H|H]]; [exfalso|exact H|exfalso].
      - assert (s_lda a * (j + 1) <= s_lda a * j')
          by (apply Z.mul_le_mono_nonneg_l; lia).
        lia.
      - assert (s_lda a * (j' + 1) <= s_lda a * j)
          by (apply Z.mul_le_mono_nonneg_l; lia).
        lia. }
    subst j'. lia.
  - exfalso. apply (Hdisj b b' i j i' j'); assumption.
Qed.

(** The worker that stands for position [(i,j)] of instance [b]. *)
Lemma syr_hits_position (m : memory) (b i j : Z) :
  0 <= b < batch_count -> 0 <= i -> 0 <= j ->
  syr_on_triangle (s_uplo a) (s_n a) i j = true ->
  syr_alpha a m b <> 0 ->
  syr_hits a m
    (launch_workers
       (mkDim3 (syr_blocks (s_n a) 128) (syr_blocks (s_n a) 8) batch_count)
       (mkDim3 128 8 1))
    (syr_A a b i j)
  = [mkCtx (i / 128) (j / 8) b (i mod 128) (j mod 8) 0 128 8 1].
Proof.
  intros Hb Hi Hj Htri Halpha.
  destruct (syr_on_triangle_bounds _ _ _ _ Hi Hj Htri) as (Hin & Hjn).
  destruct (syr_blocks_bounds (s_n a) 128 Hn ltac:(lia)) as (_ & Hx & _).
  destruct (syr_blocks_bounds (s_n a) 8 Hn ltac:(lia)) as (_ & Hy & _).
  assert (Ei : i / 128 * 128 + i mod 128 = i)
    by (pose proof (Z.div_mod i 128 ltac:(lia)); lia).
  assert (Ej : j / 8 * 8 + j mod 8 = j)
    by (pose proof (Z.div_mod j 8 ltac:(lia)); lia).
  pose proof (Z.mod_pos_bound i 128 ltac:(lia)) as Hmi.
  pose proof (Z.mod_pos_bound j 8 ltac:(lia)) as Hmj.
  unfold syr_hits. apply filter_unique.
  - apply NoDup_launch_workers.
  - apply in_launch_workers. cbn. repeat split; try lia;
      try (apply Z.div_pos; lia).
    + assert (i / 128 <= (s_n a - 1) / 128)
        by (apply Z.div_le_mono; lia).
      unfold syr_blocks. lia.
    + assert (j / 8 <= (s_n a - 1) / 8) by (apply Z.div_le_mono; lia).
      unfold syr_blocks. lia.
  - unfold syr_active, syr_target, worker_i, worker_j. cbn.
    rewrite Ei, Ej, Htri. apply Z.eqb_neq in Halpha. rewrite Halpha.
    cbn. apply Z.eqb_refl.
  - intros c Hc Hp. pose proof (syr_worker_coords c Hc) as (Hci & Hcj & Hcb).
    apply andb_true_iff in Hp. destruct Hp as (Hact & Htar).
    apply Z.eqb_eq in Htar. unfold syr_active in Hact.
    apply andb_true_iff in Hact. destruct Hact as (_ & Hctri).
    destruct (syr_on_triangle_bounds _ _ _ _ (proj1 Hci) (proj1 Hcj) Hctri)
      as (Hcin & Hcjn).
    unfold syr_target in Htar.
    destruct (syr_A_inj _ _ _ _ _ _ Hcb Hb Hcin Hcjn Hin Hjn Htar)
      as (Eb & Eci & Ecj).
    apply in_launch_workers in Hc. cbn [dim_x dim_y dim_z] in Hc.
    destruct Hc as (_ & Ex & Ey & Ez & Htx & Hty & Htz).
    unfold worker_i, worker_j in Eci, Ecj.
    destruct c as [cbx cby cbz ctx_ cty ctz cdx cdy cdz].
    cbn in *. subst cdx cdy cdz cbz.
    assert (ctz = 0) by lia. subst ctz.
    assert (cbx = i / 128 /\ ctx_ = i mod 128) as (-> & ->).
    { split; [apply (Z.div_unique_pos i 128 cbx ctx_); lia|
              apply (Z.mod_unique_pos i 128 cbx ctx_); lia]. }
    assert (cby = j / 8 /\ cty = j mod 8) as (-> & ->).
    { split; [apply (Z.div_unique_pos j 8 cby cty); lia|
              apply (Z.mod_unique_pos j 8 cby cty); lia]. }
    reflexivity.
Qed.

(** No worker of an instance with [alpha = 0] updates anything, and no
    worker updates an address off the triangles. *)
Lemma syr_hits_none (m : memory) (addr : Z) :
  (forall b i j, 0 <= b < batch_count -> 0 <= i -> 0 <= j ->
     syr_on_triangle (s_uplo a) (s_n a) i j = true ->
     syr_alpha a m b <> 0 -> addr <> syr_A a b i j) ->
  syr_hits a m
    (launch_workers
       (mkDim3 (syr_blocks (s_n a) 128) (syr_blocks (s_n a) 8) batch_count)
       (mkDim3 128 8 1))
    addr
  = [].
Proof.
  intros Hno. unfold syr_hits. apply filter_none. intros c Hc.
  destruct (syr_active a m c && (syr_target a c =? addr)) eqn:Hp;
    [|reflexivity].
  exfalso. pose proof (syr_worker_coords c Hc) as (Hci & Hcj & Hcb).
  apply andb_true_iff in Hp. destruct Hp as (Hact & Htar).
  apply Z.eqb_eq in Htar. unfold syr_active in Hact.
  apply andb_true_iff in Hact. destruct Hact as (Hal & Hctri).
  apply negb_true_iff, Z.eqb_neq in Hal.
  apply (Hno (hipBlockIdx_z c) (worker_i c) (worker_j c)); try lia;
    try assumption.
  symmetry. exact Htar.
Qed.

End SyrLaunch.

(* ================================================================== *)
(** * The syr dispatcher *)

Lemma syr_blocks_int (n d : Z) :
  1 <= n <= INT_MAX -> 0 < d ->
  to_uint (to_int (Z.quot (to_int (n - 1)) d + 1)) = syr_blocks n d.
Proof.
  unfold INT_MAX, syr_blocks. intros H Hd.
  rewrite (to_int_id (n - 1)) by (unfold INT_MAX; lia).
  rewrite (Z.quot_div_nonneg (n - 1) d) by lia.
  assert (0 <= (n - 1) / d <= n - 1).
  { split; [apply Z.div_pos; lia|]. apply Z.div_le_upper_bound; nia. }
  rewrite to_int_id by (unfold INT_MAX; lia).
  apply to_uint_id. lia.
Qed.

Section SyrTemplate.

Variables (handle : rocblas_handle) (uplo : rocblas_fill).
Variables (n alpha stride_alpha : Z).
Variables (x : batch_ptr) (offsetx incx stridex : Z).
Variables (A : batch_ptr) (offseta lda strideA : Z).
Variable batch_count : Z.

Hypothesis Hrange : syr_range_ok n lda incx.
Hypothesis Hn : 1 <= n.
Hypothesis Hbc : 1 <= batch_count <= INT_MAX.

(** A non-trivial call of the dispatcher: it answers [success]; the host
    reads [alpha] at most; then all the workers of the launch have run. *)
Lemma syr_template_spec (s : state) :
  exists s1 s',
    rocblas_internal_syr_template handle uplo n alpha stride_alpha
      x offsetx incx stridex A offseta lda strideA batch_count s
    = Some (rocblas_status_success, s')
    /\ mem s1 = mem s
    /\ log_ext (fun e => e = Rd BufAlpha alpha) s s1
    /\ syr_inv
         (syr_call_launch handle (mem s) uplo n alpha stride_alpha
            x offsetx incx stridex A offseta lda strideA)
         batch_count (mem s) (log s1)
         (launch_workers
            (mkDim3 (syr_blocks n 128) (syr_blocks n 8) batch_count)
            (mkDim3 128 8 1))
         s'.
Proof.
  destruct Hrange as (Hn0 & Hlda & HA & HX).
  pose proof (range_n_small _ _ Hn0 Hlda HA) as Hsmall.
  unfold rocblas_internal_syr_template.
  destruct (Z.eqb_spec n 0) as [En|En]; [lia|].
  destruct (Z.eqb_spec batch_count 0) as [Eb|Eb]; [lia|].
  cbn [orb]. cbv zeta.
  unfold GEMV_DIM_X, GEMV_DIM_Y.
  rewrite (syr_blocks_int n 128) by (unfold INT_MAX; lia).
  rewrite (syr_blocks_int n 8) by (unfold INT_MAX; lia).
  rewrite (to_uint_id batch_count) by (unfold INT_MAX in Hbc; lia).
  change syr_threads_dim with (mkDim3 128 8 1).
  fold (vector_shift offsetx incx n).
  destruct (pointer_mode handle) eqn:Emode; cbn [pointer_mode_eqb].
  - unfold bind at 1. unfold load at 1. cbn [mem sdata log].
    match goal with
    | |- context [bind (hipLaunchKernelGGL _ _ _) _ ?s1] =>
        destruct (syr_launch_spec
                    (syr_call_launch handle (mem s) uplo n alpha stride_alpha
                       x offsetx incx stridex A offseta lda strideA)
                    batch_count
                    (conj Hn0 (conj Hlda (conj HA HX))) Hn s1)
          as (s' & E & J);
          exists s1, s'
    end.
    unfold syr_call_launch, scalar_of_mode, syr_worker in E.
    rewrite Emode in E.
    cbn [s_uplo s_n s_alpha s_stride_alpha s_xa s_shiftx s_incx s_stridex
         s_Aa s_shiftA s_lda s_strideA mem] in E.
    rewrite (bind_run _ _ _ _ _ E).
    split; [reflexivity|]. cbn [mem sdata log] in *.
    split; [reflexivity|]. split; [|exact J].
    exists [Rd BufAlpha alpha]. split; [reflexivity|].
    constructor; [reflexivity|constructor].
  - destruct (syr_launch_spec
                (syr_call_launch handle (mem s) uplo n alpha stride_alpha
                   x offsetx incx stridex A offseta lda strideA)
                batch_count
                (conj Hn0 (conj Hlda (conj HA HX))) Hn s)
      as (s' & E & J).
    exists s, s'.
    unfold syr_call_launch, scalar_of_mode, syr_worker in E.
    rewrite Emode in E.
    cbn [s_uplo s_n s_alpha s_stride_alpha s_xa s_shiftx s_incx s_stridex
         s_Aa s_shiftA s_lda s_strideA mem] in E.
    rewrite (bind_run _ _ _ _ _ E).
    split; [reflexivity|]. split; [reflexivity|].
    split; [apply log_ext_refl|exact J].
Qed.

End SyrTemplate.

Lemma writes_at_none (addr : Z) (evs : list event) :
  (forall e, In e evs -> e <> Wr BufA addr) -> writes_at addr evs = O.
Proof.
  intros H. unfold writes_at. rewrite filter_none; [reflexivity|].
  intros e He. destruct e as [b a0|b a0]; cbn [event_eqb]; [reflexivity|].
  destruct b; cbn [buffer_eqb andb]; try reflexivity.
  apply Z.eqb_neq. intros ->. apply (H _ He). reflexivity.
Qed.

(** What a call of the syr dispatcher leaves behind: the values on the
    selected triangles, the number of writes to each of their positions,
    and everything else untouched. *)
Lemma syr_template_result
        (handle : rocblas_handle) (uplo : rocblas_fill)
        (n alpha stride_alpha : Z)
        (x : batch_ptr) (offsetx incx stridex : Z)
        (A : batch_ptr) (offseta lda strideA : Z)
        (batch_count : Z) (s : state) :
  syr_range_ok n lda incx ->
  0 <= batch_count <= INT_MAX ->
  syr_batch_disjoint
    (syr_call_launch handle (mem s) uplo n alpha stride_alpha
       x offsetx incx stridex A offseta lda strideA) batch_count ->
  exists s' evs,
    rocblas_internal_syr_template handle uplo n alpha stride_alpha
      x offsetx incx stridex A offseta lda strideA batch_count s
    = Some (rocblas_status_success, s')
    /\ log s' = evs ++ log s
    /\ (forall b i j,
          0 <= b < batch_count -> 0 <= i -> 0 <= j ->
          syr_on_triangle uplo n i j = true ->
          mem s' BufA
              (syr_A (syr_call_launch handle (mem s) uplo n alpha stride_alpha
                        x offsetx incx stridex A offseta lda strideA) b i j)
          = mem s BufA
                (syr_A (syr_call_launch handle (mem s) uplo n alpha
                          stride_alpha x offsetx incx stridex A offseta lda
                          strideA) b i j)
            + syr_alpha (syr_call_launch handle (mem s) uplo n alpha
                           stride_alpha x offsetx incx stridex A offseta lda
                           strideA) (mem s) b
              * mem s BufX
                    (syr_x (syr_call_launch handle (mem s) uplo n alpha
                              stride_alpha x offsetx incx stridex A offseta
                              lda strideA) b i)
              * mem s BufX
                    (syr_x (syr_call_launch handle (mem s) uplo n alpha
                              stride_alpha x offsetx incx stridex A offseta
                              lda strideA) b j)
          /\ writes_at
               (syr_A (syr_call_launch handle (mem s) uplo n alpha
                         stride_alpha x offsetx incx stridex A offseta lda
                         strideA) b i j) evs
             = (if syr_alpha (syr_call_launch handle (mem s) uplo n alpha
                                stride_alpha x offsetx incx stridex A offseta
                                lda strideA) (mem s) b =? 0
                then O else 1%nat)
          /\ (syr_alpha (syr_call_launch handle (mem s) uplo n alpha
                           stride_alpha x offsetx incx stridex A offseta lda
                           strideA) (mem s) b = 0 ->
              forall e, In e evs ->
                ~ (event_buffer e = BufA
                   /\ event_addr e
                      = syr_A (syr_call_launch handle (mem s) uplo n alpha
                                 stride_alpha x offsetx incx stridex A
                                 offseta lda strideA) b i j)))
    /\ (forall addr,
          (forall b i j,
             0 <= b < batch_count -> 0 <= i -> 0 <= j ->
             syr_on_triangle uplo n i j = true ->
             addr <> syr_A (syr_call_launch handle (mem s) uplo n alpha
                              stride_alpha x offsetx incx stridex A offseta
                              lda strideA) b i j) ->
          mem s' BufA addr = mem s BufA addr
          /\ forall e, In e evs ->
               ~ (event_buffer e = BufA /\ event_addr e = addr))
    /\ (forall b addr, b <> BufA -> mem s' b addr = mem s b addr).
Proof.
  intros Hrange Hbc Hdisj.
  set (a := syr_call_launch handle (mem s) uplo n alpha stride_alpha
              x offsetx incx stridex A offseta lda strideA) in *.
  destruct (Z.eq_dec n 0) as [En|En];
    [|destruct (Z.eq_dec batch_count 0) as [Eb|Eb]].
  - exists s, []. unfold rocblas_internal_syr_template.
    rewrite En. cbn [Z.eqb orb]. split; [reflexivity|].
    split; [reflexivity|]. split; [|split].
    + intros b i j Hb Hi Hj Htri.
      destruct (syr_on_triangle_bounds _ _ _ _ Hi Hj Htri). lia.
    + intros addr _. split; [reflexivity|]. intros e [].
    + reflexivity.
  - exists s, []. unfold rocblas_internal_syr_template.
    rewrite Eb. rewrite orb_true_r. split; [reflexivity|].
    split; [reflexivity|]. split; [|split].
    + intros b i j Hb. lia.
    + intros addr _. split; [reflexivity|]. intros e [].
    + reflexivity.
  - assert (Hn : 1 <= n) by (destruct Hrange; lia).
    destruct (syr_template_spec handle uplo n alpha stride_alpha
                x offsetx incx stridex A offseta lda strideA batch_count
                Hrange Hn ltac:(lia) s)
      as (s1 & s' & E & M1 & (ev1 & L1 & F1) & (I1 & I2 & (evs & El & Fl & Wl))).
    fold a in I1, I2, Fl, Wl.
    change (syr_blocks n) with (syr_blocks (s_n a)) in I2, Wl.
    assert (W1 : forall addr, writes_at addr ev1 = O).
    { intros addr. apply writes_at_none. intros e He.
      rewrite Forall_forall in F1. rewrite (F1 e He). discriminate. }
    exists s', (evs ++ ev1). split; [exact E|]. split; [|split; [|split]].
    + rewrite El, L1. apply app_assoc.
    + intros b i j Hb Hi Hj Htri. rewrite I2, writes_at_app, W1, Wl.
      destruct (Z.eqb_spec (syr_alpha a (mem s) b) 0) as [Ea|Ea].
      * rewrite (syr_hits_none a batch_count Hrange Hn).
        -- rewrite Ea. change (sum_deltas a (mem s) []) with 0.
           split; [lia|]. split; [reflexivity|].
           intros _ e He (Eb' & Ea'). apply in_app_or in He.
           destruct He as [He|He].
           ++ rewrite Forall_forall in Fl. specialize (Fl e He).
              destruct (syr_on_triangle_bounds _ _ _ _ Hi Hj Htri).
              destruct e as [[] addr'|[] addr']; cbn in Eb', Ea';
                try discriminate; cbn in Fl;
                destruct Fl as (b' & i' & j' & Hb' & Hi' & Hj' & Ha' & Htri'
                                & Eaddr);
                destruct (syr_on_triangle_bounds _ _ _ _ Hi' Hj' Htri');
                destruct (syr_A_inj a batch_count Hrange Hdisj
                            b b' i j i' j') as (<- & _);
                try assumption; try congruence.
           ++ rewrite Forall_forall in F1. rewrite (F1 e He) in Eb'.
              discriminate.
        -- intros b' i' j' Hb' Hi' Hj' Htri' Ha' Eaddr.
           destruct (syr_on_triangle_bounds _ _ _ _ Hi Hj Htri).
           destruct (syr_on_triangle_bounds _ _ _ _ Hi' Hj' Htri').
           destruct (syr_A_inj a batch_count Hrange Hdisj
                       b b' i j i' j') as (<- & _); try assumption.
           contradiction.
      * rewrite (syr_hits_position a batch_count Hrange Hn Hdisj
                   (mem s) b i j Hb Hi Hj Htri Ea).
        unfold sum_deltas, syr_delta, worker_i, worker_j. cbn.
        replace (i / 128 * 128 + i mod 128) with i
          by (pose proof (Z.div_mod i 128 ltac:(lia)); lia).
        replace (j / 8 * 8 + j mod 8) with j
          by (pose proof (Z.div_mod j 8 ltac:(lia)); lia).
        split; [lia|]. split; [reflexivity|].
        intros H0. contradiction.
    + intros addr Hno. split.
      * rewrite I2. rewrite (syr_hits_none a batch_count Hrange Hn).
        -- change (sum_deltas a (mem s) []) with 0. lia.
        -- intros b i j Hb Hi Hj Htri _. apply Hno; assumption.
      * intros e He (Eb' & Ea'). apply in_app_or in He.
        destruct He as [He|He].
        -- rewrite Forall_forall in Fl. specialize (Fl e He).
           destruct e as [[] addr'|[] addr']; cbn in Eb', Ea';
             try discriminate; cbn in Fl;
             destruct Fl as (b & i & j & Hb & Hi & Hj & _ & Htri & Eaddr);
             apply (Hno b i j Hb Hi Hj Htri); congruence.
        -- rewrite Forall_forall in F1. rewrite (F1 e He) in Eb'.
           discriminate.
    + intros b addr Hne. apply I1. exact Hne.
Qed.

(** C2: the claim as stated fails, in two ways.  In the n = 2 lower
    example with [alpha = 0] the call succeeds and no worker writes or
    reads any position of [A]: the kernel returns before the update when
    the [alpha] of its instance is [0].  And the call with the lower
    triangle, [n = 3], [lda = 3] and [incx = 2^30] passes
    [rocblas_syr_arg_check], but the index [2 * incx] of the kernel wraps
    to [- 2^31]: position [(2,2)] is updated from the entry of [x] read
    [2^31] elements below its base (which holds 100 here) and not from
    the third entry of [x] (which holds 1). *)
Lemma syr_valid_call_counterexample :
  (exists s',
     rocblas_internal_syr_template (mkHandle rocblas_pointer_mode_host)
       rocblas_fill_lower 2 50 0 (SinglePtr 2000) 0 1 0
       (SinglePtr 1000) 0 2 0 1
       (mkState (fun b a =>
                   match b with
                   | BufA => nth (Z.to_nat (a - 1000)) [1; 0; 9; 1] 0
                   | BufX => nth (Z.to_nat (a - 2000)) [2; 3] 0
                   | _ => 0
                   end) (fun _ => 0) [])
     = Some (rocblas_status_success, s')
     /\ map (fun addr => writes_at addr (log s')) [1000; 1001; 1003]
        = [O; O; O]
     /\ existsb (reads_buffer BufA) (log s') = false
     /\ existsb (writes_buffer BufA) (log s') = false)
  /\ rocblas_syr_arg_check rocblas_fill_lower 3 50 0
       (SinglePtr 2000) 0 1073741824 0 (SinglePtr 1000) 0 3 0 1
     = rocblas_status_continue
  /\ (exists s',
        rocblas_internal_syr_template (mkHandle rocblas_pointer_mode_host)
          rocblas_fill_lower 3 50 0 (SinglePtr 2000) 0 1073741824 0
          (SinglePtr 1000) 0 3 0 1
          (mkState (fun b a =>
                      match b with
                      | BufX => if a <? 2000 then 100 else 1
                      | _ => 1
                      end) (fun _ => 0) [])
        = Some (rocblas_status_success, s')
        /\ existsb (event_eqb (Rd BufX (2000 - 2147483648))) (log s') = true
        /\ existsb (event_eqb (Rd BufX (2000 + 2 * 1073741824))) (log s')
           = false
        /\ mem s' BufA (1000 + (2 + 3 * 2)) = 10001
        /\ mem s' BufA (1000 + (2 + 3 * 2)) <> 1 + 1 * 1 * 1).
Proof.
  split; [|split].
  - eexists. split; [vm_compute; reflexivity|].
    repeat split; vm_compute; reflexivity.
  - reflexivity.
  - eexists. split; [vm_compute; reflexivity|].
    repeat split; try (vm_compute; reflexivity).
    vm_compute. discriminate.
Qed.

(** C2 (amended): for every call of the syr dispatcher whose index
    products stay inside [rocblas_int] ([n * lda] and [n * |incx|] at most
    [INT_MAX]) and whose batch instances do not overlap in [A], in exact
    arithmetic: every position [(i,j)] on the selected triangle (lower:
    [j <= i < n], upper: [i <= j < n]) ends with
    [A[i,j] + alpha * x[i] * x[j]]; when the [alpha] of its instance is not
    [0] it is written exactly once; when that [alpha] is [0] it is neither
    read nor written and keeps its value; every address off the selected
    triangles keeps its value and is neither read nor written; no other
    buffer changes. *)
Theorem syr_updates_triangle
        (handle : rocblas_handle) (uplo : rocblas_fill)
        (n alpha stride_alpha : Z)
        (x : batch_ptr) (offsetx incx stridex : Z)
        (A : batch_ptr) (offseta lda strideA : Z)
        (batch_count : Z) (s : state) :
  syr_range_ok n lda incx ->
  0 <= batch_count <= INT_MAX ->
  syr_batch_disjoint
    (syr_call_launch handle (mem s) uplo n alpha stride_alpha
       x offsetx incx stridex A offseta lda strideA) batch_count ->
  exists s' evs,
    rocblas_internal_syr_template handle uplo n alpha stride_alpha
      x offsetx incx stridex A offseta lda strideA batch_count s
    = Some (rocblas_status_success, s')
    /\ log s' = evs ++ log s
    /\ (forall b i j,
          0 <= b < batch_count -> 0 <= i -> 0 <= j ->
          syr_on_triangle uplo n i j = true ->
          mem s' BufA
              (syr_A (syr_call_launch handle (mem s) uplo n alpha stride_alpha
                        x offsetx incx stridex A offseta lda strideA) b i j)
          = mem s BufA
                (syr_A (syr_call_launch handle (mem s) uplo n alpha
                          stride_alpha x offsetx incx stridex A offseta lda
                          strideA) b i j)
            + syr_alpha (syr_call_launch handle (mem s) uplo n alpha
                           stride_alpha x offsetx incx stridex A offseta lda
                           strideA) (mem s) b
              * mem s BufX
                    (syr_x (syr_call_launch handle (mem s) uplo n alpha
                              stride_alpha x offsetx incx stridex A offseta
                              lda strideA) b i)
              * mem s BufX
                    (syr_x (syr_call_launch handle (mem s) uplo n alpha
                              stride_alpha x offsetx incx stridex A offseta
                              lda strideA) b j)
          /\ writes_at
               (syr_A (syr_call_launch handle (mem s) uplo n alpha
                         stride_alpha x offsetx incx stridex A offseta lda
                         strideA) b i j) evs
             = (if syr_alpha (syr_call_launch handle (mem s) uplo n alpha
                                stride_alpha x offsetx incx stridex A offseta
                                lda strideA) (mem s) b =? 0
                then O else 1%nat)
          /\ (syr_alpha (syr_call_launch handle (mem s) uplo n alpha
                           stride_alpha x offsetx incx stridex A offseta lda
                           strideA) (mem s) b = 0 ->
              forall e, In e evs ->
                ~ (event_buffer e = BufA
                   /\ event_addr e
                      = syr_A (syr_call_launch handle (mem s) uplo n alpha
                                 stride_alpha x offsetx incx stridex A
                                 offseta lda strideA) b i j)))
    /\ (forall addr,
          (forall b i j,
             0 <= b < batch_count -> 0 <= i -> 0 <= j ->
             syr_on_triangle uplo n i j = true ->
             addr <> syr_A (syr_call_launch handle (mem s) uplo n alpha
                              stride_alpha x offsetx incx stridex A offseta
                              lda strideA) b i j) ->
          mem s' BufA addr = mem s BufA addr
          /\ forall e, In e evs ->
               ~ (event_buffer e = BufA /\ event_addr e = addr))
    /\ (forall b addr, b <> BufA -> mem s' b addr = mem s b addr).
Proof.
  exact (syr_template_result handle uplo n alpha stride_alpha
           x offsetx incx stridex A offseta lda strideA batch_count s).
Qed.


Lemma syr_updates_triangle_witness :
  exists s',
    rocblas_internal_syr_template (mkHandle rocblas_pointer_mode_host)
      rocblas_fill_lower 2 50 0 (SinglePtr 2000) 0 1 0
      (SinglePtr 1000) 0 2 0 1
      (mkState (fun b a =>
                  match b with
                  | BufA => nth (Z.to_nat (a - 1000)) [1; 0; 9; 1] 0
                  | BufX => nth (Z.to_nat (a - 2000)) [2; 3] 0
                  | _ => 1
                  end) (fun _ => 0) [])
    = Some (rocblas_status_success, s')
    /\ mem s' BufA 1000 = 5 /\ mem s' BufA 1001 = 6
    /\ mem s' BufA 1003 = 10 /\ mem s' BufA 1002 = 9.
Proof.
  destruct (syr_updates_triangle (mkHandle rocblas_pointer_mode_host)
              rocblas_fill_lower 2 50 0 (SinglePtr 2000) 0 1 0
              (SinglePtr 1000) 0 2 0 1
              (mkState (fun b a =>
                  match b with
                  | BufA => nth (Z.to_nat (a - 1000)) [1; 0; 9; 1] 0
                  | BufX => nth (Z.to_nat (a - 2000)) [2; 3] 0
                  | _ => 1
                  end) (fun _ => 0) []))
    as (s' & evs & E & _ & Htri & Hoff & _).
  - unfold syr_range_ok, INT_MAX. simpl. lia.
  - unfold INT_MAX. lia.
  - intros b b' i j i' j' Hb Hb' _ _ _ _ Hne. lia.
  - exists s'. split; [exact E|].
    split; [|split; [|split]].
    + apply (Htri 0 0 0); (lia || reflexivity).
    + apply (Htri 0 1 0); (lia || reflexivity).
    + apply (Htri 0 1 1); (lia || reflexivity).
    + apply (Hoff 1002). intros b i j Hb Hi Hj Ht.
      destruct (syr_on_triangle_bounds _ _ _ _ Hi Hj Ht) as (Hi' & Hj').
      cbn in Hi', Hj'.
      assert (b = 0) by lia. subst b.
      assert (Ci : i = 0 \/ i = 1) by lia.
      assert (Cj : j = 0 \/ j = 1) by lia.
      destruct Ci as [-> | ->], Cj as [-> | ->];
        (vm_compute; discriminate) || (vm_compute in Ht; discriminate).
Defined.

(* ================================================================== *)
(** * Negative increments *)












(* ================================================================== *)
(** * More on a call of the symv dispatcher *)

(** X1: a call of the symv dispatcher answers [success] and changes no
    buffer but [y], and in [y] nothing but the [n] rows of its batch
    instances. *)
Theorem symv_call_frame
        (fuel : nat) (handle : rocblas_handle) (uplo : rocblas_fill)
        (n alpha stride_alpha : Z)
        (A : batch_ptr) (offseta lda strideA : Z)
        (x : batch_ptr) (offsetx incx stridex : Z)
        (beta stride_beta : Z)
        (y : batch_ptr) (offsety incy stridey : Z)
        (batch_count : Z) (s : state) :
  symv_range_ok n lda incx incy ->
  incy <> 0 ->
  0 <= batch_count <= INT_MAX ->
  (Z.to_nat n < fuel)%nat ->
  batch_disjoint y (vector_shift offsety incy n) incy stridey n batch_count ->
  exists s',
    rocblas_internal_symv_template fuel handle uplo n alpha stride_alpha
      A offseta lda strideA x offsetx incx stridex beta stride_beta
      y offsety incy stridey batch_count s
    = Some (rocblas_status_success, s')
    /\ (forall b addr, b <> BufY -> mem s' b addr = mem s b addr)
    /\ (forall addr,
          (forall b r, 0 <= b < batch_count -> 0 <= r < n ->
             addr <> load_ptr_batch y b (vector_shift offsety incy n) stridey
                     + r * incy) ->
          mem s' BufY addr = mem s BufY addr).
Proof.
  intros Hrange Hincy Hbc Hfuel Hdisj.
  destruct (symv_template_spec fuel handle uplo n alpha stride_alpha
              A offseta lda strideA x offsetx incx stridex beta stride_beta
              y offsety incy stridey batch_count
              Hrange Hincy Hbc Hfuel Hdisj s)
    as (s1 & s' & E & M1 & L1 & (B1 & B2 & _ & _)).
  exists s'. split; [exact E|]. split.
  - exact B1.
  - intros addr Hno. apply B2. intros b r Hb Hr. apply (Hno b r Hb Hr).
Qed.

Lemma symv_call_frame_witness :
  exists s',
    rocblas_internal_symv_template 4 (mkHandle rocblas_pointer_mode_host)
      rocblas_fill_upper 3 10 0 (SinglePtr 1000) 0 3 0
      (SinglePtr 2000) 0 1 0 20 0 (SinglePtr 3000) 0 1 0 1
      (example_state [2; 0; 0; 1; 3; 0; 4; 5; 6] [1; 2; 3] [7; 7; 7; 7] 2 0)
    = Some (rocblas_status_success, s')
    /\ mem s' BufA 1003 = 1 /\ mem s' BufX 2001 = 2
    /\ mem s' BufY 3003 = 7.
Proof.
  destruct (symv_call_frame 4 (mkHandle rocblas_pointer_mode_host)
              rocblas_fill_upper 3 10 0 (SinglePtr 1000) 0 3 0
              (SinglePtr 2000) 0 1 0 20 0 (SinglePtr 3000) 0 1 0 1
              (example_state [2; 0; 0; 1; 3; 0; 4; 5; 6] [1; 2; 3]
                             [7; 7; 7; 7] 2 0))
    as (s' & E & H1 & H2).
  - unfold symv_range_ok, INT_MAX. simpl. lia.
  - lia.
  - unfold INT_MAX. lia.
  - simpl. lia.
  - intros b b' r r' Hb Hb' Hr Hr' Hne. lia.
  - exists s'. split; [exact E|]. split; [|split].
    + apply (H1 BufA 1003). discriminate.
    + apply (H1 BufX 2001). discriminate.
    + apply (H2 3003). intros b r Hb Hr.
      unfold load_ptr_batch, vector_shift. cbn [Z.ltb Z.compare]. lia.
Defined.

(** X2: when the index products stay inside [rocblas_int] ([n * lda],
    [n * |incx|] and [n * |incy|] at most [INT_MAX]) and the batch
    instances do not overlap in [y], every access a call of the symv
    dispatcher makes is a read of [alpha] or [beta] on the host or lies,
    for some batch instance, on the stored triangle of its [A], on one of
    the [n] entries of its [x] or [y], or on one of its scalars; the only
    writes are to rows of [y]. *)
Theorem symv_call_in_bounds
        (fuel : nat) (handle : rocblas_handle) (uplo : rocblas_fill)
        (n alpha stride_alpha : Z)
        (A : batch_ptr) (offseta lda strideA : Z)
        (x : batch_ptr) (offsetx incx stridex : Z)
        (beta stride_beta : Z)
        (y : batch_ptr) (offsety incy stridey : Z)
        (batch_count : Z) (s : state) :
  symv_range_ok n lda incx incy ->
  incy <> 0 ->
  0 <= batch_count <= INT_MAX ->
  (Z.to_nat n < fuel)%nat ->
  batch_disjoint y (vector_shift offsety incy n) incy stridey n batch_count ->
  exists s' evs,
    rocblas_internal_symv_template fuel handle uplo n alpha stride_alpha
      A offseta lda strideA x offsetx incx stridex beta stride_beta
      y offsety incy stridey batch_count s
    = Some (rocblas_status_success, s')
    /\ log s' = evs ++ log s
    /\ Forall (fun e =>
                 host_scalar_read alpha beta e
                 \/ exists b, 0 <= b < batch_count
                     /\ symv_in_bounds
                          (symv_call_launch handle (mem s) uplo n alpha
                             stride_alpha A offseta lda strideA x offsetx
                             incx stridex beta stride_beta y offsety incy
                             stridey) b e) evs.
Proof.
  intros Hrange Hincy Hbc Hfuel Hdisj.
  destruct (symv_template_spec fuel handle uplo n alpha stride_alpha
              A offseta lda strideA x offsetx incx stridex beta stride_beta
              y offsety incy stridey batch_count
              Hrange Hincy Hbc Hfuel Hdisj s)
    as (s1 & s' & E & M1 & (ev1 & L1 & F1) & (_ & _ & _ & (evs & El & Fl & _))).
  exists s', (evs ++ ev1). split; [exact E|]. split.
  - rewrite El, L1. apply app_assoc.
  - apply Forall_app. split.
    + rewrite Forall_forall in Fl |- *. intros e He.
      destruct (Fl e He) as (b & Hb & Hok). right. exists b.
      split; [exact Hb|]. apply (event_ok_in_bounds _ _ _ _ Hok).
    + rewrite Forall_forall in F1 |- *. intros e He. left. apply (F1 e He).
Qed.

Lemma symv_call_in_bounds_witness :
  exists s' evs,
    rocblas_internal_symv_template 4 (mkHandle rocblas_pointer_mode_host)
      rocblas_fill_upper 3 10 0 (SinglePtr 1000) 0 3 0
      (SinglePtr 2000) 0 1 0 20 0 (SinglePtr 3000) 0 1 0 1
      (example_state [2; 0; 0; 1; 3; 0; 4; 5; 6] [1; 2; 3] [7; 7; 7] 2 0)
    = Some (rocblas_status_success, s')
    /\ log s' = evs ++ []
    /\ Forall (fun e =>
                 host_scalar_read 10 20 e
                 \/ exists b, 0 <= b < 1
                     /\ symv_in_bounds
                          (mkLaunch true 3 (ByValue 2) 0 (SinglePtr 1000) 0 3
                                    0 (SinglePtr 2000) 0 1 0 (ByValue 0) 0
                                    (SinglePtr 3000) 0 1 0) b e) evs.
Proof.
  apply (symv_call_in_bounds 4 (mkHandle rocblas_pointer_mode_host)
           rocblas_fill_upper 3 10 0 (SinglePtr 1000) 0 3 0
           (SinglePtr 2000) 0 1 0 20 0 (SinglePtr 3000) 0 1 0 1
           (example_state [2; 0; 0; 1; 3; 0; 4; 5; 6] [1; 2; 3] [7; 7; 7]
                          2 0)).
  - unfold symv_range_ok, INT_MAX. simpl. lia.
  - lia.
  - unfold INT_MAX. lia.
  - simpl. lia.
  - intros b b' r r' Hb Hb' Hr Hr' Hne. lia.
Defined.







(* ================================================================== *)
(** * Validation and dispatch *)

Lemma valid_fill_dec (uplo : rocblas_fill) :
  valid_fill uplo \/ ~ valid_fill uplo.
Proof.
  unfold valid_fill. destruct uplo; auto.
  right. intros [H | H]; discriminate.
Qed.

Lemma host_strided_dec (handle : rocblas_handle) (sa sb : Z) :
  host_strided handle sa sb \/ ~ host_strided handle sa sb.
Proof.
  unfold host_strided. destruct (pointer_mode handle).
  - destruct (Z.eq_dec sa 0), (Z.eq_dec sb 0); try (left; split; auto; lia).
    right. intros (_ & [H | H]); lia.
  - right. intros (H & _). discriminate.
Qed.

(** X5: [rocblas_symv_arg_check] answers [continue] exactly for the calls
    that are not host-resident with a scalar stride, select a triangle,
    have valid sizes with [n] and [batch_count] non-zero, and pass no
    null pointer. *)
Theorem symv_arg_check_continue_iff
        (handle : rocblas_handle) (uplo : rocblas_fill)
        (n alpha stride_alpha : Z)
        (A : batch_ptr) (offseta lda strideA : Z)
        (x : batch_ptr) (offsetx incx stridex : Z)
        (beta stride_beta : Z)
        (y : batch_ptr) (offsety incy stridey : Z)
        (batch_count : Z) :
  rocblas_symv_arg_check handle uplo n alpha stride_alpha A offseta lda
    strideA x offsetx incx stridex beta stride_beta y offsety incy stridey
    batch_count = rocblas_status_continue
  <-> (~ host_strided handle stride_alpha stride_beta
       /\ valid_fill uplo
       /\ symv_sizes_ok n lda incx incy batch_count
       /\ 1 <= n /\ 1 <= batch_count
       /\ is_null A = false /\ is_null x = false /\ is_null y = false
       /\ alpha <> 0 /\ beta <> 0).
Proof.
  destruct (symv_arg_check_cases handle uplo n alpha stride_alpha
              A offseta lda strideA x offsetx incx stridex beta stride_beta
              y offsety incy stridey batch_count) as (C1 & C2).
  split.
  - intros E.
    destruct (host_strided_dec handle stride_alpha stride_beta) as [Hh|Hh];
      [rewrite (C1 Hh) in E; discriminate|].
    destruct (C2 Hh) as (C3 & C4).
    destruct (valid_fill_dec uplo) as [Hf|Hf];
      [|rewrite (C3 Hf) in E; discriminate].
    destruct (C4 Hf) as (C5 & C6).
    assert (Hs : symv_sizes_ok n lda incx incy batch_count
                 \/ ~ symv_sizes_ok n lda incx incy batch_count)
      by (unfold symv_sizes_ok; lia).
    destruct Hs as [Hs|Hs]; [|rewrite (C5 Hs) in E; discriminate].
    destruct (C6 Hs) as (C7 & C8).
    assert (Hn : n = 0 \/ batch_count = 0 \/ (n <> 0 /\ batch_count <> 0))
      by lia.
    destruct Hn as [Hn | [Hn | (Hn & Hb)]];
      [rewrite (C7 (or_introl Hn)) in E; discriminate
      |rewrite (C7 (or_intror Hn)) in E; discriminate|].
    rewrite (C8 Hn Hb) in E.
    destruct (is_null A); [discriminate|].
    destruct (is_null x); [discriminate|].
    destruct (is_null y); [discriminate|].
    destruct (Z.eqb_spec alpha 0); [discriminate|].
    destruct (Z.eqb_spec beta 0); [discriminate|].
    unfold symv_sizes_ok in Hs. repeat split; auto; lia.
  - intros (Hh & Hf & Hs & Hn & Hb & HA & Hx & Hy & Ha & Hbeta).
    destruct (C2 Hh) as (_ & C4). destruct (C4 Hf) as (_ & C6).
    destruct (C6 Hs) as (_ & C8).
    rewrite C8 by lia. rewrite HA, Hx, Hy.
    apply Z.eqb_neq in Ha, Hbeta. rewrite Ha, Hbeta. reflexivity.
Qed.

(** X6: when [rocblas_symv_arg_check] answers [success], [n] or
    [batch_count] is [0] and the dispatcher, called with the same
    arguments, answers [success] too and leaves the memory and the log as
    they are. *)
Theorem symv_arg_check_success_noop
        (handle : rocblas_handle) (uplo : rocblas_fill)
        (n alpha stride_alpha : Z)
        (A : batch_ptr) (offseta lda strideA : Z)
        (x : batch_ptr) (offsetx incx stridex : Z)
        (beta stride_beta : Z)
        (y : batch_ptr) (offsety incy stridey : Z)
        (batch_count : Z) :
  rocblas_symv_arg_check handle uplo n alpha stride_alpha A offseta lda
    strideA x offsetx incx stridex beta stride_beta y offsety incy stridey
    batch_count = rocblas_status_success ->
  (n = 0 \/ batch_count = 0)
  /\ forall fuel s,
       rocblas_internal_symv_template fuel handle uplo n alpha stride_alpha
         A offseta lda strideA x offsetx incx stridex beta stride_beta
         y offsety incy stridey batch_count s
       = Some (rocblas_status_success, s).
Proof.
  unfold rocblas_symv_arg_check, rocblas_internal_symv_template.
  destruct (pointer_mode_eqb _ _ && _); [discriminate|].
  destruct (negb _ && negb _); [discriminate|].
  destruct (_ || _ || _ || _ || _ || _); [discriminate|].
  destruct ((n =? 0) || (batch_count =? 0)) eqn:E.
  - intros _. split; [|reflexivity].
    apply orb_true_iff in E. destruct E as [E|E]; apply Z.eqb_eq in E; auto.
  - destruct (_ || _ || _ || _ || _); discriminate.
Qed.

Lemma symv_arg_check_success_noop_witness :
  (0 = 0 \/ 5 = 0)
  /\ forall fuel s,
       rocblas_internal_symv_template fuel
         (mkHandle rocblas_pointer_mode_device) rocblas_fill_lower 0 0 0
         (SinglePtr 0) 0 1 0 (SinglePtr 0) 0 1 0 0 0 (SinglePtr 0) 0 1 0 5 s
       = Some (rocblas_status_success, s).
Proof.
  apply (symv_arg_check_success_noop
           (mkHandle rocblas_pointer_mode_device) rocblas_fill_lower 0 0 0
           (SinglePtr 0) 0 1 0 (SinglePtr 0) 0 1 0 0 0 (SinglePtr 0) 0 1 0 5).
  reflexivity.
Defined.

(** X7: [rocblas_syr_arg_check] answers [continue] exactly for the calls
    that select a triangle, have valid sizes with [n] and [batch_count]
    non-zero, and pass no null pointer; the residency of [alpha] and its
    stride play no part. *)
Theorem syr_arg_check_continue_iff
        (uplo : rocblas_fill) (n alpha stride_alpha : Z)
        (x : batch_ptr) (offsetx incx stridex : Z)
        (A : batch_ptr) (offseta lda strideA : Z)
        (batch_count : Z) :
  rocblas_syr_arg_check uplo n alpha stride_alpha x offsetx incx stridex
    A offseta lda strideA batch_count = rocblas_status_continue
  <-> (valid_fill uplo
       /\ syr_sizes_ok n lda incx batch_count
       /\ 1 <= n /\ 1 <= batch_count
       /\ alpha <> 0 /\ is_null x = false /\ is_null A = false).
Proof.
  destruct (syr_arg_check_cases uplo n alpha stride_alpha A offseta lda
              strideA x offsetx incx stridex batch_count) as (C3 & C4).
  split.
  - intros E.
    destruct (valid_fill_dec uplo) as [Hf|Hf];
      [|rewrite (C3 Hf) in E; discriminate].
    destruct (C4 Hf) as (C5 & C6).
    assert (Hs : syr_sizes_ok n lda incx batch_count
                 \/ ~ syr_sizes_ok n lda incx batch_count)
      by (unfold syr_sizes_ok; lia).
    destruct Hs as [Hs|Hs]; [|rewrite (C5 Hs) in E; discriminate].
    destruct (C6 Hs) as (C7 & C8).
    assert (Hn : n = 0 \/ batch_count = 0 \/ (n <> 0 /\ batch_count <> 0))
      by lia.
    destruct Hn as [Hn | [Hn | (Hn & Hb)]];
      [rewrite (C7 (or_introl Hn)) in E; discriminate
      |rewrite (C7 (or_intror Hn)) in E; discriminate|].
    rewrite (C8 Hn Hb) in E.
    destruct (Z.eqb_spec alpha 0); [discriminate|].
    destruct (is_null x); [discriminate|].
    destruct (is_null A); [discriminate|].
    unfold syr_sizes_ok in Hs. repeat split; auto; lia.
  - intros (Hf & Hs & Hn & Hb & Ha & Hx & HA).
    destruct (C4 Hf) as (_ & C6). destruct (C6 Hs) as (_ & C8).
    rewrite C8 by lia. rewrite HA, Hx.
    apply Z.eqb_neq in Ha. rewrite Ha. reflexivity.
Qed.

(** X8: when [rocblas_syr_arg_check] answers [success], [n] or
    [batch_count] is [0] and the dispatcher, called with the same
    arguments, answers [success] too and leaves the memory and the log as
    they are. *)
Theorem syr_arg_check_success_noop
        (handle : rocblas_handle)
        (uplo : rocblas_fill) (n alpha stride_alpha : Z)
        (x : batch_ptr) (offsetx incx stridex : Z)
        (A : batch_ptr) (offseta lda strideA : Z)
        (batch_count : Z) :
  rocblas_syr_arg_check uplo n alpha stride_alpha x offsetx incx stridex
    A offseta lda strideA batch_count = rocblas_status_success ->
  (n = 0 \/ batch_count = 0)
  /\ forall s,
       rocblas_internal_syr_template handle uplo n alpha stride_alpha
         x offsetx incx stridex A offseta lda strideA batch_count s
       = Some (rocblas_status_success, s).
Proof.
  unfold rocblas_syr_arg_check, rocblas_internal_syr_template.
  destruct (negb _ && negb _); [discriminate|].
  destruct (_ || _ || _ || _ || _); [discriminate|].
  destruct ((n =? 0) || (batch_count =? 0)) eqn:E.
  - intros _. split; [|reflexivity].
    apply orb_true_iff in E. destruct E as [E|E]; apply Z.eqb_eq in E; auto.
  - destruct (_ || _ || _); discriminate.
Qed.

Lemma syr_arg_check_success_noop_witness :
  (3 = 0 \/ 0 = 0)
  /\ forall s,
       rocblas_internal_syr_template (mkHandle rocblas_pointer_mode_host)
         rocblas_fill_upper 3 0 0 (SinglePtr 0) 0 1 0 (SinglePtr 0) 0 3 0 0 s
       = Some (rocblas_status_success, s).
Proof.
  apply (syr_arg_check_success_noop (mkHandle rocblas_pointer_mode_host)
           rocblas_fill_upper 3 0 0 (SinglePtr 0) 0 1 0 (SinglePtr 0) 0 3 0 0).
  reflexivity.
Defined.

(* ================================================================== *)
(** * More on a call of the syr dispatcher *)

Lemma syr_event_live_ok (a : syr_launch) (m : memory) (batch_count : Z)
      (e : event) :
  syr_event_live a m batch_count e -> syr_event_ok a batch_count e.
Proof.
  destruct e as [[] addr|[] addr]; cbn; try tauto.
  - intros (b & i & j & Hb & Hi & Hj & _ & Ht & E). exists b, i, j. auto.
  - intros (b & i & Hb & Hi & _ & E). exists b, i. auto.
  - intros (b & i & j & Hb & Hi & Hj & _ & Ht & E). exists b, i, j. auto.
Qed.

(** X9: when the index products stay inside [rocblas_int] ([n * lda] and
    [n * |incx|] at most [INT_MAX]), every access a call of the syr
    dispatcher makes is the read of
    [alpha] on the host or, for some batch instance, a read of its
    [alpha], a read of one of the [n] entries of its [x], or a read or
    write of a position on the selected triangle of its [A]; [x] is never
    written. *)
Theorem syr_call_in_bounds
        (handle : rocblas_handle) (uplo : rocblas_fill)
        (n alpha stride_alpha : Z)
        (x : batch_ptr) (offsetx incx stridex : Z)
        (A : batch_ptr) (offseta lda strideA : Z)
        (batch_count : Z) (s : state) :
  syr_range_ok n lda incx ->
  0 <= batch_count <= INT_MAX ->
  exists s' evs,
    rocblas_internal_syr_template handle uplo n alpha stride_alpha
      x offsetx incx stridex A offseta lda strideA batch_count s
    = Some (rocblas_status_success, s')
    /\ log s' = evs ++ log s
    /\ Forall (fun e =>
                 e = Rd BufAlpha alpha
                 \/ syr_event_ok
                      (syr_call_launch handle (mem s) uplo n alpha
                         stride_alpha x offsetx incx stridex A offseta lda
                         strideA) batch_count e) evs
    /\ existsb (writes_buffer BufX) evs = false.
Proof.
  intros Hrange Hbc.
  assert (Hcases : n = 0 \/ batch_count = 0
                   \/ (1 <= n /\ 1 <= batch_count))
    by (destruct Hrange; lia).
  destruct Hcases as [En | [Eb | (Hn & Hb)]].
  - exists s, []. unfold rocblas_internal_syr_template.
    rewrite En. cbn [Z.eqb orb]. repeat split. constructor.
  - exists s, []. unfold rocblas_internal_syr_template.
    rewrite Eb, orb_true_r. repeat split. constructor.
  - destruct (syr_template_spec handle uplo n alpha stride_alpha
                x offsetx incx stridex A offseta lda strideA batch_count
                Hrange Hn ltac:(lia) s)
      as (s1 & s' & E & M1 & (ev1 & L1 & F1) & (_ & _ & (evs & El & Fl & _))).
    exists s', (evs ++ ev1). split; [exact E|].
    assert (Fall : Forall (fun e =>
                 e = Rd BufAlpha alpha
                 \/ syr_event_ok
                      (syr_call_launch handle (mem s) uplo n alpha
                         stride_alpha x offsetx incx stridex A offseta lda
                         strideA) batch_count e) (evs ++ ev1)).
    { apply Forall_app. split.
      - rewrite Forall_forall in Fl |- *. intros e He. right.
        apply (syr_event_live_ok _ _ _ _ (Fl e He)).
      - rewrite Forall_forall in F1 |- *. intros e He. left. apply (F1 e He). }
    split; [rewrite El, L1; apply app_assoc|]. split; [exact Fall|].
    destruct (existsb (writes_buffer BufX) (evs ++ ev1)) eqn:Ex;
      [|reflexivity].
    apply existsb_exists in Ex. destruct Ex as (e & He & Hw).
    rewrite Forall_forall in Fall. specialize (Fall e He).
    destruct e as [buf addr|buf addr]; [discriminate|].
    destruct buf; try discriminate.
    destruct Fall as [Fall|Fall]; [discriminate|destruct Fall].
Qed.

Lemma syr_call_in_bounds_witness :
  exists s' evs,
    rocblas_internal_syr_template (mkHandle rocblas_pointer_mode_host)
      rocblas_fill_lower 2 50 0 (SinglePtr 2000) 0 1 0
      (SinglePtr 1000) 0 2 0 1
      (example_state [1; 0; 9; 1] [2; 3] [] 1 0)
    = Some (rocblas_status_success, s')
    /\ log s' = evs ++ []
    /\ Forall (fun e =>
                 e = Rd BufAlpha 50
                 \/ syr_event_ok
                      (mkSyrLaunch rocblas_fill_lower 2 (ByValue 1) 0
                                   (SinglePtr 2000) 0 1 0
                                   (SinglePtr 1000) 0 2 0) 1 e) evs
    /\ existsb (writes_buffer BufX) evs = false.
Proof.
  apply (syr_call_in_bounds (mkHandle rocblas_pointer_mode_host)
           rocblas_fill_lower 2 50 0 (SinglePtr 2000) 0 1 0
           (SinglePtr 1000) 0 2 0 1
           (example_state [1; 0; 9; 1] [2; 3] [] 1 0)).
  - unfold syr_range_ok, INT_MAX. simpl. lia.
  - unfold INT_MAX. lia.
Defined.

(* ================================================================== *)
(** * The command line of the clients *)

Lemma store_at_app {X : Type} (l1 : list X) (x v : X) (l2 : list X) :
  store_at (l1 ++ x :: l2) (List.length l1) v = l1 ++ v :: l2.
Proof.
  induction l1 as [|h t IH]; cbn; [reflexivity|]. rewrite IH. reflexivity.
Qed.

Lemma nth_app_at {X : Type} (l1 : list X) (x d : X) (l2 : list X) :
  nth (List.length l1) (l1 ++ x :: l2) d = x.
Proof. induction l1 as [|h t IH]; cbn; [reflexivity|exact IH]. Qed.

Lemma nth_app_next {X : Type} (l1 : list X) (x y d : X) (l2 : list X) :
  nth (List.length l1 + 1) (l1 ++ x :: y :: l2) d = y.
Proof. induction l1 as [|h t IH]; cbn; [reflexivity|exact IH]. Qed.

Section ParseLoop.

Variable a0 : string.

(** The loop on the array computes the scan on lists: the entries of the
    array before [i] are the program name, the arguments kept, and
    entries that were read and are stale; from [i] on it holds the
    arguments still to be read and the null pointer. *)
Lemma parse_loop_scan (fuel : nat) :
  forall (rest kept : list string) (stale : list (option string))
         (st : parse_state) (out : list output),
    ps_argv st = map Some (a0 :: kept) ++ stale ++ argv_of rest ->
    ps_argv_p st = S (List.length kept) ->
    (List.length rest < fuel)%nat ->
    match scan_args a0 rest kept (ps_filename st) (ps_help st) (ps_yaml st)
                    out with
    | Exit c o =>
        parse_loop fuel (S (List.length kept) + List.length stale) st out
        = Some (Exit c o)
    | Done (kept', fn, h, y) o =>
        exists stale',
          (List.length kept' + List.length stale'
           = List.length kept + List.length stale + List.length rest)%nat
          /\ parse_loop fuel (S (List.length kept) + List.length stale) st out
             = Some (Done (mkParse (map Some (a0 :: kept') ++ stale' ++ [None])
                                   (S (List.length kept')) fn h y) o)
    end.
Proof.
  induction fuel as [|fuel IH]; intros rest kept stale st out Harr Hp Hfuel;
    [lia|].
  assert (Hlen : List.length (map Some (a0 :: kept) ++ stale)
                 = (S (List.length kept) + List.length stale)%nat).
  { rewrite length_app, length_map. reflexivity. }
  destruct st as [arr p fn h y]. cbn [ps_argv ps_argv_p ps_filename ps_help
                                      ps_yaml] in *.
  subst p. rewrite app_assoc in Harr.
  destruct rest as [|a rest'].
  - cbn [scan_args]. exists stale. split; [cbn; lia|].
    cbn [parse_loop ps_argv]. rewrite Harr, <- Hlen.
    change (argv_of []) with [@None string]. rewrite nth_app_at.
    rewrite <- app_assoc. reflexivity.
  - cbn [scan_args parse_loop ps_argv ps_argv_p ps_filename ps_help ps_yaml].
    rewrite Harr, <- Hlen.
    change (argv_of (a :: rest')) with (Some a :: argv_of rest').
    rewrite nth_app_at. unfold is_data_option.
    destruct ((a =? "--data")%string || (a =? "--yaml")%string) eqn:Eopt.
    + destruct (negb (fn =? "")%string) eqn:Efn; [reflexivity|].
      destruct rest' as [|f rest''].
      * change (argv_of []) with [@None string]. rewrite nth_app_next.
        reflexivity.
      * change (argv_of (f :: rest'')) with (Some f :: argv_of rest'').
        rewrite nth_app_next.
        destruct (f =? "")%string eqn:Ef; [reflexivity|].
        specialize (IH rest'' kept (stale ++ [Some a; Some f])
                       (mkParse (map Some (a0 :: kept) ++ stale
                                 ++ Some a :: Some f :: argv_of rest'')
                                (S (List.length kept)) f h
                                (if (a =? "--yaml")%string then true else y))
                       out).
        cbn [ps_argv ps_argv_p ps_filename ps_help ps_yaml] in IH.
        rewrite <- !app_assoc in IH. cbn [app] in IH.
        specialize (IH eq_refl eq_refl ltac:(cbn in Hfuel; lia)).
        rewrite length_app in IH. cbn [List.length] in IH.
        replace (List.length (map Some (a0 :: kept) ++ stale) + 2)%nat
          with (S (List.length kept) + (List.length stale + 2))%nat by lia.
        rewrite <- app_assoc.
        destruct (scan_args a0 rest'' kept f h
                            (if (a =? "--yaml")%string then true else y) out)
          as [[[[kept' fn'] h'] y'] o|c o].
        -- destruct IH as (stale' & Hl & E). exists stale'.
           split; [cbn [List.length]; lia|exact E].
        -- exact IH.
    + assert (Hst : store_at ((map Some (a0 :: kept) ++ stale)
                              ++ Some a :: argv_of rest')
                             (S (List.length kept)) (Some a)
                    = map Some (a0 :: kept ++ [a])
                      ++ (tl (stale ++ [Some a])) ++ argv_of rest').
      { destruct stale as [|s0 stale'].
        - rewrite app_nil_r.
          replace (S (List.length kept))
            with (List.length (map Some (a0 :: kept)))
            by (rewrite length_map; reflexivity).
          rewrite store_at_app. cbn [app tl map].
          rewrite map_app. cbn [map app]. rewrite <- ?app_assoc.
          cbn [app]. reflexivity.
        - rewrite <- app_assoc. cbn [app].
          replace (S (List.length kept))
            with (List.length (map Some (a0 :: kept)))
            by (rewrite length_map; reflexivity).
          rewrite store_at_app. cbn [app tl map].
          rewrite map_app. cbn [map app]. rewrite <- ?app_assoc.
          cbn [app]. reflexivity. }
      rewrite Hst.
      assert (Hnm : program_name (map Some (a0 :: kept ++ [a])
                                  ++ tl (stale ++ [Some a])
                                  ++ argv_of rest') = a0)
        by reflexivity.
      rewrite Hnm.
      assert (Hsl : List.length (tl (stale ++ [Some a])) = List.length stale).
      { destruct stale; cbn; [reflexivity|]. rewrite length_app. cbn. lia. }
      assert (Hkl : List.length (kept ++ [a]) = S (List.length kept))
        by (rewrite length_app; cbn; lia).
      replace (List.length (map Some (a0 :: kept) ++ stale) + 1)%nat
        with (S (List.length (kept ++ [a]))
              + List.length (tl (stale ++ [Some a])))%nat by lia.
      unfold is_help_option.
      destruct (negb h && ((a =? "-h")%string || (a =? "--help")%string))
               eqn:Ehelp.
      * specialize (IH rest' (kept ++ [a]) (tl (stale ++ [Some a]))
                       (mkParse (map Some (a0 :: kept ++ [a])
                                 ++ tl (stale ++ [Some a]) ++ argv_of rest')
                                (S (S (List.length kept))) fn true y)
                       (out ++ [usage a0])).
        cbn [ps_argv ps_argv_p ps_filename ps_help ps_yaml] in IH.
        specialize (IH eq_refl ltac:(lia) ltac:(cbn in Hfuel; lia)).
        unfold usage in IH |- *.
        destruct (scan_args a0 rest' (kept ++ [a]) fn true y _)
          as [[[[kept' fn'] h'] y'] o|c o].
        -- destruct IH as (stale' & Hl & E). exists stale'.
           split; [cbn [List.length]; lia|exact E].
        -- exact IH.
      * specialize (IH rest' (kept ++ [a]) (tl (stale ++ [Some a]))
                       (mkParse (map Some (a0 :: kept ++ [a])
                                 ++ tl (stale ++ [Some a]) ++ argv_of rest')
                                (S (S (List.length kept))) fn h y)
                       out).
        cbn [ps_argv ps_argv_p ps_filename ps_help ps_yaml] in IH.
        specialize (IH eq_refl ltac:(lia) ltac:(cbn in Hfuel; lia)).
        destruct (scan_args a0 rest' (kept ++ [a]) fn h y out)
          as [[[[kept' fn'] h'] y'] o|c o].
        -- destruct IH as (stale' & Hl & E). exists stale'.
           split; [cbn [List.length]; lia|exact E].
        -- exact IH.
Qed.

End ParseLoop.

(** ** The scan on lists *)

Lemma scan_prefix (a0 : string) (pre : list string) :
  forall (rest kept : list string) (fn : string) (h y : bool)
         (out : list output),
    Forall (fun a => is_data_option a = false) pre ->
    scan_args a0 (pre ++ rest) kept fn h y out
    = scan_args a0 rest (kept ++ pre) fn
                (h || existsb is_help_option pre) y
                (out ++ (if negb h && existsb is_help_option pre
                         then [usage a0] else [])).
Proof.
  induction pre as [|a pre IH]; intros rest kept fn h y out Hpre.
  - cbn [app existsb]. rewrite orb_false_r, andb_false_r, !app_nil_r.
    reflexivity.
  - inversion Hpre as [|a' pre' Ha Hpre']; subst.
    cbn [app scan_args existsb]. rewrite Ha.
    replace (kept ++ a :: pre) with ((kept ++ [a]) ++ pre)
      by (rewrite <- app_assoc; reflexivity).
    destruct h, (is_help_option a); cbn [negb andb orb];
      rewrite (IH _ _ _ _ _ _ Hpre'); cbn [negb andb orb];
      rewrite <- ?app_assoc; cbn [app]; reflexivity.
Qed.

Lemma scan_plain (a0 : string) (args kept : list string) (fn : string)
      (h y : bool) (out : list output) :
  Forall (fun a => is_data_option a = false) args ->
  scan_args a0 args kept fn h y out
  = Done (kept ++ args, fn, h || existsb is_help_option args, y)
         (out ++ (if negb h && existsb is_help_option args
                  then [usage a0] else [])).
Proof.
  intros H. rewrite <- (app_nil_r args) at 1.
  rewrite (scan_prefix a0 args [] kept fn h y out H). reflexivity.
Qed.

(** A scan that ends without [exit] took out one option with its argument
    at most, and kept the other arguments in their order. *)
Lemma scan_done_shape (a0 : string) (k : nat) :
  forall (rest kept : list string) (fn : string) (h y : bool)
         (out : list output) kept' fn' h' y' o,
    (List.length rest <= k)%nat ->
    scan_args a0 rest kept fn h y out = Done (kept', fn', h', y') o ->
    (kept' = kept ++ rest /\ fn' = fn /\ y' = y
     /\ Forall (fun a => is_data_option a = false) rest)
    \/ (fn = EmptyString
        /\ exists pre opt f post,
             rest = pre ++ opt :: f :: post
             /\ Forall (fun a => is_data_option a = false) pre
             /\ Forall (fun a => is_data_option a = false) post
             /\ is_data_option opt = true /\ f <> EmptyString
             /\ kept' = kept ++ pre ++ post /\ fn' = f
             /\ y' = (if (opt =? "--yaml")%string then true else y)).
Proof.
  induction k as [|k IH]; intros rest kept fn h y out kept' fn' h' y' o Hk E.
  - destruct rest; [|cbn in Hk; lia]. cbn in E. inversion E; subst.
    left. rewrite app_nil_r. repeat split. constructor.
  - destruct rest as [|a rest'].
    + cbn in E. inversion E; subst.
      left. rewrite app_nil_r. repeat split. constructor.
    + cbn [scan_args] in E. destruct (is_data_option a) eqn:Ea.
      * destruct (fn =? "")%string eqn:Efn; cbn [negb] in E; [|discriminate].
        apply String.eqb_eq in Efn. subst fn.
        destruct rest' as [|f rest'']; [discriminate|].
        destruct (f =? "")%string eqn:Ef; [discriminate|].
        apply String.eqb_neq in Ef.
        apply IH in E; [|cbn in Hk |- *; lia].
        destruct E as [(Ek & Efn' & Ey & Hall) | (Efn' & _)];
          [|contradiction].
        right. split; [reflexivity|].
        exists [], a, f, rest''. cbn [app].
        repeat split; auto.
      * assert (E' : exists h1 out1,
                   scan_args a0 rest' (kept ++ [a]) fn h1 y out1
                   = Done (kept', fn', h', y') o).
        { destruct (negb h && is_help_option a); eauto. }
        destruct E' as (h1 & out1 & E').
        apply IH in E'; [|cbn in Hk |- *; lia].
        destruct E' as [(Ek & Efn' & Ey & Hall)
                       | (Efn' & pre & opt & f & post & Er & Hpre & Hpost
                          & Ho & Hf & Ek & Ef' & Ey)].
        -- left. rewrite <- app_assoc in Ek. cbn [app] in Ek.
           repeat split; auto.
        -- right. split; [exact Efn'|].
           exists (a :: pre), opt, f, post. subst rest'. cbn [app].
           rewrite <- app_assoc in Ek. cbn [app] in Ek.
           repeat split; auto.
Qed.

(** ** From the scan to the call *)

Section ParseData.

Variables (env : os) (a0 : string) (args : list string).
Variable default_file : string.
Variable fuel : nat.

Hypothesis Hfuel : (List.length args < fuel)%nat.

Lemma parse_data_exit (c : Z) (o : list output) :
  scan_args a0 args [] EmptyString false false [] = Exit c o ->
  rocblas_parse_data fuel env (argv_of (a0 :: args)) default_file
  = Some (Exit c o).
Proof.
  intros E.
  pose proof (parse_loop_scan a0 fuel args [] []
                (mkParse (argv_of (a0 :: args)) 1 EmptyString false false)
                [] eq_refl eq_refl Hfuel) as H.
  cbn [ps_filename ps_help ps_yaml] in H. rewrite E in H.
  unfold rocblas_parse_data. cbn [List.length Nat.add] in H.
  rewrite H. reflexivity.
Qed.

Lemma parse_data_done (kept : list string) (fn : string) (h y : bool)
      (o : list output) :
  scan_args a0 args [] EmptyString false false [] = Done (kept, fn, h, y) o ->
  exists tail,
    (List.length kept + List.length tail = List.length args)%nat
    /\ rocblas_parse_data fuel env (argv_of (a0 :: args)) default_file
       = match (if y
                then rocblas_parse_yaml env
                       (if (fn =? "-")%string then "/dev/stdin"%string
                        else if (fn =? "")%string then default_file else fn)
                else Done (if (fn =? "-")%string then "/dev/stdin"%string
                           else if (fn =? "")%string then default_file
                                else fn) []) with
         | Exit c o' => Some (Exit c (o ++ o'))
         | Done f o' =>
             if negb (f =? "")%string
             then Some (Done (mkResult true
                                (to_int (Z.of_nat (S (List.length kept))))
                                (map Some (a0 :: kept) ++ None :: tail)
                                (Some (f, y)))
                             (o ++ o'))
             else Some (Done (mkResult false
                                (to_int (Z.of_nat (S (List.length kept))))
                                (map Some (a0 :: kept) ++ None :: tail)
                                None)
                             (o ++ o'))
         end.
Proof.
  intros E.
  pose proof (parse_loop_scan a0 fuel args [] []
                (mkParse (argv_of (a0 :: args)) 1 EmptyString false false)
                [] eq_refl eq_refl Hfuel) as H.
  cbn [ps_filename ps_help ps_yaml] in H. rewrite E in H.
  destruct H as (stale' & Hl & H). cbn [List.length Nat.add] in H, Hl.
  exists (tl (stale' ++ [None])). split.
  { destruct stale'; cbn [app tl List.length] in *; [lia|].
    rewrite length_app. cbn. lia. }
  unfold rocblas_parse_data. rewrite H.
  cbn [ps_argv ps_argv_p ps_filename ps_yaml].
  assert (Hst : store_at (map Some (a0 :: kept) ++ stale' ++ [None])
                         (S (List.length kept)) None
                = map Some (a0 :: kept) ++ None :: tl (stale' ++ [None])).
  { replace (S (List.length kept))
      with (List.length (map Some (a0 :: kept)))
      by (rewrite length_map; reflexivity).
    destruct stale' as [|s0 stale'']; cbn [app tl]; apply store_at_app. }
  rewrite Hst. reflexivity.
Qed.

End ParseData.

Lemma firstn_exact {X : Type} (l1 l2 : list X) :
  firstn (List.length l1) (l1 ++ l2) = l1.
Proof. induction l1 as [|h t IH]; cbn; [reflexivity|]. rewrite IH. reflexivity. Qed.

Lemma argc_int (k : nat) :
  Z.of_nat k < INT_MAX -> to_int (Z.of_nat (S k)) = Z.of_nat (S k).
Proof. intros H. apply to_int_id. unfold INT_MAX in *. lia. Qed.

Lemma data_file_not_empty (f : string) :
  f <> EmptyString -> (data_file f =? "")%string = false.
Proof.
  intros H. unfold data_file. destruct (f =? "-")%string; [reflexivity|].
  apply String.eqb_neq. exact H.
Qed.

Lemma usage_once (a0 : string) (pre post : list string) :
  (([] ++ (if negb false && existsb is_help_option pre
           then [usage a0] else []))
   ++ (if negb (false || existsb is_help_option pre)
          && existsb is_help_option post
       then [usage a0] else []))
  = (if existsb is_help_option (pre ++ post) then [usage a0] else []).
Proof.
  rewrite existsb_app.
  destruct (existsb is_help_option pre), (existsb is_help_option post);
    reflexivity.
Qed.

(** A command line with one option and its argument, and no other. *)
Lemma parse_data_one_option
      (env : os) (a0 : string) (pre : list string) (opt f : string)
      (post : list string) (default_file : string) (fuel : nat) :
  (List.length (pre ++ opt :: f :: post) < fuel)%nat ->
  Z.of_nat (List.length (pre ++ opt :: f :: post)) < INT_MAX ->
  Forall (fun a => is_data_option a = false) pre ->
  Forall (fun a => is_data_option a = false) post ->
  is_data_option opt = true ->
  f <> EmptyString ->
  exists tail,
    List.length tail = 2%nat
    /\ rocblas_parse_data fuel env (argv_of (a0 :: pre ++ opt :: f :: post))
                          default_file
       = match (if (opt =? "--yaml")%string
                then rocblas_parse_yaml env (data_file f)
                else Done (data_file f) []) with
         | Exit c o' =>
             Some (Exit c ((if existsb is_help_option (pre ++ post)
                            then [usage a0] else []) ++ o'))
         | Done g o' =>
             if negb (g =? "")%string
             then Some (Done (mkResult true
                                (Z.of_nat (S (List.length (pre ++ post))))
                                (map Some (a0 :: pre ++ post) ++ None :: tail)
                                (Some (g, (opt =? "--yaml")%string)))
                             ((if existsb is_help_option (pre ++ post)
                               then [usage a0] else []) ++ o'))
             else Some (Done (mkResult false
                                (Z.of_nat (S (List.length (pre ++ post))))
                                (map Some (a0 :: pre ++ post) ++ None :: tail)
                                None)
                             ((if existsb is_help_option (pre ++ post)
                               then [usage a0] else []) ++ o'))
         end.
Proof.
  intros Hfuel Hlen Hpre Hpost Hopt Hf.
  assert (Ef : (f =? "")%string = false) by (apply String.eqb_neq; exact Hf).
  assert (Escan : scan_args a0 (pre ++ opt :: f :: post) [] EmptyString
                            false false []
                  = Done (pre ++ post, f,
                          existsb is_help_option (pre ++ post),
                          (opt =? "--yaml")%string)
                         (if existsb is_help_option (pre ++ post)
                          then [usage a0] else [])).
  { rewrite (scan_prefix a0 pre _ _ _ _ _ _ Hpre).
    cbn [scan_args]. rewrite Hopt. cbn [String.eqb negb]. rewrite Ef.
    rewrite (scan_plain a0 post _ _ _ _ _ Hpost).
    rewrite usage_once. rewrite existsb_app. cbn [app orb].
    destruct (opt =? "--yaml")%string; reflexivity. }
  destruct (parse_data_done env a0 _ default_file fuel Hfuel _ _ _ _ _ Escan)
    as (tail & Htail & E).
  exists tail. split.
  { rewrite !length_app in Htail. cbn [List.length] in Htail. lia. }
  rewrite E. rewrite Ef.
  assert (Hl2 : Z.of_nat (List.length (pre ++ post)) < INT_MAX).
  { rewrite !length_app in Hlen |- *. cbn [List.length] in Hlen. lia. }
  rewrite (argc_int _ Hl2).
  fold (data_file f). reflexivity.
Qed.

(** X12: a command line without [--data] and [--yaml] is left as it is:
    [rocblas_parse_data] returns with [argv] unchanged and [argc] the
    number of its strings, prints the usage line once when [-h] or
    [--help] is among the arguments, and registers the default file; it
    returns [false], registering nothing, exactly when the default file
    name is empty. *)
Theorem parse_data_plain
        (env : os) (a0 : string) (args : list string)
        (default_file : string) (fuel : nat) :
  (List.length args < fuel)%nat ->
  Z.of_nat (List.length args) < INT_MAX ->
  Forall (fun a => is_data_option a = false) args ->
  rocblas_parse_data fuel env (argv_of (a0 :: args)) default_file
  = Some (Done (mkResult (negb (default_file =? "")%string)
                         (Z.of_nat (S (List.length args)))
                         (argv_of (a0 :: args))
                         (if (default_file =? "")%string then None
                          else Some (default_file, false)))
               (if existsb is_help_option args then [usage a0] else [])).
Proof.
  intros Hfuel Hlen Hargs.
  pose proof (scan_plain a0 args [] EmptyString false false [] Hargs) as Es.
  destruct (parse_data_done env a0 args default_file fuel Hfuel _ _ _ _ _ Es)
    as (tail & Htail & E).
  cbn [app] in Htail. destruct tail; [|cbn in Htail; lia].
  rewrite E. cbn [app String.eqb orb negb andb].
  rewrite (argc_int _ Hlen), app_nil_r.
  destruct (default_file =? "")%string; reflexivity.
Qed.

Lemma parse_data_plain_witness :
  rocblas_parse_data 5 example_os
    (argv_of ["rocblas-test"; "--gtest_filter=*symv*"; "-h"; "--help"])%string
    "rocblas_gtest.data"
  = Some (Done (mkResult true 4
                  (argv_of ["rocblas-test"; "--gtest_filter=*symv*"; "-h";
                            "--help"])%string
                  (Some ("rocblas_gtest.data"%string, false)))
               [usage "rocblas-test"]).
Proof.
  apply (parse_data_plain example_os "rocblas-test"
           ["--gtest_filter=*symv*"; "-h"; "--help"]%string
           "rocblas_gtest.data" 5).
  - cbn. lia.
  - unfold INT_MAX. cbn. lia.
  - repeat constructor.
Defined.

(** X13: [--data <file>] is taken out of the command line: the other
    arguments keep their order, [argv[argc]] is the null pointer, [argc]
    drops by two, and the file is registered as a data file, with
    [/dev/stdin] standing for [-]; the default file and the environment
    play no part. *)
Theorem parse_data_data_option
        (env : os) (a0 : string) (pre : list string) (f : string)
        (post : list string) (default_file : string) (fuel : nat) :
  (List.length (pre ++ "--data"%string :: f :: post) < fuel)%nat ->
  Z.of_nat (List.length (pre ++ "--data"%string :: f :: post)) < INT_MAX ->
  Forall (fun a => is_data_option a = false) pre ->
  Forall (fun a => is_data_option a = false) post ->
  f <> EmptyString ->
  exists tail,
    List.length tail = 2%nat
    /\ rocblas_parse_data fuel env
         (argv_of (a0 :: pre ++ "--data"%string :: f :: post)) default_file
       = Some (Done (mkResult true
                       (Z.of_nat (S (List.length (pre ++ post))))
                       (map Some (a0 :: pre ++ post) ++ None :: tail)
                       (Some (data_file f, false)))
                    (if existsb is_help_option (pre ++ post)
                     then [usage a0] else [])).
Proof.
  intros Hfuel Hlen Hpre Hpost Hf.
  destruct (parse_data_one_option env a0 pre "--data" f post default_file
              fuel Hfuel Hlen Hpre Hpost eq_refl Hf) as (tail & Ht & E).
  exists tail. split; [exact Ht|].
  rewrite E. cbn [String.eqb Ascii.eqb Bool.eqb andb].
  rewrite (data_file_not_empty f Hf), app_nil_r. reflexivity.
Qed.

Lemma parse_data_data_option_witness :
  exists tail,
    List.length tail = 2%nat
    /\ rocblas_parse_data 6 example_os
         (argv_of ("rocblas-test" :: ["-v"] ++ "--data" :: "-" :: ["--help"]))%string
         "default.data"
       = Some (Done (mkResult true 3
                       (map Some ["rocblas-test"; "-v"; "--help"]%string
                        ++ None :: tail)
                       (Some ("/dev/stdin"%string, false)))
                    [usage "rocblas-test"]).
Proof.
  apply (parse_data_data_option example_os "rocblas-test" ["-v"%string] "-"
           ["--help"%string] "default.data" 6).
  - cbn. lia.
  - unfold INT_MAX. cbn. lia.
  - repeat constructor.
  - repeat constructor.
  - discriminate.
Defined.

(** X14: [--yaml <file>] is taken out of the command line in the same
    way, and the file, with [/dev/stdin] standing for [-], is handed to
    [rocblas_parse_yaml]: the call exits when that exits, and otherwise
    registers the temporary file it made as a YAML-generated file. *)
Theorem parse_data_yaml_option
        (env : os) (a0 : string) (pre : list string) (f : string)
        (post : list string) (default_file : string) (fuel : nat) :
  (List.length (pre ++ "--yaml"%string :: f :: post) < fuel)%nat ->
  Z.of_nat (List.length (pre ++ "--yaml"%string :: f :: post)) < INT_MAX ->
  Forall (fun a => is_data_option a = false) pre ->
  Forall (fun a => is_data_option a = false) post ->
  f <> EmptyString ->
  exists tail,
    List.length tail = 2%nat
    /\ rocblas_parse_data fuel env
         (argv_of (a0 :: pre ++ "--yaml"%string :: f :: post)) default_file
       = match rocblas_parse_yaml env (data_file f) with
         | Exit c o' =>
             Some (Exit c ((if existsb is_help_option (pre ++ post)
                            then [usage a0] else []) ++ o'))
         | Done tmp o' =>
             Some (Done (mkResult (negb (tmp =? "")%string)
                           (Z.of_nat (S (List.length (pre ++ post))))
                           (map Some (a0 :: pre ++ post) ++ None :: tail)
                           (if (tmp =? "")%string then None
                            else Some (tmp, true)))
                        ((if existsb is_help_option (pre ++ post)
                          then [usage a0] else []) ++ o'))
         end.
Proof.
  intros Hfuel Hlen Hpre Hpost Hf.
  destruct (parse_data_one_option env a0 pre "--yaml" f post default_file
              fuel Hfuel Hlen Hpre Hpost eq_refl Hf) as (tail & Ht & E).
  exists tail. split; [exact Ht|].
  rewrite E. cbn [String.eqb Ascii.eqb Bool.eqb andb].
  destruct (rocblas_parse_yaml env (data_file f)) as [tmp o'|c o'];
    [|reflexivity].
  destruct (tmp =? "")%string; reflexivity.
Qed.

Lemma parse_data_yaml_option_witness :
  exists tail,
    List.length tail = 2%nat
    /\ rocblas_parse_data 6 example_os
         (argv_of ("rocblas-bench" :: [] ++ "--yaml" :: "symv.yaml" :: ["-v"]))%string
         "default.data"
       = Some (Done (mkResult true 2
                       (map Some ["rocblas-bench"; "-v"]%string
                        ++ None :: tail)
                       (Some ("/tmp/rocblas-a1b2c3"%string, true)))
                    [Cerr ("/opt/bin/rocblas_gentest.py --template /opt/bin/rocblas_template.yaml -o /tmp/rocblas-a1b2c3 symv.yaml"
                           ++ endl)]).
Proof.
  apply (parse_data_yaml_option example_os "rocblas-bench" [] "symv.yaml"
           ["-v"%string] "default.data" 6).
  - cbn. lia.
  - unfold INT_MAX. cbn. lia.
  - constructor.
  - repeat constructor.
  - discriminate.
Defined.

(** X15: a second [--data] or [--yaml] ends the client: with one option
    and its argument read, the next option makes [rocblas_parse_data]
    print that only one may be specified and exit with [EXIT_FAILURE],
    whatever follows it. *)
Theorem parse_data_rejects_second_option
        (env : os) (a0 : string) (pre : list string) (opt f : string)
        (mid : list string) (opt2 : string) (rest : list string)
        (default_file : string) (fuel : nat) :
  (List.length (pre ++ opt :: f :: mid ++ opt2 :: rest) < fuel)%nat ->
  Forall (fun a => is_data_option a = false) pre ->
  Forall (fun a => is_data_option a = false) mid ->
  is_data_option opt = true -> is_data_option opt2 = true ->
  f <> EmptyString ->
  rocblas_parse_data fuel env
    (argv_of (a0 :: pre ++ opt :: f :: mid ++ opt2 :: rest)) default_file
  = Some (Exit EXIT_FAILURE
            ((if existsb is_help_option (pre ++ mid) then [usage a0] else [])
             ++ [Cerr ("Only one of the --yaml and --data options may be specified"
                       ++ endl)])).
Proof.
  intros Hfuel Hpre Hmid Hopt Hopt2 Hf.
  apply parse_data_exit; [exact Hfuel|].
  assert (Ef : (f =? "")%string = false) by (apply String.eqb_neq; exact Hf).
  rewrite (scan_prefix a0 pre _ _ _ _ _ _ Hpre).
  cbn [scan_args]. rewrite Hopt. cbn [String.eqb negb]. rewrite Ef.
  rewrite (scan_prefix a0 mid _ _ _ _ _ _ Hmid).
  cbn [scan_args]. rewrite Hopt2, Ef. cbn [negb].
  rewrite usage_once. reflexivity.
Qed.

Lemma parse_data_rejects_second_option_witness :
  rocblas_parse_data 8 example_os
    (argv_of ("rocblas-test" :: ["-h"] ++ "--data" :: "a.dat"
              :: ["-v"] ++ "--yaml" :: ["b.yaml"]))%string
    "default.data"
  = Some (Exit EXIT_FAILURE
            ([usage "rocblas-test"]
             ++ [Cerr ("Only one of the --yaml and --data options may be specified"
                       ++ endl)])).
Proof.
  apply (parse_data_rejects_second_option example_os "rocblas-test"
           ["-h"%string] "--data" "a.dat" ["-v"%string] "--yaml"
           ["b.yaml"%string] "default.data" 8).
  - cbn. lia.
  - repeat constructor.
  - repeat constructor.
  - reflexivity.
  - reflexivity.
  - discriminate.
Defined.

(** X16: the first [--data] or [--yaml] needs an argument: when it is
    the last string of the command line, or the next string is empty,
    [rocblas_parse_data] prints that the option requires an argument and
    exits with [EXIT_FAILURE]. *)
Theorem parse_data_option_needs_argument
        (env : os) (a0 : string) (pre : list string) (opt : string)
        (rest : list string) (default_file : string) (fuel : nat) :
  (List.length (pre ++ opt :: rest) < fuel)%nat ->
  Forall (fun a => is_data_option a = false) pre ->
  is_data_option opt = true ->
  rest = [] \/ (exists rest', rest = EmptyString :: rest') ->
  rocblas_parse_data fuel env (argv_of (a0 :: pre ++ opt :: rest))
                     default_file
  = Some (Exit EXIT_FAILURE
            ((if existsb is_help_option pre then [usage a0] else [])
             ++ [Cerr ("The " ++ opt ++ " option requires an argument"
                       ++ endl)])).
Proof.
  intros Hfuel Hpre Hopt Hrest.
  apply parse_data_exit; [exact Hfuel|].
  rewrite (scan_prefix a0 pre _ _ _ _ _ _ Hpre).
  cbn [scan_args]. rewrite Hopt. cbn [String.eqb negb app andb].
  destruct Hrest as [-> | (rest' & ->)]; reflexivity.
Qed.

Lemma parse_data_option_needs_argument_witness :
  rocblas_parse_data 4 example_os
    (argv_of ("rocblas-test" :: ["-v"] ++ "--yaml" :: []))%string
    "default.data"
  = Some (Exit EXIT_FAILURE
            ([] ++ [Cerr ("The --yaml option requires an argument"
                          ++ endl)])).
Proof.
  apply (parse_data_option_needs_argument example_os "rocblas-test"
           ["-v"%string] "--yaml" [] "default.data" 4).
  - cbn. lia.
  - repeat constructor.
  - reflexivity.
  - left. reflexivity.
Defined.

(** X17: [rocblas_parse_data] always ends, and whenever it returns: the
    first [argc] entries of [argv] are the program name and arguments that
    are neither [--data] nor [--yaml], [argv[argc]] is the null pointer,
    and the arguments kept are all the arguments, or all but one option
    and its non-empty argument, in their order; it returns [true] exactly
    when it registered a file, and the name of that file is not empty. *)
Theorem parse_data_returns
        (env : os) (a0 : string) (args : list string)
        (default_file : string) (fuel : nat) :
  (List.length args < fuel)%nat ->
  Z.of_nat (List.length args) < INT_MAX ->
  exists res,
    rocblas_parse_data fuel env (argv_of (a0 :: args)) default_file
    = Some res
    /\ forall r out,
         res = Done r out ->
         (exists kept,
             kept_args r = map Some (a0 :: kept)
             /\ nth (Z.to_nat (r_argc r)) (r_argv r) (Some EmptyString) = None
             /\ Forall (fun a => is_data_option a = false) kept
             /\ (kept = args
                 \/ exists pre opt f post,
                      args = pre ++ opt :: f :: post
                      /\ is_data_option opt = true /\ f <> EmptyString
                      /\ kept = pre ++ post))
         /\ (r_return r = true
             <-> exists g y, r_set_filename r = Some (g, y)
                             /\ g <> EmptyString).
Proof.
  intros Hfuel Hlen.
  destruct (scan_args a0 args [] EmptyString false false [])
    as [[[[kept fn] h] y] o|c o] eqn:Es.
  - destruct (parse_data_done env a0 args default_file fuel Hfuel _ _ _ _ _ Es)
      as (tail & Htail & E).
    assert (Hk : Z.of_nat (List.length kept) < INT_MAX) by lia.
    assert (Hshape :
              Forall (fun a => is_data_option a = false) kept
              /\ (kept = args
                  \/ exists pre opt f post,
                       args = pre ++ opt :: f :: post
                       /\ is_data_option opt = true /\ f <> EmptyString
                       /\ kept = pre ++ post)).
    { destruct (scan_done_shape a0 (List.length args) _ _ _ _ _ _ _ _ _ _ _
                  (le_n _) Es)
        as [(Ek & _ & _ & Hall)
           | (_ & pre & opt & f & post & Ea & Hpre & Hpost & Ho & Hf & Ek & _)].
      - cbn [app] in Ek. subst kept. split; [exact Hall|left; reflexivity].
      - cbn [app] in Ek. subst kept. split.
        + apply Forall_app. split; assumption.
        + right. exists pre, opt, f, post. repeat split; auto. }
    assert (Harr : forall ret sf,
               (exists kept0,
                   kept_args (mkResult ret
                                (to_int (Z.of_nat (S (List.length kept))))
                                (map Some (a0 :: kept) ++ None :: tail) sf)
                   = map Some (a0 :: kept0)
                   /\ nth (Z.to_nat
                             (r_argc (mkResult ret
                                (to_int (Z.of_nat (S (List.length kept))))
                                (map Some (a0 :: kept) ++ None :: tail) sf)))
                          (r_argv (mkResult ret
                                (to_int (Z.of_nat (S (List.length kept))))
                                (map Some (a0 :: kept) ++ None :: tail) sf))
                          (Some EmptyString) = None
                   /\ Forall (fun a => is_data_option a = false) kept0
                   /\ (kept0 = args
                       \/ exists pre opt f post,
                            args = pre ++ opt :: f :: post
                            /\ is_data_option opt = true /\ f <> EmptyString
                            /\ kept0 = pre ++ post))).
    { intros ret sf. exists kept. unfold kept_args.
      cbn [r_argc r_argv]. rewrite (argc_int _ Hk), Nat2Z.id.
      replace (S (List.length kept))
        with (List.length (map Some (a0 :: kept)))
        by (rewrite length_map; reflexivity).
      rewrite firstn_exact, nth_app_at.
      split; [reflexivity|]. split; [reflexivity|]. exact Hshape. }
    rewrite E.
    destruct (if y then _ else _) as [g o'|c o'].
    + destruct (g =? "")%string eqn:Eg; cbn [negb].
      * eexists. split; [reflexivity|]. intros r out Er.
        inversion Er; subst. split; [apply Harr|].
        cbn [r_return r_set_filename]. split; [discriminate|].
        intros (g' & y' & Hg & _). discriminate.
      * eexists. split; [reflexivity|]. intros r out Er.
        inversion Er; subst. split; [apply Harr|].
        cbn [r_return r_set_filename]. split; [|reflexivity].
        intros _. exists g, y. split; [reflexivity|].
        apply String.eqb_neq. exact Eg.
    + eexists. split; [reflexivity|]. intros r out Er. discriminate.
  - rewrite (parse_data_exit env a0 args default_file fuel Hfuel c o Es).
    eexists. split; [reflexivity|]. intros r out Er. discriminate.
Qed.

Lemma parse_data_returns_witness :
  exists res,
    rocblas_parse_data 6 example_os
      (argv_of ["rocblas-test"; "-v"; "--data"; "a.dat"; "--help"])%string
      "default.data"
    = Some res
    /\ forall r out,
         res = Done r out ->
         (exists kept,
             kept_args r = map Some ("rocblas-test"%string :: kept)
             /\ nth (Z.to_nat (r_argc r)) (r_argv r) (Some EmptyString) = None
             /\ Forall (fun a => is_data_option a = false) kept
             /\ (kept = ["-v"; "--data"; "a.dat"; "--help"]%string
                 \/ exists pre opt f post,
                      ["-v"; "--data"; "a.dat"; "--help"]%string
                      = pre ++ opt :: f :: post
                      /\ is_data_option opt = true /\ f <> EmptyString
                      /\ kept = pre ++ post))
         /\ (r_return r = true
             <-> exists g y, r_set_filename r = Some (g, y)
                             /\ g <> EmptyString).
Proof.
  apply (parse_data_returns example_os "rocblas-test"
           ["-v"; "--data"; "a.dat"; "--help"]%string "default.data" 6).
  - cbn. lia.
  - unfold INT_MAX. cbn. lia.
Defined.
